(** * modules/text_generation.py: stop strings, streaming cadence, session lock

    A shallow embedding of the control logic of [modules/text_generation.py]:
    the stop-string matcher [apply_stopping_strings], the seed coercion
    [set_manual_seed], the streaming loop of [_generate_reply] and the two
    lock-holding entry points [generate_reply] and [generate_reply_token].

    Python values are modelled as follows.
    - [str] is a list of characters; [s.find], slices and [==] are written
      out below with Python's conventions (index [-1] for "not found",
      negative slice bounds counted from the end and clamped).
    - Clock readings ([time.time()]) and [state['max_tokens_second']] are
      rationals, and the float literal of the update window is the rational
      it denotes as a double.  The arithmetic on them is exact, as the
      difference of two doubles is when neither is more than twice the
      other, which is the case of two readings of one clock.
    - [state] is a dict passed by reference; the dicts a request names live
      in a small store, so that a write through one name shows through the
      other names of the same dict.
    - A generator is modelled by what a consumer that drains it observes:
      the list of events it produces and the way it ends.

    The second half of the definitions covers the rest of the module:
    [fix_galactica], [encode], [decode], [get_encoded_length],
    [get_reply_from_output_ids], the two backend generators
    [generate_reply_HF] and [generate_reply_custom], [fix_gpt4chan],
    [formatted_outputs] and [generate_reply_wrapper].  The tokenizer, the
    model, the html module and the extensions are given as records of
    what the module takes from them. *)

From Stdlib Require Import Ascii String.
From Stdlib Require Import List ZArith QArith Qround Bool Lia Lqa.
Import ListNotations.

Open Scope Z_scope.

(** ** Python strings *)

Module PyStr.

Definition str := list ascii.

Definition lit (s : string) : str := list_ascii_of_string s.

Definition len (s : str) : Z := Z.of_nat (length s).

Definition ascii_eqb (a b : ascii) : bool := Ascii.eqb a b.

(** [a == b] on strings. *)
Fixpoint str_eqb (a b : str) : bool :=
  match a, b with
  | [], [] => true
  | x :: a', y :: b' => ascii_eqb x y && str_eqb a' b'
  | _, _ => false
  end.

(** [s.startswith(p)]. *)
Fixpoint startswith (s p : str) {struct p} : bool :=
  match p, s with
  | [], _ => true
  | _ :: _, [] => false
  | x :: p', y :: s' => ascii_eqb x y && startswith s' p'
  end.

(** [s.find(sub)], scanning from offset [i]: the lowest index at which
    [sub] starts, [-1] when there is none. *)
Fixpoint find_from (s sub : str) (i : Z) : Z :=
  if startswith s sub then i
  else match s with
       | [] => -1
       | _ :: s' => find_from s' sub (i + 1)
       end.

Definition find (s sub : str) : Z := find_from s sub 0.

(** A slice bound as Python normalises it: a negative bound counts from
    the end, and the result is clamped to [0 .. len s]. *)
Definition bound (s : str) (i : Z) : nat :=
  Z.to_nat (Z.min (len s) (Z.max 0 (if i <? 0 then len s + i else i))).

(** [s[:i]] *)
Definition slice_to (s : str) (i : Z) : str := firstn (bound s i) s.

(** [s[i:]] *)
Definition slice_from (s : str) (i : Z) : str := skipn (bound s i) s.

End PyStr.
Import PyStr.

(** ** apply_stopping_strings *)

(** First loop (lines 313-318): the first stop string of the list that
    [reply.find] locates cuts the reply and ends the loop. *)
Fixpoint stop_scan (reply : str) (all_stop_strings : list str) : str * bool :=
  match all_stop_strings with
  | [] => (reply, false)
  | string :: rest =>
      let idx := find reply string in
      if negb (idx =? -1) then (slice_to reply idx, true)
      else stop_scan reply rest
  end.

(** Inner loop (lines 324-327), [j] running over
    [range(len(string) - 1, 0, -1)]; [None] is the loop's [else]. *)
Fixpoint trim_inner (reply string : str) (j : nat) : option str :=
  match j with
  | O => None
  | S j' =>
      if str_eqb (slice_from reply (- Z.of_nat j)) (slice_to string (Z.of_nat j))
      then Some (slice_to reply (- Z.of_nat j))
      else trim_inner reply string j'
  end.

(** Outer loop (lines 323-331). *)
Fixpoint trim_tail (reply : str) (all_stop_strings : list str) : str :=
  match all_stop_strings with
  | [] => reply
  | string :: rest =>
      match trim_inner reply string (length string - 1) with
      | Some reply' => reply'
      | None => trim_tail reply rest
      end
  end.

Definition apply_stopping_strings (reply : str) (all_stop_strings : list str)
  : str * bool :=
  let '(reply1, stop_found) := stop_scan reply all_stop_strings in
  if negb stop_found
  then (trim_tail reply1 all_stop_strings, stop_found)
  else (reply1, stop_found).

Definition nl : str := ["010"%char].

(** ** Values, exceptions and what a generator does *)

Inductive exn := ValueError | TypeError | RuntimeError.

(** The values [state['seed']] is modelled to hold: an [int], a finite
    [float], or [None]. *)
Inductive seed_val :=
| SeedInt (z : Z)
| SeedFloat (q : Q)
| SeedNone.

(** Components of what the generators yield. *)
Inductive val :=
| Str (s : str)
| Num (n : Z).

(** A yielded object: a bare value, or a 2-tuple. *)
Inductive item :=
| One (v : val)
| Two (a b : val).

(** What a consumer draining a generator observes, in order.  [EYield]
    carries, for a yield made inside the streaming loop, the value
    [last_update] holds at that moment (the emission time the loop itself
    records); the other yields carry [None]. *)
Inductive event :=
| EYield (at_time : option Q) (it : item)
| ESleep (d : Q)
| ELogError
| EPrint (e : exn).

(** [finish = None]: the generator is exhausted; [Some e]: it raised. *)
Record gen_result := { events : list event; finish : option exn }.

Definition yielded (evs : list event) : list item :=
  flat_map (fun ev => match ev with EYield _ it => [it] | _ => [] end) evs.

Definition yield_times (evs : list event) : list Q :=
  flat_map (fun ev => match ev with EYield (Some t) _ => [t] | _ => [] end) evs.

Definition slept (evs : list event) : bool :=
  existsb (fun ev => match ev with ESleep _ => true | _ => false end) evs.

(** ** set_manual_seed *)

(** [int(x)]: an [int] is itself, a float is truncated towards zero,
    [None] is a [TypeError]. *)
Definition py_int (x : seed_val) : exn + Z :=
  match x with
  | SeedInt z => inr z
  | SeedFloat q => inr (if Qle_bool 0 q then Qfloor q else Qceiling q)
  | SeedNone => inl TypeError
  end.

(** [torch.manual_seed(seed)] (line 299), a library function: it takes an
    integer that fits 64 bits, signed or unsigned, and raises RuntimeError
    ("Overflow when unpacking long") for any other.  The calls that follow
    it for the cuda and xpu devices (lines 300-303) hand the same integer
    to the same check. *)
Definition torch_manual_seed (seed : Z) : option exn :=
  if (- 2 ^ 63 <=? seed) && (seed <? 2 ^ 64) then None else Some RuntimeError.

(** Lines 294-304.  [rnd] is what [random.randint(1, 2**31)] returns when
    it is called. *)
Definition set_manual_seed (rnd : Z) (seed : seed_val) : exn + Z :=
  match py_int seed with
  | inl e => inl e
  | inr seed =>
      let seed := if seed =? -1 then rnd else seed in
      match torch_manual_seed seed with
      | Some e => inl e
      | None => inr seed
      end
  end.

(** ** html.escape *)

Definition html_escape_char (c : ascii) : str :=
  if ascii_eqb c "&" then lit "&amp;"
  else if ascii_eqb c "<" then lit "&lt;"
  else if ascii_eqb c ">" then lit "&gt;"
  else if ascii_eqb c "034" then lit "&quot;"
  else if ascii_eqb c "'" then lit "&#x27;"
  else [c].

Definition html_escape (s : str) : str := flat_map html_escape_char s.

(** ** The generation state and the collaborators *)

(** The three keys of the [state] dict the dispatcher reads or writes. *)
Record state := {
  stream : bool;
  seed : seed_val;
  max_tokens_second : Q
}.

Definition set_stream (b : bool) (st : state) : state :=
  {| stream := b; seed := seed st; max_tokens_second := max_tokens_second st |}.

Definition set_max_tokens_second (q : Q) (st : state) : state :=
  {| stream := stream st; seed := seed st; max_tokens_second := q |}.

(** What the module takes from [shared], the extensions and [random]. *)
Record env := {
  custom_generate_reply : bool;
    (* apply_extensions('custom_generate_reply') is not None *)
  model_name : str;
  model : option str;
    (* class name of shared.model, None when shared.model is None *)
  ext_state : state -> state;
    (* the contents of the dict apply_extensions('state', state) returns *)
  ext_state_fresh : bool;
    (* that dict is a new object; false: it is the dict that was passed,
       modified in place (so it is when no extension modifies the state) *)
  ext_output : str -> state -> str;
  randint : Z
}.

Inductive backend :=
| extension_generate
| generate_reply_custom
| generate_reply_HF.

Definition custom_classes : list str :=
  [lit "LlamaCppModel"; lit "RWKVModel"; lit "ExllamaModel";
   lit "Exllamav2Model"; lit "CtransformersModel"].

(** Lines 63-73; [None] is the "No model is loaded" exit. *)
Definition find_generate_func (e : env) : option backend :=
  if custom_generate_reply e then Some extension_generate
  else
    match model e with
    | None => None
    | Some cls =>
        if str_eqb (model_name e) (lit "None") then None
        else if existsb (str_eqb cls) custom_classes
             then Some generate_reply_custom
             else Some generate_reply_HF
    end.

(** One turn of the [for] loop over the backend generator: the item the
    backend yields and what the loop body reads from the outside while it
    handles that item. *)
Record tick := {
  t_reply : str;      (* the reply text yielded by generate_func *)
  t_cnt : Z;          (* the token count yielded with it (token variant) *)
  t_now : Q;          (* time.time() at line 111 / 138 *)
  t_after : Q;        (* time.time() at line 119 / 146, after the sleep *)
  t_cancel : bool     (* shared.stop_everything at line 128 / 155 *)
}.

(** Calling [generate_func(..., is_return_token_cnt=...)] (lines 104 and
    132).  [generate_reply_custom] has no parameter of that name, so the
    call itself raises; the other two return a generator, which produces
    the items of [ticks]. *)
Definition call_generate_func (f : backend) (ticks : list tick)
  : exn + list tick :=
  match f with
  | generate_reply_custom => inl TypeError
  | _ => inr ticks
  end.

(** What the backend generator writes into the dict it was given, when
    the [for] statement resumes it for the first time: generate_reply_HF
    opens with [state['stream'] = False] (line 340), generate_reply_custom
    writes nothing, and the generation function of an extension is taken
    to leave the dict as it is. *)
Definition backend_writes (f : backend) (st : state) : state :=
  match f with
  | generate_reply_HF => set_stream false st
  | generate_reply_custom => st
  | extension_generate => st
  end.

(** ** The dicts of a request

    Two objects are enough for the dicts the dispatcher names: the one the
    caller passed, which [state_tmp] names throughout, and the one [state]
    names once the state extension or [copy.deepcopy] has made another.
    [at_other] holds nothing of interest before that. *)
Inductive ref := caller_dict | other_dict.

Record heap := { at_caller : state; at_other : state }.

Definition get (h : heap) (r : ref) : state :=
  match r with
  | caller_dict => at_caller h
  | other_dict => at_other h
  end.

Definition put (r : ref) (st : state) (h : heap) : heap :=
  match r with
  | caller_dict => {| at_caller := st; at_other := at_other h |}
  | other_dict => {| at_caller := at_caller h; at_other := st |}
  end.

(** [state = apply_extensions('state', state)] (line 77): the dict [state]
    names afterwards. *)
Definition apply_state_extension (e : env) (h : heap) (state : ref)
  : heap * ref :=
  if ext_state_fresh e
  then (put other_dict (ext_state e (get h state)) h, other_dict)
  else (put state (ext_state e (get h state)) h, state).

(** ** The streaming loop of _generate_reply *)

Definition Qgtb (a b : Q) : bool := negb (Qle_bool a b).

(** The literal [0.041666666666666664] of lines 125 and 152 is the double
    nearest to 1/24, which is 6004799503160661 / 2^57. *)
Definition window : Q := 6004799503160661 # 144115188075855872.

Record loop_vars := {
  last_update : Q;
  reply : str;
  new_token : Z
}.

Definition mk_item (is_return_token_cnt : bool) (reply : str) (cnt : Z) : item :=
  if is_return_token_cnt then Two (Str reply) (Num cnt) else One (Str reply).

(** Lines 110-126 / 137-153: the decision to yield inside the loop.
    Returns the events produced and the new [last_update]. *)
Definition emit (is_stream : bool) (st : state) (tk : tick)
    (last_update : Q) (it : item) : list event * Q :=
  if is_stream then
    let cur_time := t_now tk in
    if Qgtb (max_tokens_second st) 0 then
      let diff := (1 / max_tokens_second st - (cur_time - last_update))%Q in
      let sleeps := if Qgtb diff 0 then [ESleep diff] else [] in
      let last_update := t_after tk in
      (sleeps ++ [EYield (Some last_update) it], last_update)
    else if Qgtb (cur_time - last_update) window then
      ([EYield (Some cur_time) it], cur_time)
    else ([], last_update)
  else ([], last_update).

(** Lines 104-129 and 132-156.  The two loops have the same body; they
    differ in the shape of what is yielded and in [new_token = token_cnt],
    which only the token variant executes.  The third component is the
    exception that leaves the [for] statement, if the backend raised. *)
Fixpoint stream_loop (escape_html is_return_token_cnt is_stream : bool)
    (all_stop_strings : list str) (st : state)
    (ticks : list tick) (ending : option exn) (v : loop_vars)
  : list event * loop_vars * option exn :=
  match ticks with
  | [] => ([], v, ending)
  | tk :: rest =>
      let reply := if escape_html then html_escape (t_reply tk) else t_reply tk in
      let '(reply, stop_found) := apply_stopping_strings reply all_stop_strings in
      let new_token := if is_return_token_cnt then t_cnt tk else new_token v in
      let '(evs, last_update) :=
        emit is_stream st tk (last_update v)
             (mk_item is_return_token_cnt reply (t_cnt tk)) in
      let v' := {| last_update := last_update; reply := reply;
                   new_token := new_token |} in
      if stop_found || (Qgtb (max_tokens_second st) 0 && t_cancel tk)
      then (evs, v', None)      (* break: the backend is not resumed *)
      else
        let '(evs', v'', raised) :=
          stream_loop escape_html is_return_token_cnt is_stream
                      all_stop_strings st rest ending v' in
        (evs ++ evs', v'', raised)
  end.

(** ** _generate_reply

    [question] only reaches the backend and the verbose print, and
    [stopping_strings] only the backend.  The backend generator is given
    by the items it produces ([ticks]) and by how it ends after them
    ([ending]: exhausted, or the exception it raises); what it writes into
    the dict it is given is [backend_writes].  The input extension of line
    78, which is handed the dict too, is taken to leave it as it is.
    [stopping_strings] is kept as an argument to state what does not
    depend on it. *)
Definition _generate_reply (e : env) (st : state) (stopping_strings : list str)
    (is_chat escape_html is_return_token_cnt : bool) (ticks : list tick)
    (ending : option exn)
  : gen_result :=
  let h := {| at_caller := st; at_other := st |} in
  let state_tmp := caller_dict in                   (* state_tmp = state *)
  match find_generate_func e with
  | None =>
      {| events := [ELogError; EYield None (One (Str []))]; finish := None |}
  | Some generate_func =>
      let '(h, state) :=
        if negb is_chat then apply_state_extension e h caller_dict
        else (h, caller_dict) in
      let all_stop_strings : list str := [] in
      match set_manual_seed (randint e) (seed (get h state)) with
      | inl exc => {| events := []; finish := Some exc |}
      | inr _ =>
          let v0 := {| last_update := (-1)%Q; reply := []; new_token := 0 |} in
          let is_stream := stream (get h state) in
          let '(h, state) :=
            if (0 <? Z.of_nat (length all_stop_strings))%Z
               && negb (stream (get h state))
            then (put other_dict (set_stream true (get h state)) h, other_dict)
                                                    (* copy.deepcopy(state) *)
            else (h, state) in
          let h := put state (set_max_tokens_second 0%Q (get h state)) h in
          (* line 104 passes state_tmp, line 132 passes state *)
          let given := if is_return_token_cnt then state_tmp else state in
          match call_generate_func generate_func ticks with
          | inl exc => {| events := []; finish := Some exc |}
          | inr items =>
              let h := put given (backend_writes generate_func (get h given)) h in
              let '(evs, v, raised) :=
                stream_loop escape_html is_return_token_cnt is_stream
                            all_stop_strings (get h state) items ending v0 in
              match raised with
              | Some exc => {| events := evs; finish := Some exc |}
              | None =>
                  let reply :=
                    if negb is_chat then ext_output e (reply v) (get h state)
                    else reply v in
                  {| events :=
                       evs ++ [EYield None
                                 (mk_item is_return_token_cnt reply
                                          (new_token v))];
                     finish := None |}
              end
          end
      end
  end.

(** ** The entry points and the generation lock *)

(** Modelled from the spec: [shared.generation_lock] is created in
    [modules/shared.py], which is not part of these sources.  The spec calls
    it "a process-wide mutual-exclusion token" that is acquired "(blocking)":
    [acquire] on a held lock does not return ([None]); on a free lock it
    takes it.  [release] frees it. *)
Definition lock := bool.

Definition acquire (l : lock) : option lock := if l then None else Some true.

Definition release (l : lock) : lock := false.

(** Lines 39-45, drained by the caller.  [None]: the call blocks in
    [acquire].  Otherwise the events, the way the generator ends, and the
    lock as the [finally] clause leaves it. *)
Definition generate_reply (l : lock) (e : env) (st : state)
    (stopping_strings : list str)
    (is_chat escape_html is_return_token_cnt : bool) (ticks : list tick)
    (ending : option exn)
  : option (gen_result * lock) :=
  match acquire l with
  | None => None
  | Some l1 =>
      let r := _generate_reply e st stopping_strings is_chat escape_html
                               is_return_token_cnt ticks ending in
      Some (r, release l1)
  end.

(** The target list [result, new_token] of the [for] statement at line 51:
    a 2-tuple unpacks, a string unpacks into its characters when it has
    exactly two, anything else raises. *)
Definition unpack2 (it : item) : exn + item :=
  match it with
  | Two a b => inr (Two a b)
  | One (Str [c1; c2]) => inr (Two (Str [c1]) (Str [c2]))
  | One (Str _) => inl ValueError
  | One (Num _) => inl TypeError
  end.

(** The body of the [for] at lines 51-52 over the events of the inner
    generator: every yielded object is unpacked and yielded again; the
    first one that does not unpack ends the iteration with its error. *)
Fixpoint reyield_pairs (evs : list event) : list event * option exn :=
  match evs with
  | [] => ([], None)
  | EYield t it :: rest =>
      match unpack2 it with
      | inl exc => ([], Some exc)
      | inr it' =>
          let '(evs', r) := reyield_pairs rest in (EYield t it' :: evs', r)
      end
  | ev :: rest =>
      let '(evs', r) := reyield_pairs rest in (ev :: evs', r)
  end.

(** Lines 48-56, drained by the caller. *)
Definition generate_reply_token (l : lock) (e : env) (st : state)
    (stopping_strings : list str)
    (is_chat escape_html : bool) (ticks : list tick) (ending : option exn)
  : option (gen_result * lock) :=
  match acquire l with
  | None => None
  | Some l1 =>
      let r := _generate_reply e st stopping_strings is_chat escape_html
                               true ticks ending in
      let '(evs, failed) := reyield_pairs (events r) in
      let raised := match failed with Some exc => Some exc | None => finish r end in
      let evs := match raised with
                 | Some exc => evs ++ [EPrint exc]   (* except Exception as e: print(e) *)
                 | None => evs
                 end in
      Some ({| events := evs; finish := None |}, release l1)
  end.

(** ** Several requests sharing the lock *)

Module SessionGuard.

Inductive entry := via_generate_reply | via_generate_reply_token.

(** The life of one generator object returned by an entry point.
    [Created]: the body has not started; [items] and [fin] are what the
    inner [_generate_reply] will yield and how it will end.
    [Holding]: suspended at the [yield] inside [try], after [acquire].
    [Finished]: the body has returned or raised, through [finally]. *)
Inductive phase :=
| Created (items : list item) (fin : option exn)
| Holding (items : list item) (fin : option exn)
| Finished (outcome : option exn).

(** What the consumer does with a generator: [next(g)] or [g.close()]. *)
Inductive action := Next | Close.

(** Running the body from inside [try] up to the next [yield] or to the
    end, with the lock held. *)
Definition advance (k : entry) (l : lock) (items : list item)
    (fin : option exn) : lock * phase :=
  match items with
  | it :: rest =>
      match k with
      | via_generate_reply => (l, Holding rest fin)
      | via_generate_reply_token =>
          match unpack2 it with
          | inr _ => (l, Holding rest fin)
          | inl _ => (release l, Finished None)
          end
      end
  | [] =>
      match fin, k with
      | Some exc, via_generate_reply => (release l, Finished (Some exc))
      | _, _ => (release l, Finished None)
      end
  end.

(** One action of a consumer on its generator; [None] when the action
    cannot complete now (a blocked [acquire]) or has nothing to do. *)
Definition gen_step (k : entry) (a : action) (l : lock) (p : phase)
  : option (lock * phase) :=
  match a, p with
  | Next, Created items fin =>
      match acquire l with
      | None => None
      | Some l1 => Some (advance k l1 items fin)
      end
  | Next, Holding items fin => Some (advance k l items fin)
  | Close, Created _ _ => Some (l, Finished None)
  | Close, Holding _ _ => Some (release l, Finished None)
  | _, Finished _ => None
  end.

Definition holding (p : phase) : bool :=
  match p with Holding _ _ => true | _ => false end.

Definition created (p : phase) : bool :=
  match p with Created _ _ => true | _ => false end.

(** The lock and the generator objects in existence. *)
Definition sys := (lock * list (entry * phase))%type.

Inductive step : sys -> sys -> Prop :=
| step_gen : forall l l' k p p' a before after,
    gen_step k a l p = Some (l', p') ->
    step (l, before ++ (k, p) :: after) (l', before ++ (k, p') :: after).

Inductive reachable : sys -> Prop :=
| reach_init : forall gs,
    forallb (fun g => created (snd g)) gs = true -> reachable (false, gs)
| reach_step : forall s s', reachable s -> step s s' -> reachable s'.

Definition holders (gs : list (entry * phase)) : nat :=
  length (filter (fun g => holding (snd g)) gs).

(** A consumer that calls [next] until the generator is finished, at most
    [fuel] times. *)
Fixpoint drain (k : entry) (fuel : nat) (l : lock) (p : phase) : lock * phase :=
  match fuel with
  | O => (l, p)
  | S n =>
      match gen_step k Next l p with
      | Some (l', p') => drain k n l' p'
      | None => (l, p)
      end
  end.

End SessionGuard.

(** ** Notions the properties are stated with *)

(** [sub] is a substring of [s]. *)
Definition occurs (sub s : str) : Prop :=
  exists pre post, s = pre ++ sub ++ post.

(** [reply] ends with the first [j] characters of [string], a non-empty
    proper prefix of it; [body] is what precedes that tail. *)
Definition ends_with_prefix (reply string : str) (j : nat) (body : str) : Prop :=
  (0 < j < length string)%nat /\ reply = body ++ firstn j string.

Definition is_prefix (p s : str) : Prop := exists rest, s = p ++ rest.

(** The text the loop works on for one backend item (lines 105-106). *)
Definition shown (escape_html : bool) (tk : tick) : str :=
  if escape_html then html_escape (t_reply tk) else t_reply tk.

(** The default cadence in the spec's words: an update is forwarded when
    more than one window has passed since the last forwarded update, and
    suppressed otherwise.  [forwarded last ticks] are the updates that
    pass. *)
Fixpoint forwarded (last : Q) (ticks : list tick) : list tick :=
  match ticks with
  | [] => []
  | tk :: rest =>
      if Qgtb (t_now tk - last) window
      then tk :: forwarded (t_now tk) rest
      else forwarded last rest
  end.

(** Emission times each more than one window after the previous one. *)
Fixpoint spaced (last : Q) (ts : list Q) : Prop :=
  match ts with
  | [] => True
  | t :: ts' => (window < t - last)%Q /\ spaced t ts'
  end.

(** Emission times each at least [gap] after the previous one. *)
Fixpoint spaced_by (gap : Q) (ts : list Q) : Prop :=
  match ts with
  | t1 :: ((t2 :: _) as ts') => (gap <= t2 - t1)%Q /\ spaced_by gap ts'
  | _ => True
  end.

(** The [i]-th tick observes the cancellation flag as [flags i]. *)
Fixpoint with_cancel (flags : nat -> bool) (ticks : list tick) : list tick :=
  match ticks with
  | [] => []
  | tk :: rest =>
      {| t_reply := t_reply tk; t_cnt := t_cnt tk; t_now := t_now tk;
         t_after := t_after tk; t_cancel := flags O |}
      :: with_cancel (fun i => flags (S i)) rest
  end.

(** The state the dispatcher works with after line 78. *)
Definition prepared (e : env) (is_chat : bool) (st : state) : state :=
  if negb is_chat then ext_state e st else st.

(** The item the loop offers for one backend item. *)
Definition offered (escape_html is_return_token_cnt : bool) (tk : tick) : item :=
  mk_item is_return_token_cnt (shown escape_html tk) (t_cnt tk).

(** What the output extension finds in the dict it is given at line 159,
    outside chat mode, after backend [f] has run: the state as the state
    extension returned it, with the cap set to 0, and with what the backend
    wrote when the backend was given that very dict.  It was given another
    one only in the token variant, which passes [state_tmp], and only when
    the state extension returned a new dict. *)
Definition output_state (e : env) (f : backend) (is_return_token_cnt : bool)
    (st : state) : state :=
  let st' := set_max_tokens_second 0%Q (ext_state e st) in
  if is_return_token_cnt && ext_state_fresh e then st'
  else backend_writes f st'.

(** The last yield of [_generate_reply] (lines 158-163) after backend [f]
    produced [ticks]. *)
Definition final_item (e : env) (f : backend) (st : state)
    (is_chat escape_html is_return_token_cnt : bool) (ticks : list tick) : item :=
  let reply := last (map (shown escape_html) ticks) [] in
  mk_item is_return_token_cnt
          (if negb is_chat
           then ext_output e reply (output_state e f is_return_token_cnt st)
           else reply)
          (if is_return_token_cnt then last (map t_cnt ticks) 0 else 0).

(** What follows the loop: the last yield when the backend generator was
    exhausted, nothing when it raised. *)
Definition closing (e : env) (f : backend) (st : state)
    (is_chat escape_html is_return_token_cnt : bool) (ticks : list tick)
    (ending : option exn) : list event :=
  match ending with
  | None => [EYield None (final_item e f st is_chat escape_html
                                     is_return_token_cnt ticks)]
  | Some _ => []
  end.

(** ** Sample runs *)

(** A session in which an extension supplies the generation function. *)
Definition env_ext : env :=
  {| custom_generate_reply := true;
     model_name := lit "None";
     model := None;
     ext_state := fun st => st;
     ext_state_fresh := false;
     ext_output := fun reply _ => reply;
     randint := 1234 |}.

(** A session with a transformers model loaded. *)
Definition env_hf : env :=
  {| custom_generate_reply := false;
     model_name := lit "llama-2-7b";
     model := Some (lit "LlamaForCausalLM");
     ext_state := fun st => st;
     ext_state_fresh := false;
     ext_output := fun reply _ => reply;
     randint := 1234 |}.

(** A session with no model loaded. *)
Definition env_none : env :=
  {| custom_generate_reply := false;
     model_name := lit "None";
     model := None;
     ext_state := fun st => st;
     ext_state_fresh := false;
     ext_output := fun reply _ => reply;
     randint := 1234 |}.

Definition streaming (cap : Q) : state :=
  {| stream := true; seed := SeedInt 42; max_tokens_second := cap |}.

Definition tick_at (reply : string) (cnt : Z) (now : Q) (cancel : bool) : tick :=
  {| t_reply := lit reply; t_cnt := cnt; t_now := now; t_after := now;
     t_cancel := cancel |}.

(** Three updates: the second 10 ms after the first, the third half a
    second after the first. *)
Definition three_updates (cancel : bool) : list tick :=
  [tick_at "a" 1 100%Q cancel; tick_at "ab" 2 100.01%Q cancel;
   tick_at "abc" 3 100.5%Q cancel].

(** Three updates one second apart. *)
Definition steady_updates : list tick :=
  [tick_at "a" 1 100%Q false; tick_at "ab" 2 101%Q false;
   tick_at "abc" 3 102%Q false].

(** A chat reply growing past the stop string "\nYou:". *)
Definition chat_updates : list tick :=
  [{| t_reply := lit "Hi"; t_cnt := 1; t_now := 100%Q; t_after := 100%Q;
      t_cancel := false |};
   {| t_reply := lit "Hi" ++ nl ++ lit "You:"; t_cnt := 3; t_now := 101%Q;
      t_after := 101%Q; t_cancel := false |};
   {| t_reply := lit "Hi" ++ nl ++ lit "You: bye"; t_cnt := 4; t_now := 102%Q;
      t_after := 102%Q; t_cancel := false |}].

(** Two requests, one through each entry point; and the situation after
    the consumer of the first has called [next] once. *)
Definition two_requests : list (SessionGuard.entry * SessionGuard.phase) :=
  [(SessionGuard.via_generate_reply,
    SessionGuard.Created [One (Str (lit "a")); One (Str (lit "ab"))] None);
   (SessionGuard.via_generate_reply_token,
    SessionGuard.Created [Two (Str (lit "b")) (Num 1)] None)].

Definition first_request_running : SessionGuard.sys :=
  (true,
   [(SessionGuard.via_generate_reply,
     SessionGuard.Holding [One (Str (lit "ab"))] None);
    (SessionGuard.via_generate_reply_token,
     SessionGuard.Created [Two (Str (lit "b")) (Num 1)] None)]).

Definition no_seed : state :=
  {| stream := true; seed := SeedNone; max_tokens_second := 0%Q |}.

(** What generate_reply_HF yields outside chat mode for a causal model:
    the empty placeholder, then the whole reply. *)
Definition hf_updates : list tick :=
  [tick_at "" 0 100%Q false; tick_at "Hello" 5 103%Q false].

(** A session with a transformers model loaded and an output extension
    that marks the reply when the state it is given says streaming;
    [fresh] tells whether the state extension returns a new dict. *)
Definition env_hf_marking (fresh : bool) : env :=
  {| custom_generate_reply := false;
     model_name := lit "llama-2-7b";
     model := Some (lit "LlamaForCausalLM");
     ext_state := fun st => st;
     ext_state_fresh := fresh;
     ext_output :=
       fun reply st => if stream st then reply ++ lit " [streaming]" else reply;
     randint := 1234 |}.

(** ** Notions for the further properties *)

(** The reply text an item carries. *)
Definition item_text (it : item) : option str :=
  match it with
  | One (Str s) => Some s
  | Two (Str s) _ => Some s
  | _ => None
  end.

(** The characters html.escape replaces, the ampersand apart. *)
Definition markup_char (c : ascii) : bool :=
  ascii_eqb c "<" || ascii_eqb c ">" || ascii_eqb c "034" || ascii_eqb c "'".

(** A session with a llama.cpp model loaded. *)
Definition env_llamacpp : env :=
  {| custom_generate_reply := false;
     model_name := lit "llama.gguf";
     model := Some (lit "LlamaCppModel");
     ext_state := fun st => st;
     ext_state_fresh := false;
     ext_output := fun reply _ => reply;
     randint := 1234 |}.

(** ** fix_galactica *)

(** [s.replace(old, new)] for a non-empty [old]: all occurrences, leftmost
    first, not overlapping.  [skip] counts the characters of the current
    match that are still to be passed over. *)
Fixpoint replace_from (old new : str) (skip : nat) (s : str) : str :=
  match s with
  | [] => []
  | c :: s' =>
      match skip with
      | S k => replace_from old new k s'
      | O =>
          if startswith s old
          then new ++ replace_from old new (length old - 1) s'
          else c :: replace_from old new 0 s'
      end
  end.

(** [s.replace(old, new)]; an empty [old] matches before every character
    and at the end. *)
Definition replace (s old new : str) : str :=
  match old with
  | [] => new ++ flat_map (fun c => c :: new) s
  | _ :: _ => replace_from old new 0 s
  end.

(** [re.sub(p, repl, s)] for a pattern [p] that matches exactly the
    character [c] (here [r'\n'], with [repl] the text [r'\n\n'] stands
    for). *)
Definition re_sub_char (c : ascii) (repl s : str) : str :=
  flat_map (fun x => if ascii_eqb x c then repl else [x]) s.

(** What becomes of a maximal run of [run] characters [c] under
    [re.sub(c{3,}, repl, s)]: a run of three or more is one match. *)
Definition flush_run (c : ascii) (repl : str) (run : nat) : str :=
  if (3 <=? run)%nat then repl else repeat c run.

(** [re.sub(c{3,}, repl, s)]; [run] is the number of [c] just read. *)
Fixpoint re_sub_run3 (c : ascii) (repl : str) (run : nat) (s : str) : str :=
  match s with
  | [] => flush_run c repl run
  | x :: s' =>
      if ascii_eqb x c then re_sub_run3 c repl (S run) s'
      else flush_run c repl run ++ x :: re_sub_run3 c repl 0 s'
  end.

(** Lines 262-273. *)
Definition fix_galactica (s : str) : str :=
  let s := replace s (lit "\[") (lit "$") in
  let s := replace s (lit "\]") (lit "$") in
  let s := replace s (lit "\(") (lit "$") in
  let s := replace s (lit "\)") (lit "$") in
  let s := replace s (lit "$$") (lit "$") in
  let s := re_sub_char "010" (nl ++ nl) s in
  re_sub_run3 "010" (nl ++ nl) 0 s.

(** The characters the steps of fix_galactica write. *)
Definition written (x : ascii) : Prop := x = "$"%char \/ x = "010"%char.

(** [s] holds the characters [a], [b] next to each other, in this order. *)
Fixpoint has_pair (a b : ascii) (s : str) : bool :=
  match s with
  | x :: ((y :: _) as tl) => (ascii_eqb x a && ascii_eqb y b) || has_pair a b tl
  | _ => false
  end.

(** [t] comes from [s] by replacing some segments of [s] with non-empty
    texts made of characters in [D], everything else kept in place. *)
Inductive rewrites (D : ascii -> Prop) : str -> str -> Prop :=
| rw_nil : rewrites D [] []
| rw_keep : forall c s t, rewrites D s t -> rewrites D (c :: s) (c :: t)
| rw_subst : forall seg r s t,
    r <> [] -> Forall D r -> rewrites D s t ->
    rewrites D (seg ++ s) (r ++ t).

(** Newlines occur in [t] only two at a time. *)
Inductive newlines_paired : str -> Prop :=
| np_nil : newlines_paired []
| np_char : forall c t,
    c <> "010"%char -> newlines_paired t -> newlines_paired (c :: t)
| np_pair : forall t,
    (forall t', t <> "010"%char :: t') -> newlines_paired t ->
    newlines_paired ("010"%char :: "010"%char :: t).

(** ** encode, decode, get_encoded_length, get_reply_from_output_ids *)

Module Tokens.

(** [ValueError('No tokenizer is loaded')], and the [IndexError] of an
    index out of range. *)
Inductive error := NoTokenizer | IndexError.

(** What the functions use of [shared.tokenizer].  A tensor of shape
    [1, n] is given by its one row. *)
Record tokenizer := {
  tok_encode_plain : str -> list Z;
    (* shared.tokenizer.encode(text) *)
  tok_encode : str -> bool -> list Z;
    (* shared.tokenizer.encode(text, return_tensors='pt', add_special_tokens=b) *)
  tok_decode : list Z -> bool -> str;
    (* shared.tokenizer.decode(ids, skip_special_tokens) *)
  bos_token_id : option Z;
  llama_tokenizer : bool;
    (* type(shared.tokenizer) in [LlamaTokenizer, LlamaTokenizerFast] *)
  starts_word : Z -> bool
    (* shared.tokenizer.convert_ids_to_tokens(id).startswith(U+2581) *)
}.

Record shared := {
  sh_tokenizer : option tokenizer;
  sh_model : option str;        (* class name of shared.model *)
  sh_is_seq2seq : bool
}.

(** [shared.model.__class__.__name__] *)
Definition class_name (sh : shared) : str :=
  match sh_model sh with
  | Some cls => cls
  | None => lit "NoneType"
  end.

(** A slice bound on a list, as [PyStr.bound] on a string. *)
Definition bound {A} (l : list A) (i : Z) : nat :=
  Z.to_nat (Z.min (Z.of_nat (length l))
                  (Z.max 0 (if i <? 0 then Z.of_nat (length l) + i else i))).

(** [l[i:]] *)
Definition slice_from {A} (l : list A) (i : Z) : list A := skipn (bound l i) l.

(** [l[i]]; [None] is IndexError. *)
Definition index {A} (l : list A) (i : Z) : option A :=
  let j := if i <? 0 then Z.of_nat (length l) + i else i in
  if j <? 0 then None else nth_error l (Z.to_nat j).

Definition plain_encode_classes : list str :=
  [lit "LlamaCppModel"; lit "RWKVModel"; lit "CtransformersModel";
   lit "Exllamav2Model"].

Definition Z_opt_eqb (a : Z) (b : option Z) : bool :=
  match b with Some b' => a =? b' | None => false end.

(** Lines 166-195.  The branches at lines 185-195 only choose the device
    the ids are moved to (the move is taken to succeed); the ids returned
    are the same in all of them. *)
Definition encode (sh : shared) (prompt : str)
    (add_special_tokens add_bos_token : bool) (truncation_length : option Z)
  : error + list Z :=
  match sh_tokenizer sh with
  | None => inl NoTokenizer
  | Some tk =>
      let encoded :=
        if existsb (str_eqb (class_name sh)) plain_encode_classes
        then inr (tok_encode_plain tk prompt)
        else
          let input_ids := tok_encode tk prompt add_special_tokens in
          if negb add_bos_token then
            match input_ids with
            | [] => inl IndexError                    (* input_ids[0][0] *)
            | first :: rest =>
                if Z_opt_eqb first (bos_token_id tk)
                then inr rest                         (* input_ids[:, 1:] *)
                else inr input_ids
            end
          else inr input_ids in
      match encoded with
      | inl err => inl err
      | inr input_ids =>
          match truncation_length with
          | None => inr input_ids
          | Some t => inr (slice_from input_ids (- t))
          end
      end
  end.

(** Lines 198-202. *)
Definition decode (sh : shared) (output_ids : list Z)
    (skip_special_tokens : bool) : error + str :=
  match sh_tokenizer sh with
  | None => inl NoTokenizer
  | Some tk => inr (tok_decode tk output_ids skip_special_tokens)
  end.

(** Lines 205-210; [length_after_extensions] is what
    [apply_extensions('tokenized_length', prompt)] returns. *)
Definition get_encoded_length (sh : shared)
    (length_after_extensions : option Z) (prompt : str) : error + Z :=
  match length_after_extensions with
  | Some n => inr n
  | None =>
      match encode sh prompt true true None with
      | inl err => inl err
      | inr ids => inr (Z.of_nat (length ids))
      end
  end.

(** Lines 276-291; [input_row] is [input_ids[0]].  The assignment to
    [state['skip_special_tokens']] shows in the [true] passed to
    [decode]. *)
Definition get_reply_from_output_ids (sh : shared) (output_ids : list Z)
    (input_row : list Z) (is_return_token_cnt : bool) : error + item :=
  let skip_special_tokens := true in
  if sh_is_seq2seq sh then
    let new_tokens := Z.of_nat (length output_ids) in
    match decode sh output_ids skip_special_tokens with
    | inl err => inl err
    | inr reply => inr (mk_item is_return_token_cnt reply new_tokens)
    end
  else
    let new_tokens :=
      Z.of_nat (length output_ids) - Z.of_nat (length input_row) in
    match decode sh (slice_from output_ids (- new_tokens))
                 skip_special_tokens with
    | inl err => inl err
    | inr reply =>
        let llama :=
          match sh_tokenizer sh with
          | Some tk => llama_tokenizer tk
          | None => false
          end in
        if llama && (0 <? Z.of_nat (length output_ids)) then
          match index output_ids (- new_tokens), sh_tokenizer sh with
          | Some id, Some tk =>
              inr (mk_item is_return_token_cnt
                           (if starts_word tk id then " "%char :: reply
                            else reply)
                           new_tokens)
          | _, _ => inl IndexError
          end
        else inr (mk_item is_return_token_cnt reply new_tokens)
    end.

(** A tokenizer with one id per character, for sample runs. *)
Definition byte_tokenizer : tokenizer :=
  {| tok_encode_plain := fun s => map (fun c => Z.of_nat (nat_of_ascii c)) s;
     tok_encode := fun s add_special =>
       (if add_special then [1] else [])
       ++ map (fun c => Z.of_nat (nat_of_ascii c)) s;
     tok_decode := fun ids _ => map (fun z => ascii_of_nat (Z.to_nat z)) ids;
     bos_token_id := Some 1;
     llama_tokenizer := false;
     starts_word := fun _ => false |}.

Definition hf_session : shared :=
  {| sh_tokenizer := Some byte_tokenizer;
     sh_model := Some (lit "LlamaForCausalLM");
     sh_is_seq2seq := false |}.

End Tokens.

(** ** generate_reply_HF and generate_reply_custom *)

Module Backends.

Inductive pyerror :=
| Builtin (e : exn)
| Tok (e : Tokens.error)
| ZeroDivisionError.

(** What a consumer draining one of the two backend generators observes:
    the objects yielded, the traces printed by [traceback.print_exc()],
    and the closing line 'Output generated in ...' with the numbers it
    shows.  The other prints are left out. *)
Inductive bevent :=
| BYield (it : item)
| BTraceback (e : pyerror)
| BStats (new_tokens original_tokens : Z) (elapsed : Q).

Record brun := { b_events : list bevent; b_finish : option pyerror }.

Definition yields (evs : list bevent) : list item :=
  flat_map (fun ev => match ev with BYield it => [it] | _ => [] end) evs.

(** The closing line (lines 452 and 480): the divisions by [t1 - t0]
    raise when the two clock readings are equal. *)
Definition closing_line (new_tokens original_tokens : Z) (t0 t1 : Q)
  : list bevent * option pyerror :=
  if Qeq_bool (t1 - t0) 0 then ([], Some ZeroDivisionError)
  else ([BStats new_tokens original_tokens (t1 - t0)%Q], None).

(** What generate_reply_HF takes from the outside. *)
Record hf_world := {
  hf_shared : Tokens.shared;
  hf_eos_token_id : option Z;            (* shared.tokenizer.eos_token_id *)
  hf_ext_tokenizer : list Z -> list Z;
    (* the row of the input_ids apply_extensions('tokenizer', ...) returns *)
  hf_generate : exn + list Z;
    (* the first row of what shared.model.generate returns at line 419 *)
  hf_cuda : option exn;
    (* the exception of output.cuda(), if cuda is set and the move fails *)
  hf_stream_outputs : list (list Z);
    (* what the generator of generate_with_streaming produces *)
  hf_t0 : Q;
  hf_t1 : Q
}.

(** Lines 439-444, with [output] the loop variable, which the [finally]
    clause reads afterwards. *)
Fixpoint hf_stream_loop (sh : Tokens.shared) (eos : option Z)
    (input_row : list Z) (cnt : bool)
    (outs : list (list Z)) (output : list Z)
  : list bevent * list Z * option pyerror :=
  match outs with
  | [] => ([], output, None)
  | out :: rest =>
      match Tokens.index out (-1) with
      | None => ([], out, Some (Tok Tokens.IndexError))
      | Some last_id =>
          if Tokens.Z_opt_eqb last_id eos then ([], out, None)
          else
            match Tokens.get_reply_from_output_ids sh out input_row cnt with
            | inl err => ([], out, Some (Tok err))
            | inr it =>
                let '(evs, output', raised) :=
                  hf_stream_loop sh eos input_row cnt rest out in
                (BYield it :: evs, output', raised)
            end
      end
  end.

(** Lines 336-452, drained by the caller.  [GenerationConfig.from_dict]
    is taken to return. *)
Definition generate_reply_HF (w : hf_world) (question : str) (st : state)
    (is_chat is_return_token_cnt : bool) : brun :=
  let sh := hf_shared w in
  let st := set_stream false st in                    (* state['stream'] = False *)
  match Tokens.encode sh question true true None with
  | inl err => {| b_events := []; b_finish := Some (Tok err) |}
  | inr input_row0 =>
      let output0 := input_row0 in                    (* output = input_ids[0] *)
      let input_row := hf_ext_tokenizer w input_row0 in
      let original_row := input_row in
      let placeholder :=
        if negb is_chat && negb (Tokens.sh_is_seq2seq sh)
        then [BYield (mk_item is_return_token_cnt [] 0)] else [] in
      let '(evs, output, raised) :=
        if negb (stream st) then
          match hf_generate w with
          | inl exc => ([], output0, Some (Builtin exc))
          | inr output =>
              match hf_cuda w with
              | Some exc => ([], output, Some (Builtin exc))
              | None =>
                  match Tokens.get_reply_from_output_ids
                          sh output input_row is_return_token_cnt with
                  | inl err => ([], output, Some (Tok err))
                  | inr it => ([BYield it], output, None)
                  end
              end
          end
        else
          hf_stream_loop sh (hf_eos_token_id w) input_row is_return_token_cnt
                         (hf_stream_outputs w) output0 in
      let trace :=
        match raised with
        | Some err => [BTraceback err]                (* except Exception *)
        | None => []
        end in
      (* finally *)
      let original_tokens := Z.of_nat (length original_row) in
      let new_tokens :=
        Z.of_nat (length output)
        - (if negb (Tokens.sh_is_seq2seq sh) then original_tokens else 0) in
      let '(line, err) :=
        closing_line new_tokens original_tokens (hf_t0 w) (hf_t1 w) in
      {| b_events := placeholder ++ evs ++ trace ++ line; b_finish := err |}
  end.

(** What generate_reply_custom takes from the outside. *)
Record custom_world := {
  cw_shared : Tokens.shared;
  cw_randint : Z;                 (* what random.randint(1, 2**31) returns *)
  cw_generate : exn + str;        (* shared.model.generate(question, state) *)
  cw_stream : list str;
  cw_stream_ending : option exn;
    (* shared.model.generate_with_streaming(question, state): the replies
       it produces, and the exception it raises after them, if any *)
  cw_t0 : Q;
  cw_t1 : Q
}.

(** Lines 455-481, drained by the caller. *)
Definition generate_reply_custom (w : custom_world)
    (original_question : str) (st : state) (is_chat : bool) : brun :=
  let sh := cw_shared w in
  match set_manual_seed (cw_randint w) (seed st) with
  | inl exc => {| b_events := []; b_finish := Some (Builtin exc) |}
  | inr _ =>
      let placeholder :=
        if negb is_chat then [BYield (One (Str []))] else [] in
      let '(evs, reply, raised) :=
        if negb (stream st) then
          match cw_generate w with
          | inl exc => ([], [], Some exc)
          | inr reply => ([BYield (One (Str reply))], reply, None)
          end
        else
          (map (fun r => BYield (One (Str r))) (cw_stream w),
           last (cw_stream w) [], cw_stream_ending w) in
      let trace :=
        match raised with
        | Some exc => [BTraceback (Builtin exc)]      (* except Exception *)
        | None => []
        end in
      (* finally *)
      match Tokens.encode sh original_question true true None with
      | inl err =>
          {| b_events := placeholder ++ evs ++ trace;
             b_finish := Some (Tok err) |}
      | inr original_row =>
          let original_tokens := Z.of_nat (length original_row) in
          match Tokens.encode sh (original_question ++ reply) true true None with
          | inl err =>
              {| b_events := placeholder ++ evs ++ trace;
                 b_finish := Some (Tok err) |}
          | inr row =>
              let new_tokens := Z.of_nat (length row) - original_tokens in
              let '(line, err) :=
                closing_line new_tokens original_tokens (cw_t0 w) (cw_t1 w) in
              {| b_events := placeholder ++ evs ++ trace ++ line;
                 b_finish := err |}
          end
      end
  end.

(** Sample worlds. *)
Definition hf_sample (generated : exn + list Z) (t1 : Q) : hf_world :=
  {| hf_shared := Tokens.hf_session;
     hf_eos_token_id := Some 2;
     hf_ext_tokenizer := fun ids => ids;
     hf_generate := generated;
     hf_cuda := None;
     hf_stream_outputs := [[1; 72]; [1; 72; 105]];
     hf_t0 := 100%Q;
     hf_t1 := t1 |}.

Definition custom_sample (generated : exn + str) (t1 : Q) : custom_world :=
  {| cw_shared := Tokens.hf_session;
     cw_randint := 1234;
     cw_generate := generated;
     cw_stream := [lit "H"; lit "Hi"];
     cw_stream_ending := Some ValueError;
     cw_t0 := 100%Q;
     cw_t1 := t1 |}.

End Backends.

(** ** fix_gpt4chan, formatted_outputs and generate_reply_wrapper *)

Module Formatting.

(** The pieces the three patterns of fix_gpt4chan are made of: a literal
    text, or a character class under a star. *)
Inductive atom :=
| Lit (l : str)
| Star (cls : ascii -> bool).

Fixpoint run_length (cls : ascii -> bool) (s : str) : nat :=
  match s with
  | c :: s' => if cls c then S (run_length cls s') else O
  | [] => O
  end.

(** A star that took [k] characters: [after k] is the match of the rest
    of the pattern behind them; while it fails the star gives one
    character back. *)
Fixpoint give_back (after : nat -> option nat) (k : nat) : option nat :=
  match after k with
  | Some n => Some (k + n)%nat
  | None => match k with O => None | S k' => give_back after k' end
  end.

(** Matching a sequence of pieces at the start of [s]: the length of the
    match.  A star first takes all the characters it can. *)
Fixpoint match_here (atoms : list atom) (s : str) : option nat :=
  match atoms with
  | [] => Some O
  | Lit l :: rest =>
      if startswith s l then
        match match_here rest (skipn (length l) s) with
        | Some n => Some (length l + n)%nat
        | None => None
        end
      else None
  | Star cls :: rest =>
      give_back (fun k => match_here rest (skipn k s)) (run_length cls s)
  end.

(** [re.sub(pattern, repl, s)] for a pattern that cannot match the empty
    text: matches are looked for from left to right and do not overlap.
    [skip] counts the characters of the current match still to be passed
    over. *)
Fixpoint re_sub_from (atoms : list atom) (repl : str) (skip : nat) (s : str)
  : str :=
  match s with
  | [] => []
  | c :: s' =>
      match skip with
      | S k => re_sub_from atoms repl k s'
      | O =>
          match match_here atoms s with
          | Some (S n) => repl ++ re_sub_from atoms repl n s'
          | _ => c :: re_sub_from atoms repl 0 s'
          end
      end
  end.

Definition re_sub (atoms : list atom) (repl s : str) : str :=
  re_sub_from atoms repl 0 s.

(** [[0-9]] *)
Definition digit (c : ascii) : bool :=
  (48 <=? nat_of_ascii c)%nat && (nat_of_ascii c <=? 57)%nat.

Definition space (c : ascii) : bool := ascii_eqb c " ".

(** "--- [0-9]*\n>>[0-9]*\n---" *)
Definition empty_quote : list atom :=
  [Lit (lit "--- "); Star digit; Lit (nl ++ lit ">>"); Star digit;
   Lit (nl ++ lit "---")].

(** "--- [0-9]*\n *\n---" *)
Definition empty_line : list atom :=
  [Lit (lit "--- "); Star digit; Lit nl; Star space; Lit (nl ++ lit "---")].

(** "--- [0-9]*\n\n\n---" *)
Definition empty_lines : list atom :=
  [Lit (lit "--- "); Star digit; Lit (nl ++ nl ++ nl ++ lit "---")].

(** The body of the loop at lines 254-257. *)
Definition fix_gpt4chan_pass (s : str) : str :=
  let s := re_sub empty_quote (lit "---") s in
  let s := re_sub empty_line (lit "---") s in
  re_sub empty_lines (lit "---") s.

(** Lines 250-259: [for i in range(10)]. *)
Definition fix_gpt4chan (s : str) : str :=
  Nat.iter 10 fix_gpt4chan_pass s.

(** What formatted_outputs takes from the [html] module and from
    [modules.html_generator]. *)
Record renderers := {
  html_unescape : str -> str;
  generate_4chan_html : str -> str;
  generate_basic_html : str -> str
}.

(** [sub in s] *)
Definition contains (s sub : str) : bool := negb (find s sub =? -1).

(** Lines 242-247. *)
Definition formatted_outputs (rs : renderers) (reply model_name : str)
  : str * str :=
  if existsb (contains model_name) [lit "gpt-4chan"; lit "gpt4chan"] then
    let reply := fix_gpt4chan reply in
    (html_unescape rs reply, generate_4chan_html rs reply)
  else (html_unescape rs reply, generate_basic_html rs reply).

(** [question + reply] for what generate_reply yielded. *)
Definition prepend (question : str) (it : item) : exn + str :=
  match it with
  | One (Str reply) => inr (question ++ reply)
  | _ => inl TypeError
  end.

(** The loop at lines 235-239 over the objects the inner generator
    yielded. *)
Fixpoint wrap_items (rs : renderers) (is_seq2seq : bool)
    (question model_name : str) (items : list item)
  : list (str * str) * option exn :=
  match items with
  | [] => ([], None)
  | it :: rest =>
      let reply :=
        if negb is_seq2seq then prepend question it
        else match it with
             | One (Str reply) => inr reply
             | _ => inl TypeError
             end in
      match reply with
      | inl exc => ([], Some exc)
      | inr reply =>
          let '(outs, raised) :=
            wrap_items rs is_seq2seq question model_name rest in
          (formatted_outputs rs reply model_name :: outs, raised)
      end
  end.

(** How a drained generate_reply_wrapper ends. *)
Inductive ending :=
| Blocked                       (* waiting in generation_lock.acquire() *)
| Ended (raised : option exn) (l : lock).

(** Lines 228-239, drained by the caller: the outputs yielded, and how
    the generator ends. *)
Definition generate_reply_wrapper (l : lock) (e : env) (rs : renderers)
    (is_seq2seq : bool) (question : str) (st : state)
    (stopping_strings : list str) (ticks : list tick)
    (backend_ending : option exn) : list (str * str) * ending :=
  let reply := if negb is_seq2seq then question else [] in
  let first := formatted_outputs rs reply (model_name e) in
  match generate_reply l e st stopping_strings false true false ticks
                       backend_ending with
  | None => ([first], Blocked)
  | Some (r, l') =>
      let '(outs, raised) :=
        wrap_items rs is_seq2seq question (model_name e)
                   (yielded (events r)) in
      (first :: outs,
       Ended (match raised with Some exc => Some exc | None => finish r end) l')
  end.

(** Renderers that leave the text as it is, for sample runs. *)
Definition plain_renderers : renderers :=
  {| html_unescape := fun s => s;
     generate_4chan_html := fun s => lit "<4chan>" ++ s;
     generate_basic_html := fun s => lit "<div>" ++ s |}.

End Formatting.

(** * Properties *)

(** ** Python string operations *)

Lemma str_eqb_eq (a b : str) : str_eqb a b = true <-> a = b.
Proof.
  revert b; induction a as [|x a IH]; intros [|y b]; simpl;
    try (split; [discriminate | discriminate]); try tauto.
  unfold ascii_eqb. rewrite andb_true_iff, Ascii.eqb_eq, IH.
  split; [intros [-> ->]; reflexivity | intros H; inversion H; auto].
Qed.

Lemma startswith_spec (s p : str) :
  startswith s p = true <-> exists post, s = p ++ post.
Proof.
  revert s; induction p as [|x p IH]; intros s; simpl.
  - split; [exists s; reflexivity | reflexivity].
  - destruct s as [|y s].
    + split; [discriminate | intros [post H]; discriminate].
    + unfold ascii_eqb. rewrite andb_true_iff, Ascii.eqb_eq, IH.
      split.
      * intros [-> [post ->]]. exists post. reflexivity.
      * intros [post H]. inversion H; subst. split; [reflexivity|].
        exists post. reflexivity.
Qed.

Lemma find_from_eq (s sub : str) (i : Z) :
  find_from s sub i =
  if startswith s sub then i
  else match s with [] => -1 | _ :: s' => find_from s' sub (i + 1) end.
Proof. destruct s; reflexivity. Qed.

(** What [find] returns when it finds something: the length of the
    shortest prefix after which [sub] starts. *)
Lemma find_from_found (s sub : str) :
  forall i r, 0 <= i -> find_from s sub i = r -> r <> -1 ->
  exists pre post,
    s = pre ++ sub ++ post /\ r = i + Z.of_nat (length pre) /\
    forall pre' post', s = pre' ++ sub ++ post' ->
                       (length pre <= length pre')%nat.
Proof.
  induction s as [|c s IH]; intros i r Hi Hr Hne; rewrite find_from_eq in Hr.
  - destruct (startswith [] sub) eqn:E; [|congruence].
    apply startswith_spec in E. destruct E as [post E].
    exists [], post. simpl. repeat split; [exact E | lia | intros; lia].
  - destruct (startswith (c :: s) sub) eqn:E.
    + apply startswith_spec in E. destruct E as [post E].
      exists [], post. simpl. repeat split; [exact E | lia | intros; lia].
    + destruct (IH (i + 1) r ltac:(lia) Hr Hne) as (pre & post & Hs & Hrr & Hmin).
      exists (c :: pre), post. simpl. repeat split.
      * rewrite Hs at 1. reflexivity.
      * lia.
      * intros [|c' pre'] post' H; simpl in H.
        -- assert (startswith (c :: s) sub = true) as E'
             by (apply startswith_spec; exists post'; exact H).
           congruence.
        -- inversion H; subst c'. apply Hmin in H2. simpl. lia.
Qed.

Lemma find_from_absent (s sub : str) :
  forall i, find_from s sub i = -1 -> 0 <= i -> ~ occurs sub s.
Proof.
  induction s as [|c s IH]; intros i Hr Hi (pre & post & H);
    rewrite find_from_eq in Hr.
  - destruct (startswith [] sub) eqn:E; [lia|].
    destruct pre; [|discriminate].
    assert (startswith [] sub = true) as E'
      by (apply startswith_spec; exists post; exact H).
    congruence.
  - destruct (startswith (c :: s) sub) eqn:E; [lia|].
    destruct pre as [|c' pre].
    + assert (startswith (c :: s) sub = true) as E'
        by (apply startswith_spec; exists post; exact H).
      congruence.
    + simpl in H. inversion H; subst c'.
      apply (IH (i + 1) Hr ltac:(lia)). exists pre, post. assumption.
Qed.

Lemma bound_nonneg (s : str) (n : nat) :
  bound s (Z.of_nat n) = Nat.min (length s) n.
Proof.
  unfold bound, len.
  destruct (Z.of_nat n <? 0) eqn:E; [apply Z.ltb_lt in E; lia|]. lia.
Qed.

Lemma bound_neg (s : str) (j : nat) :
  (0 < j)%nat -> bound s (- Z.of_nat j) = (length s - j)%nat.
Proof.
  intros Hj. unfold bound, len.
  destruct (- Z.of_nat j <? 0) eqn:E; [|apply Z.ltb_ge in E; lia]. lia.
Qed.

Lemma slice_to_nonneg (s : str) (n : nat) : slice_to s (Z.of_nat n) = firstn n s.
Proof.
  unfold slice_to. rewrite bound_nonneg.
  destruct (Nat.le_ge_cases (length s) n) as [H|H].
  - rewrite Nat.min_l by exact H.
    rewrite !firstn_all2 by lia. reflexivity.
  - rewrite Nat.min_r by exact H. reflexivity.
Qed.

Lemma slice_to_is_prefix (s : str) (i : Z) : is_prefix (slice_to s i) s.
Proof.
  exists (skipn (bound s i) s). unfold slice_to.
  symmetry. apply firstn_skipn.
Qed.

Lemma find_found (T s : str) :
  find T s <> -1 ->
  exists pre post,
    T = pre ++ s ++ post /\ slice_to T (find T s) = pre /\
    forall pre' post', T = pre' ++ s ++ post' -> (length pre <= length pre')%nat.
Proof.
  intros Hne.
  destruct (find_from_found T s 0 (find T s) ltac:(lia) eq_refl Hne)
    as (pre & post & HT & Hr & Hmin).
  exists pre, post. repeat split; try assumption.
  rewrite Hr. simpl. rewrite slice_to_nonneg.
  rewrite HT at 1. rewrite firstn_app, firstn_all, Nat.sub_diag. simpl.
  apply app_nil_r.
Qed.

Lemma find_absent (T s : str) : find T s = -1 <-> ~ occurs s T.
Proof.
  split.
  - intros H. apply (find_from_absent T s 0 H). lia.
  - intros H. destruct (Z.eq_dec (find T s) (-1)) as [E|E]; [exact E|].
    exfalso. apply H.
    destruct (find_found T s E) as (pre & post & HT & _).
    exists pre, post. exact HT.
Qed.

(** ** The two loops of apply_stopping_strings *)

Lemma occurs_in_prefix (x pre rest : str) : occurs x pre -> occurs x (pre ++ rest).
Proof.
  intros (a & b & ->). exists a, (b ++ rest).
  rewrite <- !app_assoc. reflexivity.
Qed.

(** The first loop either finds nothing and leaves the reply alone, or
    cuts it where the first listed stop string that occurs first starts. *)
Lemma stop_scan_cases (T : str) (S : list str) :
  ((forall s, In s S -> ~ occurs s T) /\ stop_scan T S = (T, false))
  \/ exists S1 s S2 pre post,
       S = S1 ++ s :: S2 /\ (forall x, In x S1 -> ~ occurs x T) /\
       T = pre ++ s ++ post /\
       (forall pre' post', T = pre' ++ s ++ post' ->
                           (length pre <= length pre')%nat) /\
       stop_scan T S = (pre, true).
Proof.
  induction S as [|s S IH]; simpl.
  - left. split; [intros s []|reflexivity].
  - destruct (find T s =? -1) eqn:E; simpl.
    + apply Z.eqb_eq in E. apply find_absent in E.
      destruct IH as [[Hno Hr]|(S1 & s' & S2 & pre & post & HS & Hno & HT & Hmin & Hr)].
      * left. split; [|exact Hr]. intros x [<-|Hx]; auto.
      * right. exists (s :: S1), s', S2, pre, post.
        repeat split; try assumption.
        -- rewrite HS. reflexivity.
        -- intros x [<-|Hx]; auto.
    + apply Z.eqb_neq in E.
      destruct (find_found T s E) as (pre & post & HT & Hcut & Hmin).
      right. exists [], s, S, pre, post.
      repeat split; try assumption.
      * intros x [].
      * rewrite Hcut. reflexivity.
Qed.

(** The test of line 325, for [j] in the range the loop runs over. *)
Lemma tail_test (reply string : str) (j : nat) :
  (0 < j < length string)%nat ->
  str_eqb (slice_from reply (- Z.of_nat j)) (slice_to string (Z.of_nat j)) = true
  <-> exists body, reply = body ++ firstn j string.
Proof.
  intros Hj. rewrite str_eqb_eq, slice_to_nonneg.
  unfold slice_from. rewrite bound_neg by lia.
  split.
  - intros H. exists (firstn (length reply - j) reply).
    rewrite <- H. symmetry. apply firstn_skipn.
  - intros [body ->].
    assert (length (firstn j string) = j) as L
      by (rewrite length_firstn; lia).
    rewrite length_app, L.
    replace (length body + j - j)%nat with (length body + 0)%nat by lia.
    rewrite skipn_app, Nat.add_0_r, skipn_all.
    replace (length body - length body)%nat with 0%nat by lia.
    reflexivity.
Qed.

Lemma tail_cut (body string : str) (j : nat) :
  (0 < j < length string)%nat ->
  slice_to (body ++ firstn j string) (- Z.of_nat j) = body.
Proof.
  intros Hj. unfold slice_to. rewrite bound_neg by lia.
  assert (length (firstn j string) = j) as L
    by (rewrite length_firstn; lia).
  rewrite length_app, L.
  replace (length body + j - j)%nat with (length body + 0)%nat by lia.
  rewrite firstn_app_2. simpl. apply app_nil_r.
Qed.

(** The inner loop removes the longest tail among the candidates
    [n, n-1, ..., 1], or reports that none fits. *)
Lemma trim_inner_cases (reply string : str) (n : nat) :
  (n < length string)%nat ->
  match trim_inner reply string n with
  | Some r =>
      exists j, (j <= n)%nat /\ ends_with_prefix reply string j r /\
                forall j' body, (j' <= n)%nat ->
                                ends_with_prefix reply string j' body ->
                                (j' <= j)%nat
  | None =>
      forall j body, (j <= n)%nat -> ~ ends_with_prefix reply string j body
  end.
Proof.
  induction n as [|n IH]; intros Hn.
  - simpl. intros j body Hj [Hr _]. lia.
  - cbn [trim_inner].
    destruct (str_eqb _ _) eqn:E.
    + apply tail_test in E; [|lia]. destruct E as [body Hb].
      exists (S n). split; [lia|]. split.
      * split; [lia|]. rewrite Hb at 1. f_equal.
        rewrite Hb. symmetry. apply tail_cut. lia.
      * intros; assumption.
    + specialize (IH ltac:(lia)).
      destruct (trim_inner reply string n) as [r|].
      * destruct IH as (j & Hj & He & Hmax).
        exists j. split; [lia|]. split; [exact He|].
        intros j' body Hj' He'.
        destruct (Nat.eq_dec j' (S n)) as [->|Hne].
        -- exfalso. destruct He' as [Hr Hb].
           assert (str_eqb (slice_from reply (- Z.of_nat (S n)))
                           (slice_to string (Z.of_nat (S n))) = true) as E'
             by (apply tail_test; [lia | exists body; exact Hb]).
           congruence.
        -- apply (Hmax j' body); [lia | exact He'].
      * intros j body Hj He.
        destruct (Nat.eq_dec j (S n)) as [->|Hne].
        -- destruct He as [Hr Hb].
           assert (str_eqb (slice_from reply (- Z.of_nat (S n)))
                           (slice_to string (Z.of_nat (S n))) = true) as E'
             by (apply tail_test; [lia | exists body; exact Hb]).
           congruence.
        -- apply (IH j body); [lia | exact He].
Qed.

(** The second loop either finds no stop string with a fitting tail and
    leaves the reply alone, or removes the longest fitting tail of the
    first listed stop string that has one. *)
Lemma trim_tail_cases (T : str) (S : list str) :
  ((forall s j body, In s S -> ~ ends_with_prefix T s j body)
   /\ trim_tail T S = T)
  \/ exists S1 s S2 j body,
       S = S1 ++ s :: S2 /\
       (forall x j' body', In x S1 -> ~ ends_with_prefix T x j' body') /\
       ends_with_prefix T s j body /\
       (forall j' body', ends_with_prefix T s j' body' -> (j' <= j)%nat) /\
       trim_tail T S = body.
Proof.
  induction S as [|s S IH]; simpl.
  - left. split; [intros s j body []|reflexivity].
  - pose proof (trim_inner_cases T s (length s - 1)) as Hin.
    destruct (Nat.eq_dec (length s) 0) as [Hz|Hz].
    + (* an empty stop string has no candidate tail *)
      rewrite Hz in *. simpl in *.
      destruct IH as [[Hno Hr]|(S1 & s' & S2 & j & body & HS & Hno & He & Hmax & Hr)].
      * left. split; [|exact Hr].
        intros x j body [<-|Hx]; [intros [Hj _]; lia | apply Hno; exact Hx].
      * right. exists (s :: S1), s', S2, j, body.
        repeat split; try assumption; try (apply He).
        -- rewrite HS. reflexivity.
        -- intros x j' body' [<-|Hx]; [intros [Hj _]; lia | apply Hno; exact Hx].
    + specialize (Hin ltac:(lia)).
      destruct (trim_inner T s (length s - 1)) as [r|].
      * destruct Hin as (j & Hj & He & Hmax).
        right. exists [], s, S, j, r.
        repeat split; try (apply He).
        -- intros x j' body' [].
        -- intros j' body' He'. apply (Hmax j' body'); [|exact He'].
           destruct He' as [Hlt _]. lia.
      * destruct IH as [[Hno Hr]|(S1 & s' & S2 & j & body & HS & Hno & He & Hmax & Hr)].
        -- left. split; [|exact Hr].
           intros x j body [<-|Hx]; [|apply Hno; exact Hx].
           intros He. apply (Hin j body); [|exact He].
           destruct He as [Hlt _]. lia.
        -- right. exists (s :: S1), s', S2, j, body.
           repeat split; try assumption; try (apply He).
           ++ rewrite HS. reflexivity.
           ++ intros x j' body' [<-|Hx]; [|apply Hno; exact Hx].
              intros He'. apply (Hin j' body'); [|exact He'].
              destruct He' as [Hlt _]. lia.
Qed.

Lemma apply_when_absent (T : str) (S : list str) :
  (forall s, In s S -> ~ occurs s T) ->
  apply_stopping_strings T S = (trim_tail T S, false).
Proof.
  intros Hno. unfold apply_stopping_strings.
  destruct (stop_scan_cases T S)
    as [[_ Hr]|(S1 & s & S2 & pre & post & HS & _ & HT & _)].
  - rewrite Hr. reflexivity.
  - exfalso. apply (Hno s).
    + rewrite HS. apply in_or_app. right. left. reflexivity.
    + exists pre, post. exact HT.
Qed.

Lemma trim_tail_skips (T : str) (S1 : list str) (rest : list str) :
  (forall x j body, In x S1 -> ~ ends_with_prefix T x j body) ->
  trim_tail T (S1 ++ rest) = trim_tail T rest.
Proof.
  induction S1 as [|x S1 IH]; intros Hno; [reflexivity|].
  simpl.
  destruct (Nat.eq_dec (length x) 0) as [Hz|Hz].
  - rewrite Hz. simpl. apply IH. intros; apply Hno; right; assumption.
  - pose proof (trim_inner_cases T x (length x - 1) ltac:(lia)) as Hin.
    destruct (trim_inner T x (length x - 1)) as [r|].
    + destruct Hin as (j & _ & He & _).
      exfalso. apply (Hno x j r); [left; reflexivity | exact He].
    + apply IH. intros; apply Hno; right; assumption.
Qed.

Lemma ends_with_prefix_shorter (T s : str) (j : nat) (body : str) :
  ends_with_prefix T s j body -> (length body < length T)%nat.
Proof.
  intros [Hj ->]. rewrite length_app, length_firstn. lia.
Qed.

(** The two scenarios of the spec. *)
Example scenario_full_match :
  apply_stopping_strings (lit "Hello" ++ nl ++ lit "You: ") [nl ++ lit "You:"]
  = (lit "Hello", true).
Proof. reflexivity. Qed.

Example scenario_tail_trim :
  apply_stopping_strings (lit "Hello" ++ nl ++ lit "Yo") [nl ++ lit "You:"]
  = (lit "Hello", false).
Proof. reflexivity. Qed.

(** An empty stop string is found at index 0 of any reply, the empty one
    included. *)
Example empty_stop_string :
  apply_stopping_strings (lit "abc") [[]] = ([], true)
  /\ apply_stopping_strings [] [[]] = ([], true).
Proof. split; reflexivity. Qed.

(** ** C1 *)

(** C1 (as stated) fails: with the stop strings listed as
    ["\nYou:", "\nBot:"], the reply "Hello\nBot: hi\nYou: x" is cut at
    "\nYou:", the first listed string that occurs, and the text returned,
    "Hello\nBot: hi", still contains the stop string "\nBot:". *)
Lemma C1_counterexample :
  let T := lit "Hello" ++ nl ++ lit "Bot: hi" ++ nl ++ lit "You: x" in
  let S := [nl ++ lit "You:"; nl ++ lit "Bot:"] in
  (exists s, In s S /\ occurs s T) /\
  apply_stopping_strings T S = (lit "Hello" ++ nl ++ lit "Bot: hi", true) /\
  ~ (forall s, In s S -> ~ occurs s (fst (apply_stopping_strings T S))).
Proof.
  cbv zeta. split; [|split].
  - exists (nl ++ lit "You:"). split; [left; reflexivity|].
    exists (lit "Hello" ++ nl ++ lit "Bot: hi"), (lit " x"). reflexivity.
  - reflexivity.
  - intros H. apply (H (nl ++ lit "Bot:")).
    + right. left. reflexivity.
    + exists (lit "Hello"), (lit " hi"). reflexivity.
Qed.

(** C1 (amended).  When some stop string of S occurs in T, the stop
    strings are scanned in list order; with s the first listed one that
    occurs in T, the result is T cut where the first occurrence of s
    starts, with stopped = true.  The returned text contains no stop string
    listed before s, and does not contain s itself unless s is empty;
    nothing is promised about the stop strings listed after s. *)
Theorem C1_cut_at_first_listed_stop_string (T : str) (S : list str) :
  (exists s, In s S /\ occurs s T) ->
  exists S1 s S2 post,
    S = S1 ++ s :: S2 /\
    (forall x, In x S1 -> ~ occurs x T) /\
    T = fst (apply_stopping_strings T S) ++ s ++ post /\
    (forall pre' post', T = pre' ++ s ++ post' ->
       (length (fst (apply_stopping_strings T S)) <= length pre')%nat) /\
    snd (apply_stopping_strings T S) = true /\
    (forall x, In x S1 -> ~ occurs x (fst (apply_stopping_strings T S))) /\
    (s <> [] -> ~ occurs s (fst (apply_stopping_strings T S))).
Proof.
  intros (s0 & Hin0 & Hocc0).
  unfold apply_stopping_strings.
  destruct (stop_scan_cases T S)
    as [[Hno _]|(S1 & s & S2 & pre & post & HS & Hno & HT & Hmin & Hr)].
  - exfalso. exact (Hno s0 Hin0 Hocc0).
  - rewrite Hr. simpl.
    exists S1, s, S2, post. repeat split; try assumption.
    + intros x Hx Hocc. apply (Hno x Hx).
      rewrite HT. apply occurs_in_prefix. exact Hocc.
    + intros Hne (a & b & Hpre).
      assert (T = a ++ s ++ (b ++ s ++ post)) as HT'.
      { rewrite HT at 1. rewrite Hpre at 1. rewrite <- !app_assoc. reflexivity. }
      apply Hmin in HT'. rewrite Hpre in HT'. rewrite !length_app in HT'.
      destruct s; [congruence|]. simpl in HT'. lia.
Qed.

Lemma C1_cut_at_first_listed_stop_string_witness :
  let T := lit "Hello" ++ nl ++ lit "You: " in
  let S := [nl ++ lit "You:"] in
  (exists s, In s S /\ occurs s T) /\
  exists S1 s S2 post,
    S = S1 ++ s :: S2 /\
    (forall x, In x S1 -> ~ occurs x T) /\
    T = fst (apply_stopping_strings T S) ++ s ++ post /\
    (forall pre' post', T = pre' ++ s ++ post' ->
       (length (fst (apply_stopping_strings T S)) <= length pre')%nat) /\
    snd (apply_stopping_strings T S) = true /\
    (forall x, In x S1 -> ~ occurs x (fst (apply_stopping_strings T S))) /\
    (s <> [] -> ~ occurs s (fst (apply_stopping_strings T S))).
Proof.
  cbv zeta.
  assert (exists s, In s [nl ++ lit "You:"] /\
                    occurs s (lit "Hello" ++ nl ++ lit "You: ")) as H.
  { exists (nl ++ lit "You:"). split; [left; reflexivity|].
    exists (lit "Hello"), (lit " "). reflexivity. }
  split; [exact H|].
  apply (C1_cut_at_first_listed_stop_string
           (lit "Hello" ++ nl ++ lit "You: ") [nl ++ lit "You:"] H).
Defined.

(** ** C2 *)

(** C2 (as stated) fails: with the stop string "\n\nYou:", the reply
    "Hi\n\n\n" contains no stop string and comes back as "Hi\n" with
    stopped = false; "Hi\n" still ends with "\n", a non-empty proper prefix
    of the stop string. *)
Lemma C2_counterexample :
  let T := lit "Hi" ++ nl ++ nl ++ nl in
  let S := [nl ++ nl ++ lit "You:"] in
  (forall s, In s S -> ~ occurs s T) /\
  apply_stopping_strings T S = (lit "Hi" ++ nl, false) /\
  exists s j body,
    In s S /\ ends_with_prefix (fst (apply_stopping_strings T S)) s j body.
Proof.
  cbv zeta. split; [|split].
  - intros s [<-|[]]. apply find_absent. reflexivity.
  - reflexivity.
  - exists (nl ++ nl ++ lit "You:"), 1%nat, (lit "Hi").
    split; [left; reflexivity|].
    split; [simpl; lia | reflexivity].
Qed.

(** C2 (amended).  When no stop string of S occurs in T, stopped = false
    and one pass of trimming is made: if no stop string has a non-empty
    proper prefix equal to a tail of T, T is returned unchanged; otherwise,
    with s the first listed stop string that has one and j the length of
    the longest such prefix of s, T is returned without its last j
    characters.  Nothing is promised about the tail of the returned text. *)
Theorem C2_one_pass_tail_trim (T : str) (S : list str) :
  (forall s, In s S -> ~ occurs s T) ->
  snd (apply_stopping_strings T S) = false /\
  ((forall s j body, In s S -> ~ ends_with_prefix T s j body) ->
   fst (apply_stopping_strings T S) = T) /\
  (forall S1 s S2 j body,
     S = S1 ++ s :: S2 ->
     (forall x j' body', In x S1 -> ~ ends_with_prefix T x j' body') ->
     ends_with_prefix T s j body ->
     (forall j' body', ends_with_prefix T s j' body' -> (j' <= j)%nat) ->
     fst (apply_stopping_strings T S) = body).
Proof.
  intros Hno. rewrite (apply_when_absent T S Hno). simpl.
  split; [reflexivity|]. split.
  - intros Hnt.
    destruct (trim_tail_cases T S)
      as [[_ Hr]|(S1 & s & S2 & j & body & HS & _ & He & _)]; [exact Hr|].
    exfalso. apply (Hnt s j body); [|exact He].
    rewrite HS. apply in_or_app. right. left. reflexivity.
  - intros S1 s S2 j body HS Hskip He Hmax.
    rewrite HS, (trim_tail_skips T S1 (s :: S2) Hskip). simpl.
    assert (length s <> 0)%nat as Hz by (destruct He as [Hj _]; lia).
    pose proof (trim_inner_cases T s (length s - 1) ltac:(lia)) as Hin.
    destruct (trim_inner T s (length s - 1)) as [r|].
    + destruct Hin as (j0 & Hj0 & He0 & Hmax0).
      assert (j0 = j) as ->.
      { apply Nat.le_antisymm.
        - apply (Hmax j0 r He0).
        - apply (Hmax0 j body); [destruct He as [Hj _]; lia | exact He]. }
      destruct He as [_ Hb], He0 as [_ Hb0].
      rewrite Hb in Hb0. apply app_inv_tail in Hb0. symmetry. exact Hb0.
    + exfalso. apply (Hin j body); [destruct He as [Hj _]; lia | exact He].
Qed.

Lemma C2_one_pass_tail_trim_witness :
  let T := lit "Hello" ++ nl ++ lit "Yo" in
  let S := [nl ++ lit "You:"] in
  (forall s, In s S -> ~ occurs s T) /\
  snd (apply_stopping_strings T S) = false /\
  ((forall s j body, In s S -> ~ ends_with_prefix T s j body) ->
   fst (apply_stopping_strings T S) = T) /\
  (forall S1 s S2 j body,
     S = S1 ++ s :: S2 ->
     (forall x j' body', In x S1 -> ~ ends_with_prefix T x j' body') ->
     ends_with_prefix T s j body ->
     (forall j' body', ends_with_prefix T s j' body' -> (j' <= j)%nat) ->
     fst (apply_stopping_strings T S) = body).
Proof.
  cbv zeta.
  assert (forall s, In s [nl ++ lit "You:"] ->
                    ~ occurs s (lit "Hello" ++ nl ++ lit "Yo")) as H.
  { intros s [<-|[]]. apply find_absent. reflexivity. }
  split; [exact H|].
  apply (C2_one_pass_tail_trim (lit "Hello" ++ nl ++ lit "Yo")
                               [nl ++ lit "You:"] H).
Defined.

(** ** C6 *)

(** C6 (as stated) fails: with the stop strings ["\nYou:", "\nBot:"] the
    reply "Hello\nBot: hi\nYou: x" is stopped as "Hello\nBot: hi";
    matching that result again stops once more, at "\nBot:", and returns
    "Hello" with stopped = true. *)
Lemma C6_counterexample :
  let T := lit "Hello" ++ nl ++ lit "Bot: hi" ++ nl ++ lit "You: x" in
  let S := [nl ++ lit "You:"; nl ++ lit "Bot:"] in
  let T' := lit "Hello" ++ nl ++ lit "Bot: hi" in
  apply_stopping_strings T S = (T', true) /\
  apply_stopping_strings T' S = (lit "Hello", true) /\
  apply_stopping_strings T' S <> (T', false).
Proof. cbv zeta. repeat split. discriminate. Qed.

(** C6 (amended).  When the matcher has stopped T as T', T' is T cut at
    a stop string s0 of S, no stop string listed before s0 occurs in T',
    and s0 itself does not unless it is empty.  Matching T' again with the
    same S returns (T', false) exactly when no stop string of S occurs in
    T' and T' does not end with a non-empty proper prefix of a stop string
    of S.  Otherwise, either a stop string occurs in T', and then the
    second call stops again and every stop string that occurs in T' is
    empty or listed after s0; or none occurs, T' ends with such a prefix,
    and the second call returns stopped = false and a text shorter than
    T'. *)
Theorem C6_rematch_of_stopped_result (T T' : str) (S : list str) :
  apply_stopping_strings T S = (T', true) ->
  exists S1 s0 S2 post,
    S = S1 ++ s0 :: S2 /\ T = T' ++ s0 ++ post /\
    (forall x, In x S1 -> ~ occurs x T') /\
    (s0 <> [] -> ~ occurs s0 T') /\
    (apply_stopping_strings T' S = (T', false)
     <-> (forall s, In s S -> ~ occurs s T') /\
         (forall s j body, In s S -> ~ ends_with_prefix T' s j body)) /\
    (forall x, In x S -> occurs x T' ->
       snd (apply_stopping_strings T' S) = true /\ (x = [] \/ In x S2)) /\
    ((forall s, In s S -> ~ occurs s T') ->
     forall s j body, In s S -> ends_with_prefix T' s j body ->
       snd (apply_stopping_strings T' S) = false /\
       (length (fst (apply_stopping_strings T' S)) < length T')%nat).
Proof.
  intros H. unfold apply_stopping_strings in H.
  destruct (stop_scan_cases T S)
    as [[_ Hr]|(S1 & s0 & S2 & pre & post & HS & Hno & HT & Hmin & Hr)];
    rewrite Hr in H; simpl in H; [discriminate|].
  injection H as ->.
  assert (forall x, In x S1 -> ~ occurs x T') as Hbefore.
  { intros x Hx Hocc. apply (Hno x Hx).
    rewrite HT. apply occurs_in_prefix. exact Hocc. }
  assert (s0 <> [] -> ~ occurs s0 T') as Hself.
  { intros Hne (a & b & Hpre).
    assert (T = a ++ s0 ++ (b ++ s0 ++ post)) as HT'.
    { rewrite HT at 1. rewrite Hpre at 1. rewrite <- !app_assoc. reflexivity. }
    apply Hmin in HT'. rewrite Hpre in HT'. rewrite !length_app in HT'.
    destruct s0; [congruence|]. simpl in HT'. lia. }
  exists S1, s0, S2, post.
  split; [exact HS|]. split; [exact HT|]. split; [exact Hbefore|].
  split; [exact Hself|]. split; [|split].
  - split.
    + intros H. unfold apply_stopping_strings in H.
      destruct (stop_scan_cases T' S)
        as [[Hnone Hr']|(R1 & s & R2 & pre' & post' & _ & _ & _ & _ & Hr')];
        rewrite Hr' in H; simpl in H; [|discriminate].
      split; [exact Hnone|].
      destruct (trim_tail_cases T' S)
        as [[Hnt _]|(R1 & s & R2 & j & body & _ & _ & He & _ & Hb)];
        [exact Hnt|].
      exfalso. apply ends_with_prefix_shorter in He.
      assert (body = T') as E by congruence. rewrite E in He. lia.
    + intros [Hnone Hnt]. rewrite (apply_when_absent T' S Hnone). f_equal.
      destruct (trim_tail_cases T' S)
        as [[_ Hr']|(R1 & s & R2 & j & body & HS' & _ & He & _)];
        [exact Hr'|].
      exfalso. apply (Hnt s j body); [|exact He].
      rewrite HS'. apply in_or_app. right. left. reflexivity.
  - intros x Hx Hocc. split.
    + unfold apply_stopping_strings.
      destruct (stop_scan_cases T' S)
        as [[Hnone _]|(R1 & s & R2 & pre' & post' & _ & _ & _ & _ & Hr')].
      * exfalso. exact (Hnone x Hx Hocc).
      * rewrite Hr'. reflexivity.
    + rewrite HS in Hx. apply in_app_or in Hx.
      destruct Hx as [Hx|[<-|Hx]].
      * exfalso. exact (Hbefore x Hx Hocc).
      * destruct s0 as [|c s0']; [left; reflexivity|].
        exfalso. apply Hself; [discriminate | exact Hocc].
      * right. exact Hx.
  - intros Hnone s j body Hs He.
    rewrite (apply_when_absent T' S Hnone). cbn [fst snd].
    split; [reflexivity|].
    destruct (trim_tail_cases T' S)
      as [[Hnt _]|(R1 & s' & R2 & j' & body' & _ & _ & He' & _ & ->)].
    + exfalso. exact (Hnt s j body Hs He).
    + exact (ends_with_prefix_shorter T' s' j' body' He').
Qed.

Lemma C6_rematch_of_stopped_result_witness :
  let T := lit "Hello" ++ nl ++ lit "Bot: hi" ++ nl ++ lit "You: x" in
  let S := [nl ++ lit "You:"; nl ++ lit "Bot:"] in
  let T' := lit "Hello" ++ nl ++ lit "Bot: hi" in
  apply_stopping_strings T S = (T', true) /\
  exists S1 s0 S2 post,
    S = S1 ++ s0 :: S2 /\ T = T' ++ s0 ++ post /\
    (forall x, In x S1 -> ~ occurs x T') /\
    (s0 <> [] -> ~ occurs s0 T') /\
    (apply_stopping_strings T' S = (T', false)
     <-> (forall s, In s S -> ~ occurs s T') /\
         (forall s j body, In s S -> ~ ends_with_prefix T' s j body)) /\
    (forall x, In x S -> occurs x T' ->
       snd (apply_stopping_strings T' S) = true /\ (x = [] \/ In x S2)) /\
    ((forall s, In s S -> ~ occurs s T') ->
     forall s j body, In s S -> ends_with_prefix T' s j body ->
       snd (apply_stopping_strings T' S) = false /\
       (length (fst (apply_stopping_strings T' S)) < length T')%nat).
Proof.
  cbv zeta. split; [reflexivity|].
  apply (C6_rematch_of_stopped_result
           (lit "Hello" ++ nl ++ lit "Bot: hi" ++ nl ++ lit "You: x")
           (lit "Hello" ++ nl ++ lit "Bot: hi")
           [nl ++ lit "You:"; nl ++ lit "Bot:"]).
  reflexivity.
Defined.

(** A stopped result the matcher leaves alone, and one whose tail it
    trims when it is matched again. *)
Example rematch_unchanged :
  apply_stopping_strings (lit "Hello" ++ nl ++ lit "You: ") [nl ++ lit "You:"]
  = (lit "Hello", true)
  /\ apply_stopping_strings (lit "Hello") [nl ++ lit "You:"]
     = (lit "Hello", false).
Proof. split; reflexivity. Qed.

Example rematch_trims :
  apply_stopping_strings (lit "ab###x") [lit "###"; lit "bc"]
  = (lit "ab", true)
  /\ apply_stopping_strings (lit "ab") [lit "###"; lit "bc"]
     = (lit "a", false).
Proof. split; reflexivity. Qed.

(** ** C10 *)

(** C10.  For every text T and stop-string list S, the text returned by
    apply_stopping_strings(T, S) is a prefix of T, and so never longer
    than T, whether the reply was cut at a stop string or trimmed at its
    tail. *)
Theorem C10_result_is_prefix (T : str) (S : list str) :
  is_prefix (fst (apply_stopping_strings T S)) T /\
  (length (fst (apply_stopping_strings T S)) <= length T)%nat.
Proof.
  assert (is_prefix (fst (apply_stopping_strings T S)) T) as H.
  { unfold apply_stopping_strings.
    destruct (stop_scan_cases T S)
      as [[_ Hr]|(S1 & s & S2 & pre & post & _ & _ & HT & _ & Hr)];
      rewrite Hr; simpl.
    - destruct (trim_tail_cases T S)
        as [[_ Ht]|(S1 & s & S2 & j & body & _ & _ & [_ He] & _ & Ht)];
        rewrite Ht.
      + exists []. symmetry. apply app_nil_r.
      + exists (firstn j s). exact He.
    - exists (s ++ post). exact HT. }
  split; [exact H|].
  destruct H as [rest H]. rewrite H at 2. rewrite length_app. lia.
Qed.

(** ** The streaming loop *)

Lemma last_cons {A} (x : A) (l : list A) (d : A) : last (x :: l) d = last l x.
Proof.
  revert x d. induction l as [|y l IH]; intros x d; [reflexivity|].
  change (last (x :: y :: l) d) with (last (y :: l) d).
  rewrite !IH. reflexivity.
Qed.

Lemma apply_no_stop_strings (reply : str) :
  apply_stopping_strings reply [] = (reply, false).
Proof. reflexivity. Qed.

Lemma Qgtb_true (a b : Q) : Qgtb a b = true -> (b < a)%Q.
Proof.
  unfold Qgtb. intros H. apply negb_true_iff in H.
  apply Qnot_le_lt. intros Hle. apply Qle_bool_iff in Hle. congruence.
Qed.

Lemma Qgtb_zero_zero (st : state) :
  Qgtb (max_tokens_second (set_max_tokens_second 0%Q st)) 0 = false.
Proof. reflexivity. Qed.

(** With [state['max_tokens_second']] not positive and no stop strings,
    the loop never breaks: it consumes every backend item, yields as the
    default cadence prescribes when streaming is on, keeps the last item,
    and is left the way the backend generator ends. *)
Lemma stream_loop_default (escape_html cnt is_stream : bool) (st : state)
    (ticks : list tick) (ending : option exn) :
  Qgtb (max_tokens_second st) 0 = false ->
  forall v,
    exists v',
      stream_loop escape_html cnt is_stream [] st ticks ending v
      = (if is_stream
         then map (fun tk => EYield (Some (t_now tk)) (offered escape_html cnt tk))
                  (forwarded (last_update v) ticks)
         else [],
         v', ending)
      /\ reply v' = last (map (shown escape_html) ticks) (reply v)
      /\ new_token v'
         = if cnt then last (map t_cnt ticks) (new_token v) else new_token v.
Proof.
  intros Hcap. induction ticks as [|tk rest IH]; intros v.
  - exists v. simpl. destruct is_stream, cnt; auto.
  - cbn [stream_loop]. rewrite apply_no_stop_strings.
    unfold emit. rewrite Hcap. simpl orb.
    fold (shown escape_html tk). fold (offered escape_html cnt tk).
    cbn [map forwarded]. rewrite !last_cons.
    destruct is_stream;
      [destruct (Qgtb (t_now tk - last_update v) window) eqn:E|];
      match goal with |- context [stream_loop _ _ _ _ _ rest ending ?v1] =>
        destruct (IH v1) as (v' & -> & Hrep & Htok) end;
      exists v'; simpl in *; rewrite Hrep, Htok; destruct cnt; auto.
Qed.

(** ** set_manual_seed *)

Lemma seed_error_of_int (rnd : Z) (v : seed_val) (exc : exn) :
  py_int v = inl exc -> set_manual_seed rnd v = inl exc.
Proof. intros H. unfold set_manual_seed. rewrite H. reflexivity. Qed.

Lemma seed_accepted (rnd : Z) (v : seed_val) (z : Z) :
  set_manual_seed rnd v = inr z ->
  exists n, py_int v = inr n /\ z = (if n =? -1 then rnd else n)
            /\ - 2 ^ 63 <= z < 2 ^ 64.
Proof.
  unfold set_manual_seed, torch_manual_seed. intros H.
  destruct (py_int v) as [exc|n]; [discriminate|].
  exists n. split; [reflexivity|].
  destruct ((- 2 ^ 63 <=? (if n =? -1 then rnd else n))
            && ((if n =? -1 then rnd else n) <? 2 ^ 64)) eqn:E;
    [|discriminate].
  injection H as <-. apply andb_true_iff in E. destruct E as [E1 E2].
  apply Z.leb_le in E1. apply Z.ltb_lt in E2. auto.
Qed.

(** ** _generate_reply once the backend is running *)

Lemma backend_writes_keep_cap (f : backend) (st : state) :
  max_tokens_second (backend_writes f st) = max_tokens_second st.
Proof. destruct f; reflexivity. Qed.

(** When the seed is refused, by [int] or by torch, nothing is yielded
    and the error leaves the generator. *)
Lemma dispatcher_seed_error (e : env) (st : state)
    (stopping_strings : list str) (is_chat escape_html cnt : bool)
    (ticks : list tick) (ending : option exn) (f : backend) (exc : exn) :
  find_generate_func e = Some f ->
  set_manual_seed (randint e) (seed (prepared e is_chat st)) = inl exc ->
  _generate_reply e st stopping_strings is_chat escape_html cnt ticks ending
  = {| events := []; finish := Some exc |}.
Proof.
  intros Hf Hs. unfold _generate_reply, apply_state_extension. rewrite Hf.
  unfold prepared in Hs.
  destruct is_chat, (ext_state_fresh e);
    cbn [negb get put at_caller at_other] in *; rewrite Hs; reflexivity.
Qed.

(** With a seed that is accepted, the call of generate_reply_custom is
    reached, and raises. *)
Lemma dispatcher_custom (e : env) (st : state)
    (stopping_strings : list str) (is_chat escape_html cnt : bool)
    (ticks : list tick) (ending : option exn) (z : Z) :
  find_generate_func e = Some generate_reply_custom ->
  set_manual_seed (randint e) (seed (prepared e is_chat st)) = inr z ->
  _generate_reply e st stopping_strings is_chat escape_html cnt ticks ending
  = {| events := []; finish := Some TypeError |}.
Proof.
  intros Hf Hs. unfold _generate_reply, apply_state_extension. rewrite Hf.
  unfold prepared in Hs.
  destruct is_chat, (ext_state_fresh e);
    cbn [negb get put at_caller at_other] in *; rewrite Hs; reflexivity.
Qed.

(** When a generation function is found, the seed is accepted and the
    call of the backend succeeds, the generator yields inside the loop as
    the default cadence prescribes (when streaming is on); then, if the
    backend generator was exhausted, it yields the last reply and ends,
    and if the backend raised, it raises the same. *)
Lemma dispatcher_run (e : env) (st : state) (stopping_strings : list str)
    (is_chat escape_html cnt : bool) (ticks : list tick) (ending : option exn)
    (f : backend) (z : Z) :
  find_generate_func e = Some f ->
  f <> generate_reply_custom ->
  set_manual_seed (randint e) (seed (prepared e is_chat st)) = inr z ->
  _generate_reply e st stopping_strings is_chat escape_html cnt ticks ending
  = {| events :=
         map (fun tk => EYield (Some (t_now tk)) (offered escape_html cnt tk))
             (if stream (prepared e is_chat st)
              then forwarded (-1)%Q ticks else [])
         ++ closing e f st is_chat escape_html cnt ticks ending;
       finish := ending |}.
Proof.
  intros Hf Hc Hs. unfold _generate_reply, apply_state_extension. rewrite Hf.
  assert (call_generate_func f ticks = inr ticks) as ->
    by (destruct f; [reflexivity | congruence | reflexivity]).
  unfold closing, final_item, output_state, prepared in *.
  destruct is_chat, (ext_state_fresh e), cnt;
    cbn [negb andb get put at_caller at_other length Z.of_nat Z.ltb Z.compare]
      in *;
    rewrite Hs;
    match goal with
    | |- context [stream_loop _ ?c ?s _ ?st' _ _ ?v0] =>
        destruct (stream_loop_default escape_html c s st' ticks ending
                    ltac:(rewrite ?backend_writes_keep_cap; reflexivity) v0)
          as (v & -> & Hrep & Htok)
    end;
    simpl in Hrep, Htok;
    (destruct ending as [exc|];
     [rewrite app_nil_r | rewrite Hrep, Htok]);
    match goal with
    | |- context [if ?b then forwarded _ _ else _] => destruct b
    end; reflexivity.
Qed.

Lemma yielded_app (a b : list event) : yielded (a ++ b) = yielded a ++ yielded b.
Proof. unfold yielded. apply flat_map_app. Qed.

Lemma yield_times_app (a b : list event) :
  yield_times (a ++ b) = yield_times a ++ yield_times b.
Proof. unfold yield_times. apply flat_map_app. Qed.

Lemma slept_app (a b : list event) : slept (a ++ b) = slept a || slept b.
Proof. unfold slept. apply existsb_app. Qed.

Lemma yielded_in_loop (escape_html cnt : bool) (ticks : list tick) :
  yielded (map (fun tk => EYield (Some (t_now tk)) (offered escape_html cnt tk)) ticks)
  = map (offered escape_html cnt) ticks.
Proof. induction ticks as [|tk l IH]; simpl; [|rewrite <- IH]; reflexivity. Qed.

Lemma yield_times_in_loop (escape_html cnt : bool) (ticks : list tick) :
  yield_times (map (fun tk => EYield (Some (t_now tk)) (offered escape_html cnt tk)) ticks)
  = map t_now ticks.
Proof. induction ticks as [|tk l IH]; simpl; [|rewrite <- IH]; reflexivity. Qed.

Lemma slept_in_loop (escape_html cnt : bool) (ticks : list tick) :
  slept (map (fun tk => EYield (Some (t_now tk)) (offered escape_html cnt tk)) ticks)
  = false.
Proof. induction ticks as [|tk l IH]; simpl; [reflexivity | exact IH]. Qed.

Lemma closing_untimed (e : env) (f : backend) (st : state)
    (is_chat escape_html cnt : bool) (ticks : list tick) (ending : option exn) :
  yield_times (closing e f st is_chat escape_html cnt ticks ending) = []
  /\ slept (closing e f st is_chat escape_html cnt ticks ending) = false.
Proof. destruct ending; split; reflexivity. Qed.

Lemma forwarded_spaced (ticks : list tick) :
  forall last, spaced last (map t_now (forwarded last ticks)).
Proof.
  induction ticks as [|tk rest IH]; intros last; simpl; [exact I|].
  destruct (Qgtb (t_now tk - last) window) eqn:E.
  - simpl. split; [apply Qgtb_true; exact E | apply IH].
  - apply IH.
Qed.

Lemma forwarded_sub (ticks : list tick) :
  forall last tk, In tk (forwarded last ticks) -> In tk ticks.
Proof.
  induction ticks as [|tk0 rest IH]; intros last tk H; [exact H|].
  simpl in H. destruct (Qgtb (t_now tk0 - last) window).
  - destruct H as [<-|H]; [left; reflexivity | right; exact (IH _ _ H)].
  - right. exact (IH _ _ H).
Qed.

Lemma forwarded_app (a b : list tick) :
  forall last0,
    forwarded last0 (a ++ b)
    = forwarded last0 a
      ++ forwarded (last (map t_now (forwarded last0 a)) last0) b.
Proof.
  induction a as [|tk a IH]; intros last0; simpl; [reflexivity|].
  destruct (Qgtb (t_now tk - last0) window).
  - cbn [map app]. rewrite last_cons, IH. reflexivity.
  - apply IH.
Qed.

(** The cadence keeps the update that opens a window and drops the next
    one when it comes within the window. *)
Lemma later_update_suppressed (pre post : list tick) (tk1 tk2 : tick) :
  let before := last (map t_now (forwarded (-1)%Q pre)) (-1)%Q in
  Qgtb (t_now tk1 - before) window = true ->
  (t_now tk2 - t_now tk1 <= window)%Q ->
  forwarded (-1)%Q (pre ++ tk1 :: tk2 :: post)
  = forwarded (-1)%Q pre ++ tk1 :: forwarded (t_now tk1) post.
Proof.
  intros before H1 H2. rewrite forwarded_app. fold before.
  cbn [forwarded]. rewrite H1.
  assert (Qgtb (t_now tk2 - t_now tk1) window = false) as ->.
  { unfold Qgtb. apply negb_false_iff. apply Qle_bool_iff. exact H2. }
  reflexivity.
Qed.

Example html_escape_sample :
  html_escape (lit "<a href='x'>R&D</a>")
  = lit "&lt;a href=&#x27;x&#x27;&gt;R&amp;D&lt;/a&gt;".
Proof. reflexivity. Qed.

(** The cancellation flag is read only next to a positive cap: with the
    cap not positive the loop does the same whatever the flag shows. *)
Lemma stream_loop_ignores_cancel (escape_html cnt is_stream : bool)
    (stops : list str) (st : state) (ticks : list tick) (ending : option exn) :
  Qgtb (max_tokens_second st) 0 = false ->
  forall flags v,
    stream_loop escape_html cnt is_stream stops st (with_cancel flags ticks)
                ending v
    = stream_loop escape_html cnt is_stream stops st ticks ending v.
Proof.
  intros Hcap. induction ticks as [|tk rest IH]; intros flags v; [reflexivity|].
  cbn [with_cancel stream_loop t_reply t_cnt t_now t_after t_cancel].
  destruct (apply_stopping_strings _ stops) as [r stop_found].
  unfold emit. rewrite Hcap. simpl andb. rewrite !orb_false_r.
  cbn [t_now].
  destruct is_stream;
    [destruct (Qgtb (t_now tk - last_update v) window)|];
    destruct stop_found; try reflexivity; rewrite IH; reflexivity.
Qed.

(** ** C3 *)

(** C3 (as stated) fails: in a chat request with stopping_strings =
    ["\nYou:"], the backend items "Hi", "Hi\nYou:" and "Hi\nYou: bye" are
    all yielded in full, the last one twice; the stop string neither cuts
    a reply nor ends the generation. *)
Lemma C3_counterexample :
  let stop := nl ++ lit "You:" in
  let r := _generate_reply env_ext (streaming 0%Q) [stop] true false false
                           chat_updates None in
  yielded (events r)
  = [One (Str (lit "Hi")); One (Str (lit "Hi" ++ nl ++ lit "You:"));
     One (Str (lit "Hi" ++ nl ++ lit "You: bye"));
     One (Str (lit "Hi" ++ nl ++ lit "You: bye"))]
  /\ exists txt, In (One (Str txt)) (yielded (events r)) /\ occurs stop txt.
Proof.
  cbv zeta. split; [reflexivity|].
  exists (lit "Hi" ++ nl ++ lit "You: bye"). split.
  - right. right. left. reflexivity.
  - exists (lit "Hi"), (lit " bye"). reflexivity.
Qed.

(** C3 (amended).  Whatever stopping_strings the caller supplies,
    _generate_reply matches every reply against an empty stop-string list.
    Once the backend is running (a generation function other than
    generate_reply_custom was found and set_manual_seed accepted the
    seed), every backend item is consumed and the generator ends the way
    the backend generator ends; each item the cadence lets through is
    yielded with its full text (html-escaped when requested), and when the
    backend generator is exhausted the last yield carries the full text of
    the last backend item (outside chat mode, through the output
    extension, which is given the state as the backend left it).  No
    supplied stop string cuts a reply or ends the loop. *)
Theorem C3_supplied_stop_strings_not_applied (e : env) (st : state)
    (stopping_strings : list str) (is_chat escape_html cnt : bool)
    (ticks : list tick) (ending : option exn) (f : backend) (z : Z) :
  find_generate_func e = Some f ->
  f <> generate_reply_custom ->
  set_manual_seed (randint e) (seed (prepared e is_chat st)) = inr z ->
  yielded (events (_generate_reply e st stopping_strings is_chat escape_html
                                   cnt ticks ending))
  = map (offered escape_html cnt)
        (if stream (prepared e is_chat st) then forwarded (-1)%Q ticks else [])
    ++ match ending with
       | None => [final_item e f st is_chat escape_html cnt ticks]
       | Some _ => []
       end
  /\ finish (_generate_reply e st stopping_strings is_chat escape_html cnt
                             ticks ending)
     = ending.
Proof.
  intros Hf Hc Hs.
  rewrite (dispatcher_run e st stopping_strings is_chat escape_html cnt ticks
                          ending f z Hf Hc Hs).
  cbn [events finish]. split; [|reflexivity].
  rewrite yielded_app, yielded_in_loop.
  destruct ending; reflexivity.
Qed.

Lemma C3_supplied_stop_strings_not_applied_witness :
  let stop := nl ++ lit "You:" in
  (find_generate_func env_ext = Some extension_generate /\
   extension_generate <> generate_reply_custom /\
   set_manual_seed (randint env_ext)
                   (seed (prepared env_ext true (streaming 0%Q))) = inr 42) /\
  yielded (events (_generate_reply env_ext (streaming 0%Q) [stop] true false
                                   false chat_updates None))
  = map (offered false false)
        (if stream (prepared env_ext true (streaming 0%Q))
         then forwarded (-1)%Q chat_updates else [])
    ++ [final_item env_ext extension_generate (streaming 0%Q) true false false
                   chat_updates]
  /\ finish (_generate_reply env_ext (streaming 0%Q) [stop] true false false
                             chat_updates None)
     = None.
Proof.
  cbv zeta.
  assert (extension_generate <> generate_reply_custom) as Hc by discriminate.
  split; [repeat split; exact Hc|].
  apply (C3_supplied_stop_strings_not_applied
           env_ext (streaming 0%Q) [nl ++ lit "You:"] true false false
           chat_updates None extension_generate 42 eq_refl Hc eq_refl).
Defined.

(** ** C4 *)

(** C4 (as stated) fails: with a cap of 1 token per second configured and
    streaming on, updates offered at 100 s, 100.01 s and 100.5 s are
    yielded inside the loop at 100 s and 100.5 s, half a second apart and
    with no sleep, and the update "ab" offered at 100.01 s is skipped. *)
Lemma C4_counterexample :
  let st := streaming 1%Q in
  let r := _generate_reply env_ext st [] false false false
                           (three_updates false) None in
  (0 < max_tokens_second st)%Q /\ stream st = true /\
  yield_times (events r) = [100%Q; 100.5%Q] /\
  ~ spaced_by (1 / max_tokens_second st)%Q (yield_times (events r)) /\
  slept (events r) = false /\
  ~ In (One (Str (lit "ab"))) (yielded (events r)).
Proof.
  cbv zeta. repeat split.
  - intros [H _]. vm_compute in H. apply H. reflexivity.
  - intros H. vm_compute in H.
    destruct H as [H|[H|[H|[]]]]; discriminate.
Qed.

(** C4 (amended).  _generate_reply overwrites state['max_tokens_second']
    with 0 before the loop, so a configured cap has no effect: with
    streaming on and the backend running (a generation function other than
    generate_reply_custom was found and set_manual_seed accepted the
    seed), whatever the cap, the loop never sleeps; the objects yielded
    inside the loop are exactly the updates the default cadence lets
    through, in order, each with the time it was offered as its emission
    time, and an update offered within the window is skipped; the only
    other yield is the last one, after the loop, when the backend
    generator is exhausted. *)
Theorem C4_configured_cap_is_overwritten (e : env) (st : state)
    (stopping_strings : list str) (is_chat escape_html cnt : bool)
    (ticks : list tick) (ending : option exn) (f : backend) (z : Z) :
  find_generate_func e = Some f ->
  f <> generate_reply_custom ->
  set_manual_seed (randint e) (seed (prepared e is_chat st)) = inr z ->
  stream (prepared e is_chat st) = true ->
  let r := _generate_reply e st stopping_strings is_chat escape_html cnt ticks
                           ending in
  slept (events r) = false
  /\ events r
     = map (fun tk => EYield (Some (t_now tk)) (offered escape_html cnt tk))
           (forwarded (-1)%Q ticks)
       ++ closing e f st is_chat escape_html cnt ticks ending
  /\ yield_times (events r) = map t_now (forwarded (-1)%Q ticks)
  /\ (forall tk, In tk (forwarded (-1)%Q ticks) -> In tk ticks)
  /\ spaced (-1)%Q (yield_times (events r)).
Proof.
  intros Hf Hc Hs Hstream r. subst r.
  rewrite (dispatcher_run e st stopping_strings is_chat escape_html cnt ticks
                          ending f z Hf Hc Hs).
  cbn [events]. rewrite Hstream, slept_app, yield_times_app.
  rewrite slept_in_loop, yield_times_in_loop.
  destruct (closing_untimed e f st is_chat escape_html cnt ticks ending)
    as [-> ->].
  rewrite app_nil_r.
  repeat split; try reflexivity.
  - intros tk. apply forwarded_sub.
  - apply forwarded_spaced.
Qed.

Lemma C4_configured_cap_is_overwritten_witness :
  (find_generate_func env_ext = Some extension_generate /\
   extension_generate <> generate_reply_custom /\
   set_manual_seed (randint env_ext)
                   (seed (prepared env_ext false (streaming 1%Q))) = inr 42 /\
   stream (prepared env_ext false (streaming 1%Q)) = true) /\
  let r := _generate_reply env_ext (streaming 1%Q) [] false false false
                           (three_updates false) None in
  slept (events r) = false
  /\ events r
     = map (fun tk => EYield (Some (t_now tk)) (offered false false tk))
           (forwarded (-1)%Q (three_updates false))
       ++ closing env_ext extension_generate (streaming 1%Q) false false false
                  (three_updates false) None
  /\ yield_times (events r) = map t_now (forwarded (-1)%Q (three_updates false))
  /\ (forall tk, In tk (forwarded (-1)%Q (three_updates false)) ->
                 In tk (three_updates false))
  /\ spaced (-1)%Q (yield_times (events r)).
Proof.
  assert (extension_generate <> generate_reply_custom) as Hc by discriminate.
  split; [repeat split; exact Hc|].
  apply (C4_configured_cap_is_overwritten
           env_ext (streaming 1%Q) [] false false false (three_updates false)
           None extension_generate 42 eq_refl Hc eq_refl eq_refl).
Defined.

(** ** C5 *)

(** C5 (as stated) fails: with updates one second apart and the
    cancellation flag showing set at every iteration boundary from the
    first one on, the loop goes on: "ab" and "abc", produced after the flag
    was first seen set, are still yielded. *)
Lemma C5_counterexample :
  let ticks := with_cancel (fun _ => true) steady_updates in
  let r := _generate_reply env_ext (streaming 0%Q) [] false false false ticks
                           None in
  map t_cancel ticks = [true; true; true] /\
  yielded (events r)
  = [One (Str (lit "a")); One (Str (lit "ab")); One (Str (lit "abc"));
     One (Str (lit "abc"))].
Proof. cbv zeta. split; reflexivity. Qed.

(** C5 (amended).  The streaming loop consults shared.stop_everything only
    together with state['max_tokens_second'] > 0, and _generate_reply has
    set that entry to 0 before the loop.  So whatever the flag shows at the
    iteration boundaries, _generate_reply produces the same emissions and
    ends the same way: setting the flag mid-stream stops nothing in this
    loop, and replies already emitted are unaffected. *)
Theorem C5_cancellation_flag_not_observed (e : env) (st : state)
    (stopping_strings : list str) (is_chat escape_html cnt : bool)
    (ticks : list tick) (ending : option exn) (flags : nat -> bool) :
  _generate_reply e st stopping_strings is_chat escape_html cnt
                  (with_cancel flags ticks) ending
  = _generate_reply e st stopping_strings is_chat escape_html cnt ticks ending.
Proof.
  unfold _generate_reply, apply_state_extension.
  destruct (find_generate_func e) as [f|]; [|reflexivity].
  destruct is_chat, (ext_state_fresh e), cnt;
    cbn [negb andb get put at_caller at_other length Z.of_nat Z.ltb Z.compare];
    destruct (set_manual_seed _ _) as [exc|z]; try reflexivity;
    destruct f; cbn [call_generate_func]; try reflexivity;
    rewrite stream_loop_ignores_cancel by reflexivity; reflexivity.
Qed.

(** ** C7 *)

(** C7 (as stated) fails: with no cap, the updates "a" and "ab" are
    offered 10 ms apart, less than one window; the earlier one, "a", is
    forwarded and the later one, "ab", never is. *)
Lemma C7_counterexample :
  let r := _generate_reply env_ext (streaming 0%Q) [] false false false
                           (three_updates false) None in
  map t_now (three_updates false) = [100%Q; 100.01%Q; 100.5%Q] /\
  (100.01 - 100 < window)%Q /\
  yielded (events r)
  = [One (Str (lit "a")); One (Str (lit "abc")); One (Str (lit "abc"))] /\
  In (One (Str (lit "a"))) (yielded (events r)) /\
  ~ In (One (Str (lit "ab"))) (yielded (events r)).
Proof.
  cbv zeta. repeat split.
  - left. reflexivity.
  - intros H. vm_compute in H.
    destruct H as [H|[H|[H|[]]]]; discriminate.
Qed.

(** C7 (amended).  Once the backend is running (a generation function
    other than generate_reply_custom was found and set_manual_seed
    accepted the seed), an update is yielded inside the loop exactly when
    streaming was on at the start of the request and more than one window
    (the double 0.041666666666666664) has passed since the last update
    yielded inside the loop (since -1 for the first): an update offered
    within the window is suppressed, the one that opened the window stays
    forwarded, and the emission times recorded in the loop are more than
    one window apart.  When the backend generator is exhausted, the last
    reply is yielded once more after the loop, whatever the cadence;
    outside chat mode it passes through the output extension, which is
    given the state as the backend left it. *)
Theorem C7_default_cadence (e : env) (st : state)
    (stopping_strings : list str) (is_chat escape_html cnt : bool)
    (ticks : list tick) (ending : option exn) (f : backend) (z : Z) :
  find_generate_func e = Some f ->
  f <> generate_reply_custom ->
  set_manual_seed (randint e) (seed (prepared e is_chat st)) = inr z ->
  events (_generate_reply e st stopping_strings is_chat escape_html cnt ticks
                          ending)
  = map (fun tk => EYield (Some (t_now tk)) (offered escape_html cnt tk))
        (if stream (prepared e is_chat st) then forwarded (-1)%Q ticks else [])
    ++ match ending with
       | None => [EYield None (final_item e f st is_chat escape_html cnt ticks)]
       | Some _ => []
       end
  /\ spaced (-1)%Q
       (yield_times (events (_generate_reply e st stopping_strings is_chat
                                             escape_html cnt ticks ending)))
  /\ (forall pre post tk1 tk2,
        ticks = pre ++ tk1 :: tk2 :: post ->
        Qgtb (t_now tk1 - last (map t_now (forwarded (-1)%Q pre)) (-1)%Q)
             window = true ->
        (t_now tk2 - t_now tk1 <= window)%Q ->
        forwarded (-1)%Q ticks
        = forwarded (-1)%Q pre ++ tk1 :: forwarded (t_now tk1) post).
Proof.
  intros Hf Hc Hs.
  rewrite (dispatcher_run e st stopping_strings is_chat escape_html cnt ticks
                          ending f z Hf Hc Hs).
  cbn [events]. split; [reflexivity|]. split.
  - rewrite yield_times_app, yield_times_in_loop.
    destruct (closing_untimed e f st is_chat escape_html cnt ticks ending)
      as [-> _].
    rewrite app_nil_r.
    destruct (stream (prepared e is_chat st));
      [apply forwarded_spaced | exact I].
  - intros pre post tk1 tk2 -> H1 H2.
    apply later_update_suppressed; assumption.
Qed.

Lemma C7_default_cadence_witness :
  (find_generate_func env_ext = Some extension_generate /\
   extension_generate <> generate_reply_custom /\
   set_manual_seed (randint env_ext)
                   (seed (prepared env_ext false (streaming 0%Q))) = inr 42) /\
  events (_generate_reply env_ext (streaming 0%Q) [] false false true
                          (three_updates false) None)
  = map (fun tk => EYield (Some (t_now tk)) (offered false true tk))
        (if stream (prepared env_ext false (streaming 0%Q))
         then forwarded (-1)%Q (three_updates false) else [])
    ++ [EYield None (final_item env_ext extension_generate (streaming 0%Q)
                                false false true (three_updates false))]
  /\ spaced (-1)%Q
       (yield_times (events (_generate_reply env_ext (streaming 0%Q) [] false
                                             false true (three_updates false)
                                             None)))
  /\ (forall pre post tk1 tk2,
        three_updates false = pre ++ tk1 :: tk2 :: post ->
        Qgtb (t_now tk1 - last (map t_now (forwarded (-1)%Q pre)) (-1)%Q)
             window = true ->
        (t_now tk2 - t_now tk1 <= window)%Q ->
        forwarded (-1)%Q (three_updates false)
        = forwarded (-1)%Q pre ++ tk1 :: forwarded (t_now tk1) post).
Proof.
  assert (extension_generate <> generate_reply_custom) as Hc by discriminate.
  split; [repeat split; exact Hc|].
  apply (C7_default_cadence
           env_ext (streaming 0%Q) [] false false true (three_updates false)
           None extension_generate 42 eq_refl Hc eq_refl).
Defined.

(** ** C9 *)

(** C9 (as stated) fails: with a model loaded and state['seed'] = None,
    int(seed) raises TypeError; generate_reply_token catches it, prints it
    and ends like an exhausted generator, with nothing yielded. *)
Lemma C9_counterexample :
  py_int (seed no_seed) = inl TypeError /\
  generate_reply_token false env_hf no_seed [] false false steady_updates None
  = Some ({| events := [EPrint TypeError]; finish := None |}, false).
Proof. split; reflexivity. Qed.

(** C9 (amended).  When a generation function is found (an extension
    supplies one or a model is loaded) and int(state['seed']) raises, the
    error leaves _generate_reply before anything is yielded.
    generate_reply lets it reach the caller, after releasing the lock;
    generate_reply_token catches it, prints it and ends its sequence
    normally, after releasing the lock. *)
Theorem C9_seed_error_by_entry_point (e : env) (st : state)
    (stopping_strings : list str) (is_chat escape_html cnt : bool)
    (ticks : list tick) (ending : option exn) (f : backend) (exc : exn) :
  find_generate_func e = Some f ->
  py_int (seed (prepared e is_chat st)) = inl exc ->
  generate_reply false e st stopping_strings is_chat escape_html cnt ticks
                 ending
  = Some ({| events := []; finish := Some exc |}, false)
  /\ generate_reply_token false e st stopping_strings is_chat escape_html
                          ticks ending
     = Some ({| events := [EPrint exc]; finish := None |}, false).
Proof.
  intros Hf Hs.
  assert (forall c, _generate_reply e st stopping_strings is_chat escape_html
                                    c ticks ending
                    = {| events := []; finish := Some exc |}) as Hr.
  { intros c.
    apply (dispatcher_seed_error e st stopping_strings is_chat escape_html c
                                 ticks ending f exc Hf).
    apply seed_error_of_int. exact Hs. }
  unfold generate_reply, generate_reply_token. cbn [acquire].
  rewrite !Hr. split; reflexivity.
Qed.

Lemma C9_seed_error_by_entry_point_witness :
  (find_generate_func env_hf = Some generate_reply_HF /\
   py_int (seed (prepared env_hf false no_seed)) = inl TypeError) /\
  generate_reply false env_hf no_seed [] false false false steady_updates None
  = Some ({| events := []; finish := Some TypeError |}, false)
  /\ generate_reply_token false env_hf no_seed [] false false steady_updates
                          None
     = Some ({| events := [EPrint TypeError]; finish := None |}, false).
Proof.
  split; [split; reflexivity|].
  apply (C9_seed_error_by_entry_point
           env_hf no_seed [] false false false steady_updates None
           generate_reply_HF TypeError eq_refl eq_refl).
Defined.

(** Other ways a seed goes by: with no model loaded the seed is never
    looked at, and a float is truncated, not rejected. *)
Example seed_not_reached_without_model :
  generate_reply false env_none no_seed [] false false false [] None
  = Some ({| events := [ELogError; EYield None (One (Str []))];
             finish := None |}, false).
Proof. reflexivity. Qed.

(** A backend generator that raises after its items: the error passes
    through the loop, there is no last yield, and the two entry points
    differ as they do for a seed error. *)
Example backend_error_by_entry_point :
  generate_reply false env_ext (streaming 0%Q) [] false false true
                 steady_updates (Some ValueError)
  = Some ({| events :=
               [EYield (Some 100%Q) (Two (Str (lit "a")) (Num 1));
                EYield (Some 101%Q) (Two (Str (lit "ab")) (Num 2));
                EYield (Some 102%Q) (Two (Str (lit "abc")) (Num 3))];
             finish := Some ValueError |}, false)
  /\ generate_reply_token false env_ext (streaming 0%Q) [] false false
                          steady_updates (Some ValueError)
     = Some ({| events :=
                  [EYield (Some 100%Q) (Two (Str (lit "a")) (Num 1));
                   EYield (Some 101%Q) (Two (Str (lit "ab")) (Num 2));
                   EYield (Some 102%Q) (Two (Str (lit "abc")) (Num 3));
                   EPrint ValueError];
                finish := None |}, false).
Proof. split; reflexivity. Qed.

(** A model of one of the classes served by generate_reply_custom: the
    call of the backend raises TypeError, whatever the request. *)
Example custom_class_call_raises :
  let e := {| custom_generate_reply := false;
              model_name := lit "llama.gguf";
              model := Some (lit "LlamaCppModel");
              ext_state := fun st => st;
              ext_state_fresh := false;
              ext_output := fun reply _ => reply;
              randint := 1234 |} in
  find_generate_func e = Some generate_reply_custom /\
  _generate_reply e (streaming 0%Q) [] false false false steady_updates None
  = {| events := []; finish := Some TypeError |}.
Proof. split; reflexivity. Qed.

Example float_seed_is_truncated :
  set_manual_seed 1234 (SeedFloat 3.5%Q) = inr 3
  /\ set_manual_seed 1234 (SeedFloat (-3.5)%Q) = inr (-3)
  /\ set_manual_seed 1234 (SeedInt (-1)) = inr 1234.
Proof. repeat split. Qed.

(** An integer seed torch.manual_seed refuses: the error leaves
    _generate_reply at line 92, before the backend is called, and the two
    entry points treat it as they treat the error of int(). *)
Example seed_refused_by_torch :
  let st := {| stream := true; seed := SeedInt (2 ^ 64);
               max_tokens_second := 0%Q |} in
  py_int (seed st) = inr (2 ^ 64)
  /\ set_manual_seed 1234 (seed st) = inl RuntimeError
  /\ set_manual_seed 1234 (SeedInt (2 ^ 64 - 1)) = inr (2 ^ 64 - 1)
  /\ set_manual_seed 1234 (SeedInt (- 2 ^ 63)) = inr (- 2 ^ 63)
  /\ set_manual_seed 1234 (SeedInt (- 2 ^ 63 - 1)) = inl RuntimeError
  /\ generate_reply false env_hf st [] false false false hf_updates None
     = Some ({| events := []; finish := Some RuntimeError |}, false)
  /\ generate_reply_token false env_hf st [] false false hf_updates None
     = Some ({| events := [EPrint RuntimeError]; finish := None |}, false).
Proof. cbv zeta. repeat split. Qed.

(** generate_reply_HF sets state['stream'] to False in the dict it is
    given.  The caller asked for streaming, so the loop yields both
    backend items; the output extension, which marks a reply when the
    state says streaming, finds stream = False when the backend was given
    the dict [state] names, and stream = True only in the token variant
    with a state extension that returned a new dict, where the backend
    was given [state_tmp]. *)
Example output_extension_after_generate_reply_HF :
  yielded (events (_generate_reply (env_hf_marking false) (streaming 0%Q) []
                                   false false false hf_updates None))
  = [One (Str []); One (Str (lit "Hello")); One (Str (lit "Hello"))]
  /\ yielded (events (_generate_reply (env_hf_marking true) (streaming 0%Q) []
                                      false false false hf_updates None))
     = [One (Str []); One (Str (lit "Hello")); One (Str (lit "Hello"))]
  /\ yielded (events (_generate_reply (env_hf_marking false) (streaming 0%Q) []
                                      false false true hf_updates None))
     = [Two (Str []) (Num 0); Two (Str (lit "Hello")) (Num 5);
        Two (Str (lit "Hello")) (Num 5)]
  /\ yielded (events (_generate_reply (env_hf_marking true) (streaming 0%Q) []
                                      false false true hf_updates None))
     = [Two (Str []) (Num 0); Two (Str (lit "Hello")) (Num 5);
        Two (Str (lit "Hello [streaming]")) (Num 5)].
Proof. repeat split. Qed.

(** ** C8 *)

Import SessionGuard.

Lemma holders_app (a b : list (entry * phase)) :
  holders (a ++ b) = (holders a + holders b)%nat.
Proof. unfold holders. rewrite filter_app, length_app. reflexivity. Qed.

Lemma holders_cons (g : entry * phase) (gs : list (entry * phase)) :
  holders (g :: gs) = ((if holding (snd g) then 1 else 0) + holders gs)%nat.
Proof. unfold holders. simpl. destruct (holding (snd g)); reflexivity. Qed.

Lemma holders_created (gs : list (entry * phase)) :
  forallb (fun g => created (snd g)) gs = true -> holders gs = 0%nat.
Proof.
  induction gs as [|[k p] gs IH]; intros H; [reflexivity|].
  simpl in H. apply andb_true_iff in H. destruct H as [Hc Hrest].
  rewrite holders_cons, (IH Hrest). destruct p; simpl in *; congruence.
Qed.

(** One action keeps the lock in step with the number of generators that
    are inside their [try] block. *)
Lemma gen_step_keeps_count (k : entry) (a : action) (l l' : lock)
    (p p' : phase) (others : nat) :
  gen_step k a l p = Some (l', p') ->
  (others + (if holding p then 1 else 0))%nat = (if l then 1 else 0)%nat ->
  (others + (if holding p' then 1 else 0))%nat = (if l' then 1 else 0)%nat.
Proof.
  unfold gen_step, advance, acquire, release.
  destruct a, p as [items fin|items fin|out]; try discriminate;
    destruct l; try discriminate; simpl;
    intros H Hc; try (injection H as <- <-; simpl; lia).
  all: destruct items as [|it rest]; [destruct fin, k|destruct k];
    try destruct (unpack2 it);
    injection H as <- <-; simpl; lia.
Qed.

Lemma reachable_count (s : sys) :
  reachable s -> holders (snd s) = (if fst s then 1 else 0)%nat.
Proof.
  induction 1 as [gs Hc|s s' Hreach IH Hstep].
  - simpl. apply holders_created. exact Hc.
  - destruct Hstep as [l l' k p p' a before after Hg]. simpl in *.
    rewrite holders_app, holders_cons in *. simpl in *.
    pose proof (gen_step_keeps_count k a l l' p p'
                  (holders before + holders after) Hg) as Hk.
    lia.
Qed.

Lemma no_holder_at (gs : list (entry * phase)) :
  holders gs = 0%nat ->
  forall i g, nth_error gs i = Some g -> holding (snd g) = false.
Proof.
  induction gs as [|g0 gs IH]; intros H i g Hi.
  - destruct i; discriminate.
  - rewrite holders_cons in H.
    destruct i as [|i]; simpl in Hi.
    + injection Hi as <-. destruct (holding (snd g0)); [lia | reflexivity].
    + apply (IH ltac:(lia) i g Hi).
Qed.



(** A consumer that keeps calling [next] on a generator inside its
    window finishes it, and the lock is free afterwards. *)
Lemma drain_holding (k : entry) (items : list item) (fin : option exn) :
  drain k (S (length items)) true (Holding items fin)
  = (false, Finished (match k with
                      | via_generate_reply => fin
                      | via_generate_reply_token => None
                      end))
  \/ k = via_generate_reply_token /\
     drain k (S (length items)) true (Holding items fin) = (false, Finished None).
Proof.
  induction items as [|it rest IH].
  - left. simpl. destruct fin, k; reflexivity.
  - destruct k.
    + cbn [length drain gen_step advance]. exact IH.
    + right. split; [reflexivity|].
      cbn [length drain gen_step advance].
      destruct (unpack2 it).
      * reflexivity.
      * destruct IH as [IH|[_ IH]]; exact IH.
Qed.



(** The second request of [first_request_running] cannot start: its
    [acquire] blocks while the first generator holds the lock. *)
Example second_request_blocks :
  gen_step via_generate_reply_token Next (fst first_request_running)
           (Created [Two (Str (lit "b")) (Num 1)] None) = None.
Proof. reflexivity. Qed.

(** ** The entry points, step by step and drained *)

(** Calling [next] until the end on the generator of generate_reply ends
    the way the drained model says, with the lock free again. *)
Lemma generate_reply_step_by_step (e : env) (st : state)
    (stopping_strings : list str) (is_chat escape_html cnt : bool)
    (ticks : list tick) (ending : option exn) (r : gen_result) (l' : lock) :
  generate_reply false e st stopping_strings is_chat escape_html cnt ticks
                 ending
  = Some (r, l') ->
  drain via_generate_reply (S (length (yielded (events r)))) false
        (Created (yielded (events r)) (finish r))
  = (l', Finished (finish r)).
Proof.
  unfold generate_reply. cbn [acquire]. intros H. injection H as <- <-.
  set (r := _generate_reply _ _ _ _ _ _ _ _).
  destruct (yielded (events r)) as [|it rest] eqn:E.
  - simpl. destruct (finish r); reflexivity.
  - destruct (drain_holding via_generate_reply rest (finish r)) as [H|[H _]];
      [|discriminate].
    exact H.
Qed.

Lemma generate_reply_token_step_by_step (e : env) (st : state)
    (stopping_strings : list str) (is_chat escape_html : bool)
    (ticks : list tick) (ending : option exn) (r : gen_result) (l' : lock) :
  generate_reply_token false e st stopping_strings is_chat escape_html ticks
                       ending
  = Some (r, l') ->
  let inner := _generate_reply e st stopping_strings is_chat escape_html true
                               ticks ending in
  finish r = None /\
  drain via_generate_reply_token (S (length (yielded (events inner)))) false
        (Created (yielded (events inner)) (finish inner))
  = (l', Finished (finish r)).
Proof.
  intros H inner. unfold generate_reply_token in H. cbn [acquire] in H.
  fold inner in H.
  destruct (reyield_pairs (events inner)) as [evs failed].
  injection H as <- <-. cbn [finish]. split; [reflexivity|].
  destruct (yielded (events inner)) as [|it rest].
  - simpl. destruct (finish inner); reflexivity.
  - cbn [length drain gen_step acquire advance].
    destruct (unpack2 it).
    + reflexivity.
    + destruct (drain_holding via_generate_reply_token rest (finish inner))
        as [H|[_ H]]; exact H.
Qed.

(** * Further properties of the stop-string matcher *)

(** X1.  apply_stopping_strings reports stopped = true exactly when some
    stop string of the list occurs in the reply. *)
Theorem X1_stopped_iff_a_stop_string_occurs (T : str) (S : list str) :
  snd (apply_stopping_strings T S) = true
  <-> exists s, In s S /\ occurs s T.
Proof.
  unfold apply_stopping_strings.
  destruct (stop_scan_cases T S)
    as [[Hno Hr]|(S1 & s & S2 & pre & post & HS & _ & HT & _ & Hr)];
    rewrite Hr; simpl.
  - split; [discriminate|]. intros (s & Hin & Hocc).
    exfalso. exact (Hno s Hin Hocc).
  - split; [|reflexivity]. intros _. exists s. split.
    + rewrite HS. apply in_or_app. right. left. reflexivity.
    + exists pre, post. exact HT.
Qed.

Lemma find_empty (T : str) : find T [] = 0.
Proof. unfold find. rewrite find_from_eq. reflexivity. Qed.

(** X2.  An empty stop string erases the reply: when the list holds an
    empty string and no stop string listed before it occurs in the reply,
    the result is the empty text with stopped = true, whatever the reply
    and whatever is listed after. *)
Theorem X2_empty_stop_string_erases_reply (T : str) (S1 S2 : list str) :
  (forall x, In x S1 -> ~ occurs x T) ->
  apply_stopping_strings T (S1 ++ [] :: S2) = ([], true).
Proof.
  intros Hno. unfold apply_stopping_strings.
  assert (stop_scan T (S1 ++ [] :: S2) = ([], true)) as ->; [|reflexivity].
  induction S1 as [|x S1 IH]; simpl.
  - rewrite find_empty. simpl.
    change 0 with (Z.of_nat 0). rewrite slice_to_nonneg. reflexivity.
  - assert (find T x = -1) as -> by (apply find_absent, Hno; left; reflexivity).
    simpl. apply IH. intros y Hy. apply Hno. right. exact Hy.
Qed.

Lemma X2_empty_stop_string_erases_reply_witness :
  (forall x, In x [nl ++ lit "You:"] -> ~ occurs x (lit "Hello there")) /\
  apply_stopping_strings (lit "Hello there")
                         ([nl ++ lit "You:"] ++ [] :: [lit "there"])
  = ([], true).
Proof.
  assert (forall x, In x [nl ++ lit "You:"] -> ~ occurs x (lit "Hello there"))
    as H.
  { intros x [<-|[]]. apply find_absent. reflexivity. }
  split; [exact H|].
  apply (X2_empty_stop_string_erases_reply
           (lit "Hello there") [nl ++ lit "You:"] [lit "there"] H).
Defined.

(** X3.  When stopped = false, the returned text is the reply itself or
    the reply without a tail that is a non-empty proper prefix of one of
    the stop strings: the trim removes at least one character and fewer
    characters than that stop string has. *)
Theorem X3_tail_trim_removes_a_proper_prefix (T : str) (S : list str) :
  snd (apply_stopping_strings T S) = false ->
  fst (apply_stopping_strings T S) = T
  \/ exists s j,
       In s S /\ (0 < j < length s)%nat /\
       T = fst (apply_stopping_strings T S) ++ firstn j s /\
       (length (fst (apply_stopping_strings T S)) + j = length T)%nat.
Proof.
  unfold apply_stopping_strings.
  destruct (stop_scan_cases T S)
    as [[_ Hr]|(S1 & s & S2 & pre & post & _ & _ & _ & _ & Hr)];
    rewrite Hr; simpl; [intros _|discriminate].
  destruct (trim_tail_cases T S)
    as [[_ Ht]|(S1 & s & S2 & j & body & HS & _ & [Hj He] & _ & Ht)];
    rewrite Ht; [left; reflexivity|].
  right. exists s, j. repeat split; try lia.
  - rewrite HS. apply in_or_app. right. left. reflexivity.
  - exact He.
  - assert (length T = length (body ++ firstn j s)) as -> by (f_equal; exact He).
    rewrite length_app, length_firstn. lia.
Qed.

Lemma X3_tail_trim_removes_a_proper_prefix_witness :
  let T := lit "Hello" ++ nl ++ lit "Yo" in
  let S := [nl ++ lit "You:"] in
  snd (apply_stopping_strings T S) = false /\
  (fst (apply_stopping_strings T S) = T
   \/ exists s j,
        In s S /\ (0 < j < length s)%nat /\
        T = fst (apply_stopping_strings T S) ++ firstn j s /\
        (length (fst (apply_stopping_strings T S)) + j = length T)%nat).
Proof.
  cbv zeta. split; [reflexivity|].
  apply (X3_tail_trim_removes_a_proper_prefix
           (lit "Hello" ++ nl ++ lit "Yo") [nl ++ lit "You:"]).
  reflexivity.
Defined.

(** * Further properties of the dispatcher and the entry points *)

Lemma custom_class_found (e : env) (cls : str) :
  custom_generate_reply e = false ->
  model e = Some cls ->
  model_name e <> lit "None" ->
  In cls custom_classes ->
  find_generate_func e = Some generate_reply_custom.
Proof.
  intros Hx Hm Hn Hin. unfold find_generate_func. rewrite Hx, Hm.
  destruct (str_eqb (model_name e) (lit "None")) eqn:E.
  - apply str_eqb_eq in E. contradiction.
  - assert (existsb (str_eqb cls) custom_classes = true) as ->; [|reflexivity].
    apply existsb_exists. exists cls. split; [exact Hin | apply str_eqb_eq; reflexivity].
Qed.

(** X4.  With a model of one of the five classes served by
    generate_reply_custom loaded (and no extension supplying a generation
    function), no request generates anything: every request ends in an
    error before any yield.  When set_manual_seed refuses the seed, it is
    that error; otherwise it is the TypeError of the call of the backend,
    which passes is_return_token_cnt, a keyword generate_reply_custom does
    not have.  generate_reply raises the error; generate_reply_token
    prints it and ends.  Both leave the lock free. *)
Theorem X4_custom_model_classes_never_generate (e : env) (st : state)
    (stopping_strings : list str) (is_chat escape_html cnt : bool)
    (ticks : list tick) (ending : option exn) (cls : str) :
  custom_generate_reply e = false ->
  model e = Some cls ->
  model_name e <> lit "None" ->
  In cls custom_classes ->
  let exc :=
    match set_manual_seed (randint e) (seed (prepared e is_chat st)) with
    | inl seed_error => seed_error
    | inr _ => TypeError
    end in
  generate_reply false e st stopping_strings is_chat escape_html cnt ticks
                 ending
  = Some ({| events := []; finish := Some exc |}, false)
  /\ generate_reply_token false e st stopping_strings is_chat escape_html
                          ticks ending
     = Some ({| events := [EPrint exc]; finish := None |}, false).
Proof.
  intros Hx Hm Hn Hin exc.
  pose proof (custom_class_found e cls Hx Hm Hn Hin) as Hf.
  assert (forall c, _generate_reply e st stopping_strings is_chat escape_html
                                    c ticks ending
                    = {| events := []; finish := Some exc |}) as Hr.
  { intros c. subst exc.
    destruct (set_manual_seed (randint e) (seed (prepared e is_chat st)))
      as [seed_error|z] eqn:Hs.
    - exact (dispatcher_seed_error e st stopping_strings is_chat escape_html c
                                   ticks ending _ seed_error Hf Hs).
    - exact (dispatcher_custom e st stopping_strings is_chat escape_html c
                               ticks ending z Hf Hs). }
  unfold generate_reply, generate_reply_token. cbn [acquire].
  rewrite !Hr. split; reflexivity.
Qed.

Lemma X4_custom_model_classes_never_generate_witness :
  (custom_generate_reply env_llamacpp = false /\
   model env_llamacpp = Some (lit "LlamaCppModel") /\
   model_name env_llamacpp <> lit "None" /\
   In (lit "LlamaCppModel") custom_classes) /\
  let exc :=
    match set_manual_seed (randint env_llamacpp)
                          (seed (prepared env_llamacpp false (streaming 0%Q)))
    with
    | inl seed_error => seed_error
    | inr _ => TypeError
    end in
  generate_reply false env_llamacpp (streaming 0%Q) [] false false false
                 steady_updates None
  = Some ({| events := []; finish := Some exc |}, false)
  /\ generate_reply_token false env_llamacpp (streaming 0%Q) [] false false
                          steady_updates None
     = Some ({| events := [EPrint exc]; finish := None |}, false).
Proof.
  assert (model_name env_llamacpp <> lit "None") as Hn by discriminate.
  assert (In (lit "LlamaCppModel") custom_classes) as Hin
    by (left; reflexivity).
  split; [repeat split; assumption|].
  apply (X4_custom_model_classes_never_generate
           env_llamacpp (streaming 0%Q) [] false false false steady_updates
           None (lit "LlamaCppModel") eq_refl eq_refl Hn Hin).
Defined.

(** X5.  With no model loaded and no extension supplying a generation
    function, the state is not looked at (not even the seed).
    generate_reply logs the error, yields one empty string and ends;
    generate_reply_token cannot unpack that empty string into a pair, so
    it yields nothing, prints the ValueError and ends. *)
Theorem X5_no_model_loaded (e : env) (st : state)
    (stopping_strings : list str) (is_chat escape_html cnt : bool)
    (ticks : list tick) (ending : option exn) :
  custom_generate_reply e = false ->
  model e = None \/ model_name e = lit "None" ->
  generate_reply false e st stopping_strings is_chat escape_html cnt ticks
                 ending
  = Some ({| events := [ELogError; EYield None (One (Str []))];
             finish := None |}, false)
  /\ generate_reply_token false e st stopping_strings is_chat escape_html
                          ticks ending
     = Some ({| events := [ELogError; EPrint ValueError]; finish := None |},
             false).
Proof.
  intros Hx Hm.
  assert (find_generate_func e = None) as Hf.
  { unfold find_generate_func. rewrite Hx.
    destruct (model e) as [cls|]; [|reflexivity].
    destruct Hm as [Hm|Hm]; [discriminate|]. rewrite Hm. reflexivity. }
  unfold generate_reply, generate_reply_token, _generate_reply.
  rewrite Hf. split; reflexivity.
Qed.

Lemma X5_no_model_loaded_witness :
  (custom_generate_reply env_none = false /\
   (model env_none = None \/ model_name env_none = lit "None")) /\
  generate_reply false env_none no_seed [] false false false steady_updates
                 None
  = Some ({| events := [ELogError; EYield None (One (Str []))];
             finish := None |}, false)
  /\ generate_reply_token false env_none no_seed [] false false steady_updates
                          None
     = Some ({| events := [ELogError; EPrint ValueError]; finish := None |},
             false).
Proof.
  assert (model env_none = None \/ model_name env_none = lit "None") as Hm
    by (left; reflexivity).
  split; [split; [reflexivity | exact Hm]|].
  apply (X5_no_model_loaded env_none no_seed [] false false false
                            steady_updates None eq_refl Hm).
Defined.

Lemma reyield_pairs_of_pairs (evs : list event) :
  Forall (fun ev => match ev with
                    | EYield _ (Two _ _) => True
                    | EYield _ (One _) => False
                    | _ => True
                    end) evs ->
  reyield_pairs evs = (evs, None).
Proof.
  induction 1 as [|ev evs Hev _ IH]; [reflexivity|].
  destruct ev as [t [v|a b]| | |]; simpl in *; try contradiction;
    rewrite IH; reflexivity.
Qed.

(** X6.  Once the backend is running (a generation function other than
    generate_reply_custom was found and set_manual_seed accepted the
    seed), generate_reply_token yields exactly the pairs that
    generate_reply yields when it is called with is_return_token_cnt=True,
    in the same order; they differ only at the end, when the backend
    raises: generate_reply ends with that error, generate_reply_token
    prints it and ends normally. *)
Theorem X6_token_entry_point_yields_the_same_pairs (e : env) (st : state)
    (stopping_strings : list str) (is_chat escape_html : bool)
    (ticks : list tick) (ending : option exn) (f : backend) (z : Z) :
  find_generate_func e = Some f ->
  f <> generate_reply_custom ->
  set_manual_seed (randint e) (seed (prepared e is_chat st)) = inr z ->
  exists evs,
    generate_reply false e st stopping_strings is_chat escape_html true ticks
                   ending
    = Some ({| events := evs; finish := ending |}, false)
    /\ generate_reply_token false e st stopping_strings is_chat escape_html
                            ticks ending
       = Some ({| events := evs ++ match ending with
                                   | Some exc => [EPrint exc]
                                   | None => []
                                   end;
                  finish := None |}, false).
Proof.
  intros Hf Hc Hs.
  unfold generate_reply, generate_reply_token. cbn [acquire].
  rewrite (dispatcher_run e st stopping_strings is_chat escape_html true ticks
                          ending f z Hf Hc Hs).
  eexists. split; [reflexivity|]. cbn [events finish].
  rewrite reyield_pairs_of_pairs.
  - destruct ending; [reflexivity|]. rewrite app_nil_r. reflexivity.
  - apply Forall_app. split.
    + apply Forall_forall. intros ev Hev. apply in_map_iff in Hev.
      destruct Hev as (tk & <- & _). exact I.
    + unfold closing. destruct ending; repeat constructor.
Qed.

Lemma X6_token_entry_point_yields_the_same_pairs_witness :
  (find_generate_func env_ext = Some extension_generate /\
   extension_generate <> generate_reply_custom /\
   set_manual_seed (randint env_ext)
                   (seed (prepared env_ext false (streaming 0%Q))) = inr 42) /\
  exists evs,
    generate_reply false env_ext (streaming 0%Q) [] false false true
                   steady_updates (Some ValueError)
    = Some ({| events := evs; finish := Some ValueError |}, false)
    /\ generate_reply_token false env_ext (streaming 0%Q) [] false false
                            steady_updates (Some ValueError)
       = Some ({| events := evs ++ [EPrint ValueError]; finish := None |},
               false).
Proof.
  assert (extension_generate <> generate_reply_custom) as Hc by discriminate.
  split; [repeat split; exact Hc|].
  apply (X6_token_entry_point_yields_the_same_pairs
           env_ext (streaming 0%Q) [] false false steady_updates
           (Some ValueError) extension_generate 42 eq_refl Hc eq_refl).
Defined.

Lemma html_escape_no_markup (s : str) (c : ascii) :
  In c (html_escape s) -> markup_char c = false.
Proof.
  unfold html_escape. intros H. apply in_flat_map in H.
  destruct H as (x & _ & H). unfold html_escape_char in H.
  destruct (ascii_eqb x "&") eqn:E1;
    [simpl in H; repeat destruct H as [<-|H]; try reflexivity; contradiction|].
  destruct (ascii_eqb x "<") eqn:E2;
    [simpl in H; repeat destruct H as [<-|H]; try reflexivity; contradiction|].
  destruct (ascii_eqb x ">") eqn:E3;
    [simpl in H; repeat destruct H as [<-|H]; try reflexivity; contradiction|].
  destruct (ascii_eqb x "034") eqn:E4;
    [simpl in H; repeat destruct H as [<-|H]; try reflexivity; contradiction|].
  destruct (ascii_eqb x "'") eqn:E5;
    [simpl in H; repeat destruct H as [<-|H]; try reflexivity; contradiction|].
  destruct H as [<-|[]]. unfold markup_char. rewrite E2, E3, E4, E5. reflexivity.
Qed.

Lemma last_in_or_default {A} (l : list A) :
  forall d, last l d = d \/ In (last l d) l.
Proof.
  induction l as [|x l IH]; intros d; [left; reflexivity|].
  right. rewrite last_cons. destruct (IH x) as [E|Hin].
  - left. symmetry. exact E.
  - right. exact Hin.
Qed.

(** X7.  With escape_html=True, every reply yielded inside the loop is
    free of the characters <, >, double quote and single quote, whatever
    the backend produced, whatever the session and the state; in chat
    mode, where the output extension is not applied, this holds for every
    yield, the last one included. *)
Theorem X7_escaped_replies_carry_no_markup (e : env) (st : state)
    (stopping_strings : list str) (is_chat cnt : bool)
    (ticks : list tick) (ending : option exn) :
  let r := _generate_reply e st stopping_strings is_chat true cnt ticks
                           ending in
  (forall t it txt c,
     In (EYield (Some t) it) (events r) -> item_text it = Some txt ->
     In c txt -> markup_char c = false)
  /\ (is_chat = true ->
      forall it txt c,
        In it (yielded (events r)) -> item_text it = Some txt ->
        In c txt -> markup_char c = false).
Proof.
  intros r. subst r.
  destruct (find_generate_func e) as [f|] eqn:Hf.
  2: { unfold _generate_reply. rewrite Hf. cbn [events yielded flat_map app].
       split.
       - intros t it txt c [H|[H|[]]]; discriminate.
       - intros _ it txt c [<-|[]] Ht Hc.
         simpl in Ht. injection Ht as <-. contradiction. }
  destruct (set_manual_seed (randint e) (seed (prepared e is_chat st)))
    as [exc|z] eqn:Hs.
  { rewrite (dispatcher_seed_error e st stopping_strings is_chat true cnt
                                   ticks ending f exc Hf Hs).
    split; [intros t it txt c [] | intros _ it txt c []]. }
  assert (f = generate_reply_custom \/ f <> generate_reply_custom) as [->|Hc]
    by (destruct f; [right | left | right]; congruence).
  { rewrite (dispatcher_custom e st stopping_strings is_chat true cnt
                               ticks ending z Hf Hs).
    split; [intros t it txt c [] | intros _ it txt c []]. }
  rewrite (dispatcher_run e st stopping_strings is_chat true cnt ticks
                          ending f z Hf Hc Hs).
  cbn [events].
  assert (forall tk txt c,
             item_text (offered true cnt tk) = Some txt ->
             In c txt -> markup_char c = false) as Hoff.
  { intros tk txt c Ht Hin. unfold offered, mk_item, shown in Ht.
    destruct cnt; simpl in Ht; injection Ht as <-;
      exact (html_escape_no_markup _ c Hin). }
  split.
  - intros t it txt c Hin Ht Hc'. apply in_app_or in Hin.
    destruct Hin as [Hin|Hin].
    + apply in_map_iff in Hin. destruct Hin as (tk & Heq & _).
      injection Heq as _ <-. exact (Hoff tk txt c Ht Hc').
    + unfold closing in Hin. destruct ending; [contradiction|].
      destruct Hin as [Heq|[]]. discriminate.
  - intros -> it txt c Hin Ht Hc'. rewrite yielded_app in Hin.
    apply in_app_or in Hin. destruct Hin as [Hin|Hin].
    + rewrite yielded_in_loop in Hin. apply in_map_iff in Hin.
      destruct Hin as (tk & <- & _). exact (Hoff tk txt c Ht Hc').
    + unfold closing in Hin. destruct ending; [contradiction|].
      destruct Hin as [<-|[]].
      unfold final_item, mk_item in Ht. simpl in Ht.
      assert (txt = last (map (shown true) ticks) []) as ->
        by (destruct cnt; simpl in Ht; congruence).
      destruct (last_in_or_default (map (shown true) ticks) []) as [E|E].
      * rewrite E in Hc'. contradiction.
      * apply in_map_iff in E. destruct E as (tk & E & _).
        rewrite <- E in Hc'. exact (html_escape_no_markup _ c Hc').
Qed.

(** A chat reply with markup in it, as it is yielded. *)
Example escaped_chat_reply :
  yielded (events (_generate_reply
                     env_ext (streaming 0%Q) [] true true false
                     [tick_at "<b>Tom & Jerry</b>" 5 100%Q false] None))
  = [One (Str (lit "&lt;b&gt;Tom &amp; Jerry&lt;/b&gt;"));
     One (Str (lit "&lt;b&gt;Tom &amp; Jerry&lt;/b&gt;"))].
Proof. reflexivity. Qed.

Lemma first_update_opens_window (tk : tick) (rest : list tick) :
  (0 <= t_now tk)%Q ->
  forwarded (-1)%Q (tk :: rest) = tk :: forwarded (t_now tk) rest.
Proof.
  intros H. cbn [forwarded].
  assert (Qgtb (t_now tk - -1) window = true) as ->; [|reflexivity].
  unfold Qgtb. apply negb_true_iff.
  destruct (Qle_bool (t_now tk - -1) window) eqn:E; [|reflexivity].
  apply Qle_bool_iff in E. unfold window in E. exfalso. lra.
Qed.

(** X8.  With streaming on and the backend running (a generation
    function other than generate_reply_custom was found and
    set_manual_seed accepted the seed), the first item the backend produces
    is always yielded at once, whatever follows, as long as the clock
    reading is not negative: last_update starts at -1, more than one
    window before any such reading. *)
Theorem X8_first_update_is_always_yielded (e : env) (st : state)
    (stopping_strings : list str) (is_chat escape_html cnt : bool)
    (tk : tick) (rest : list tick) (ending : option exn)
    (f : backend) (z : Z) :
  find_generate_func e = Some f ->
  f <> generate_reply_custom ->
  set_manual_seed (randint e) (seed (prepared e is_chat st)) = inr z ->
  stream (prepared e is_chat st) = true ->
  (0 <= t_now tk)%Q ->
  exists later,
    events (_generate_reply e st stopping_strings is_chat escape_html cnt
                            (tk :: rest) ending)
    = EYield (Some (t_now tk)) (offered escape_html cnt tk) :: later.
Proof.
  intros Hf Hc Hs Hstream Hnow.
  rewrite (dispatcher_run e st stopping_strings is_chat escape_html cnt
                          (tk :: rest) ending f z Hf Hc Hs).
  cbn [events]. rewrite Hstream, (first_update_opens_window tk rest Hnow).
  eexists. reflexivity.
Qed.

Lemma X8_first_update_is_always_yielded_witness :
  (find_generate_func env_ext = Some extension_generate /\
   extension_generate <> generate_reply_custom /\
   set_manual_seed (randint env_ext)
                   (seed (prepared env_ext false (streaming 0%Q))) = inr 42 /\
   stream (prepared env_ext false (streaming 0%Q)) = true /\
   (0 <= t_now (tick_at "a" 1 100%Q false))%Q) /\
  exists later,
    events (_generate_reply env_ext (streaming 0%Q) [] false false false
                            (tick_at "a" 1 100%Q false
                             :: [tick_at "ab" 2 100.01%Q false]) None)
    = EYield (Some (t_now (tick_at "a" 1 100%Q false)))
             (offered false false (tick_at "a" 1 100%Q false)) :: later.
Proof.
  assert (extension_generate <> generate_reply_custom) as Hc by discriminate.
  assert (0 <= t_now (tick_at "a" 1 100%Q false))%Q as Hnow
    by (unfold Qle; simpl; lia).
  split; [repeat split; try exact Hc; exact Hnow|].
  apply (X8_first_update_is_always_yielded
           env_ext (streaming 0%Q) [] false false false
           (tick_at "a" 1 100%Q false) [tick_at "ab" 2 100.01%Q false] None
           extension_generate 42 eq_refl Hc eq_refl eq_refl Hnow).
Defined.

(** * fix_galactica *)

Lemma replace_from_skip (old new : str) (s : str) :
  forall k, replace_from old new k s = replace_from old new 0 (skipn k s).
Proof.
  induction s as [|c s IH]; intros k.
  - destruct k; reflexivity.
  - destruct k as [|k]; [reflexivity|]. simpl. apply IH.
Qed.

(** One step of [replace] at the head of the text. *)
Lemma replace_from_step (a : ascii) (old' new : str) (s : str) :
  replace_from (a :: old') new 0 s
  = match s with
    | [] => []
    | c :: s' =>
        if startswith s (a :: old')
        then new ++ replace_from (a :: old') new 0 (skipn (length (a :: old')) s)
        else c :: replace_from (a :: old') new 0 s'
    end.
Proof.
  destruct s as [|c s']; [reflexivity|].
  cbn [replace_from]. destruct (startswith (c :: s') (a :: old')); [|reflexivity].
  rewrite replace_from_skip. simpl. rewrite Nat.sub_0_r. reflexivity.
Qed.

Lemma skipn_match (old rest : str) : skipn (length old) (old ++ rest) = rest.
Proof. induction old as [|x old IH]; [reflexivity | exact IH]. Qed.

Lemma replace_from_rewrites (D : ascii -> Prop) (a : ascii) (old' new : str) :
  new <> [] -> Forall D new ->
  forall n s, (length s <= n)%nat ->
              rewrites D s (replace_from (a :: old') new 0 s).
Proof.
  intros Hne HD. induction n as [|n IH]; intros s Hlen.
  - destruct s; [constructor | simpl in Hlen; lia].
  - rewrite replace_from_step. destruct s as [|c s']; [constructor|].
    destruct (startswith (c :: s') (a :: old')) eqn:E.
    + apply startswith_spec in E. destruct E as [rest E].
      rewrite E at 1. rewrite E, skipn_match.
      apply rw_subst; try assumption. apply IH.
      assert (length (c :: s') = length ((a :: old') ++ rest)) as L
        by (f_equal; exact E).
      rewrite length_app in L. simpl in *. lia.
    + apply rw_keep. apply IH. simpl in Hlen. lia.
Qed.

Lemma re_sub_char_rewrites (D : ascii -> Prop) (c : ascii) (repl s : str) :
  repl <> [] -> Forall D repl -> rewrites D s (re_sub_char c repl s).
Proof.
  intros Hne HD. induction s as [|x s IH]; [constructor|].
  unfold re_sub_char in *. cbn [flat_map].
  destruct (ascii_eqb x c).
  - apply (rw_subst D [x] repl s); assumption.
  - apply rw_keep. exact IH.
Qed.

Lemma repeat_snoc (c : ascii) (n : nat) (s : str) :
  repeat c n ++ c :: s = repeat c (S n) ++ s.
Proof. induction n as [|n IH]; [reflexivity|]. simpl. f_equal. exact IH. Qed.

Lemma rewrites_keep_all (D : ascii -> Prop) (p s t : str) :
  rewrites D s t -> rewrites D (p ++ s) (p ++ t).
Proof. intros H. induction p as [|x p IH]; [exact H | apply rw_keep, IH]. Qed.

Lemma flush_run_rewrites (D : ascii -> Prop) (c : ascii) (repl : str)
    (run : nat) (s t : str) :
  repl <> [] -> Forall D repl -> rewrites D s t ->
  rewrites D (repeat c run ++ s) (flush_run c repl run ++ t).
Proof.
  intros Hne HD H. unfold flush_run. destruct (3 <=? run)%nat.
  - apply rw_subst; assumption.
  - apply rewrites_keep_all. exact H.
Qed.

Lemma re_sub_run3_rewrites (D : ascii -> Prop) (c : ascii) (repl s : str) :
  repl <> [] -> Forall D repl ->
  forall run, rewrites D (repeat c run ++ s) (re_sub_run3 c repl run s).
Proof.
  intros Hne HD. induction s as [|x s IH]; intros run.
  - cbn [re_sub_run3]. rewrite <- (app_nil_r (flush_run c repl run)).
    apply flush_run_rewrites; try assumption. constructor.
  - cbn [re_sub_run3]. destruct (ascii_eqb x c) eqn:E.
    + apply Ascii.eqb_eq in E. subst x. rewrite repeat_snoc. apply IH.
    + apply flush_run_rewrites; try assumption. apply rw_keep. exact (IH 0%nat).
Qed.

(** A rewriting does not change the first character unless it puts one
    of its own characters there. *)
Lemma rewrites_head (D : ascii -> Prop) (s t : str) :
  rewrites D s t ->
  forall y t', t = y :: t' -> ~ D y -> exists s', s = y :: s'.
Proof.
  intros H. induction H as [|c s t H IH|seg r s t Hne HD H IH]; intros y t' E Hy.
  - discriminate.
  - injection E as -> _. exists s. reflexivity.
  - destruct r as [|d r]; [contradiction|].
    injection E as -> _. inversion HD; subst. contradiction.
Qed.

Lemma has_pair_cons (a b x : ascii) (s : str) :
  has_pair a b s = true -> has_pair a b (x :: s) = true.
Proof.
  intros H. destruct s as [|y s]; [discriminate|].
  cbn [has_pair] in *. rewrite H. apply orb_true_r.
Qed.

Lemma has_pair_app_r (a b : ascii) (p s : str) :
  has_pair a b s = true -> has_pair a b (p ++ s) = true.
Proof.
  intros H. induction p as [|x p IH]; [exact H | apply has_pair_cons, IH].
Qed.

Lemma has_pair_after (D : ascii -> Prop) (a b : ascii) (r t : str) :
  Forall D r -> ~ D a -> has_pair a b (r ++ t) = has_pair a b t.
Proof.
  intros HD Ha. induction HD as [|d r Hd HD IH]; [reflexivity|].
  cbn [app]. destruct (r ++ t) as [|y u] eqn:E.
  - destruct r; [|discriminate]. simpl in E. subst t. reflexivity.
  - cbn [has_pair].
    assert (ascii_eqb d a = false) as ->.
    { destruct (ascii_eqb d a) eqn:Ed; [|reflexivity].
      apply Ascii.eqb_eq in Ed. subst d. contradiction. }
    simpl. exact IH.
Qed.

(** A rewriting with characters other than [a] and [b] puts no [a] next
    to a [b]. *)
Lemma rewrites_pair (D : ascii -> Prop) (a b : ascii) (s t : str) :
  ~ D a -> ~ D b -> rewrites D s t ->
  has_pair a b t = true -> has_pair a b s = true.
Proof.
  intros Ha Hb H. induction H as [|c s t H IH|seg r s t Hne HD H IH]; intros Hp.
  - discriminate.
  - destruct t as [|y t']; [discriminate|].
    cbn [has_pair] in Hp. apply orb_true_iff in Hp. destruct Hp as [Hp|Hp].
    + apply andb_true_iff in Hp. destruct Hp as [Hc Hy].
      apply Ascii.eqb_eq in Hc, Hy. subst c y.
      destruct (rewrites_head D s (b :: t') H b t' eq_refl Hb) as [s' ->].
      cbn [has_pair]. unfold ascii_eqb. rewrite !Ascii.eqb_refl. reflexivity.
    + apply has_pair_cons, IH, Hp.
  - rewrite (has_pair_after D a b r t HD Ha) in Hp.
    apply has_pair_app_r, IH, Hp.
Qed.

(** Replacing every [a b] with a character that is neither leaves no
    [a b] behind. *)
Lemma replace_removes_pair (a b d : ascii) :
  d <> a -> d <> b ->
  forall n s, (length s <= n)%nat ->
              has_pair a b (replace_from [a; b] [d] 0 s) = false.
Proof.
  intros Hda Hdb. induction n as [|n IH]; intros s Hlen.
  - destruct s; [reflexivity | simpl in Hlen; lia].
  - rewrite replace_from_step. destruct s as [|c s']; [reflexivity|].
    destruct (startswith (c :: s') [a; b]) eqn:E.
    + apply startswith_spec in E. destruct E as [rest E].
      rewrite E, skipn_match.
      rewrite (has_pair_after (fun x => x = d) a b [d]
                              (replace_from [a; b] [d] 0 rest)).
      * apply IH.
        assert (length (c :: s') = length ([a; b] ++ rest)) as L
          by (f_equal; exact E).
        simpl in *. lia.
      * repeat constructor.
      * intros Heq. apply Hda. symmetry. exact Heq.
    + pose proof (IH s' ltac:(simpl in Hlen; lia)) as Htl.
      destruct (replace_from [a; b] [d] 0 s') as [|y u] eqn:Eu; [reflexivity|].
      change (has_pair a b (c :: y :: u))
        with ((ascii_eqb c a && ascii_eqb y b) || has_pair a b (y :: u)).
      rewrite Htl, orb_false_r.
      destruct (ascii_eqb c a && ascii_eqb y b) eqn:Ecy; [|reflexivity].
      apply andb_true_iff in Ecy. destruct Ecy as [Hc Hy].
      apply Ascii.eqb_eq in Hc, Hy. subst c y.
      assert (rewrites (fun x => x = d) s' (b :: u)) as Hrw.
      { rewrite <- Eu. apply (replace_from_rewrites _ a [b] [d]) with (n := n).
        - discriminate.
        - repeat constructor.
        - simpl in Hlen. lia. }
      destruct (rewrites_head _ _ _ Hrw b u eq_refl) as [s'' ->].
      { intros Heq. apply Hdb. symmetry. exact Heq. }
      simpl in E. unfold ascii_eqb in E. rewrite !Ascii.eqb_refl in E.
      discriminate.
Qed.

Lemma has_pair_of_occurs (a b : ascii) (s : str) :
  occurs [a; b] s -> has_pair a b s = true.
Proof.
  intros (pre & post & ->). apply has_pair_app_r.
  simpl. unfold ascii_eqb. rewrite !Ascii.eqb_refl. reflexivity.
Qed.

Lemma replace_step_pair (a x y : ascii) (old' s : str) :
  ~ written x -> ~ written y ->
  has_pair x y (replace_from (a :: old') (lit "$") 0 s) = true ->
  has_pair x y s = true.
Proof.
  intros Hx Hy. apply (rewrites_pair written x y); try assumption.
  apply (replace_from_rewrites written a old' (lit "$")) with (n := length s).
  - discriminate.
  - repeat constructor.
  - lia.
Qed.

Lemma newline_steps_pair (x y : ascii) (s : str) :
  ~ written x -> ~ written y ->
  has_pair x y (re_sub_run3 "010" (nl ++ nl) 0
                            (re_sub_char "010" (nl ++ nl) s)) = true ->
  has_pair x y s = true.
Proof.
  intros Hx Hy Hp.
  assert (nl ++ nl <> []) as Hne by discriminate.
  assert (Forall written (nl ++ nl)) as HD by (repeat constructor).
  apply (rewrites_pair written x y _ _ Hx Hy
           (re_sub_char_rewrites written "010" (nl ++ nl) s Hne HD)).
  apply (rewrites_pair written x y _ _ Hx Hy
           (re_sub_run3_rewrites written "010" (nl ++ nl) _ Hne HD 0%nat)).
  exact Hp.
Qed.

Lemma removed (a b : ascii) (s : str) :
  "$"%char <> a -> "$"%char <> b ->
  has_pair a b (replace_from [a; b] (lit "$") 0 s) = false.
Proof.
  intros Ha Hb.
  apply (replace_removes_pair a b "$" Ha Hb (length s) s). lia.
Qed.

(** X9.  The text fix_galactica returns holds none of the LaTeX
    delimiters \[, \], \( and \): every one of them has been turned into a
    dollar sign, and no later step brings one back. *)
Theorem X9_fix_galactica_leaves_no_latex_delimiter (s : str) :
  ~ occurs (lit "\[") (fix_galactica s) /\
  ~ occurs (lit "\]") (fix_galactica s) /\
  ~ occurs (lit "\(") (fix_galactica s) /\
  ~ occurs (lit "\)") (fix_galactica s).
Proof.
  assert (forall c, In c (lit "\[]()") -> ~ written c) as Hw.
  { intros c Hc [H|H]; subst c; simpl in Hc;
      repeat (destruct Hc as [Hc|Hc]; [discriminate|]); contradiction. }
  assert (~ written "\") as Hbs by (apply Hw; simpl; auto 10).
  assert (~ written "[") as H1 by (apply Hw; simpl; auto 10).
  assert (~ written "]") as H2 by (apply Hw; simpl; auto 10).
  assert (~ written "(") as H3 by (apply Hw; simpl; auto 10).
  assert (~ written ")") as H4 by (apply Hw; simpl; auto 10).
  unfold fix_galactica, replace. cbn [lit list_ascii_of_string].
  repeat split; intros Hocc; apply has_pair_of_occurs in Hocc;
    apply newline_steps_pair in Hocc; try assumption;
    apply replace_step_pair in Hocc; try assumption.
  - do 3 (apply replace_step_pair in Hocc; try assumption).
    rewrite removed in Hocc by discriminate. discriminate.
  - do 2 (apply replace_step_pair in Hocc; try assumption).
    rewrite removed in Hocc by discriminate. discriminate.
  - do 1 (apply replace_step_pair in Hocc; try assumption).
    rewrite removed in Hocc by discriminate. discriminate.
  - rewrite removed in Hocc by discriminate. discriminate.
Qed.

Lemma collapse_after_newline (k : nat) (s : str) :
  re_sub_run3 "010" (nl ++ nl) k
              (re_sub_char "010" (nl ++ nl) ("010"%char :: s))
  = re_sub_run3 "010" (nl ++ nl) (S (S k)) (re_sub_char "010" (nl ++ nl) s).
Proof. reflexivity. Qed.

Lemma collapse_after_other (k : nat) (x : ascii) (s : str) :
  ascii_eqb x "010" = false ->
  re_sub_run3 "010" (nl ++ nl) k (re_sub_char "010" (nl ++ nl) (x :: s))
  = flush_run "010" (nl ++ nl) k
    ++ x :: re_sub_run3 "010" (nl ++ nl) 0 (re_sub_char "010" (nl ++ nl) s).
Proof.
  intros E. unfold re_sub_char. cbn [flat_map]. rewrite E.
  cbn [app re_sub_run3]. rewrite E. reflexivity.
Qed.

Lemma flush_two_or_more (k : nat) :
  (2 <= k)%nat -> flush_run "010" (nl ++ nl) k = nl ++ nl.
Proof.
  intros Hk. unfold flush_run.
  destruct k as [|[|[|k]]]; try lia; reflexivity.
Qed.

Lemma doubled_newlines_collapse (s : str) :
  newlines_paired
    (re_sub_run3 "010" (nl ++ nl) 0 (re_sub_char "010" (nl ++ nl) s))
  /\ forall k, (2 <= k)%nat ->
       exists u,
         re_sub_run3 "010" (nl ++ nl) k (re_sub_char "010" (nl ++ nl) s)
         = "010"%char :: "010"%char :: u
         /\ newlines_paired u /\ forall t', u <> "010"%char :: t'.
Proof.
  induction s as [|c s [IH0 IHk]].
  - split; [constructor|]. intros k Hk. exists [].
    split; [|split; [constructor | discriminate]].
    change (re_sub_run3 "010" (nl ++ nl) k (re_sub_char "010" (nl ++ nl) []))
      with (flush_run "010" (nl ++ nl) k).
    rewrite flush_two_or_more by exact Hk. reflexivity.
  - destruct (ascii_eqb c "010") eqn:E.
    + (* a newline: doubled, the run grows by two *)
      apply Ascii.eqb_eq in E. subst c. split.
      * rewrite collapse_after_newline.
        destruct (IHk 2%nat ltac:(lia)) as (u & -> & Hu & Hhd).
        apply np_pair; assumption.
      * intros k Hk. rewrite collapse_after_newline.
        apply (IHk (S (S k))). lia.
    + assert (c <> "010"%char) as Hc.
      { intros ->. unfold ascii_eqb in E. rewrite Ascii.eqb_refl in E.
        discriminate. }
      split.
      * rewrite (collapse_after_other 0 c s E).
        apply np_char; assumption.
      * intros k Hk. rewrite (collapse_after_other k c s E).
        rewrite flush_two_or_more by exact Hk.
        eexists. split; [reflexivity|]. split.
        -- apply np_char; assumption.
        -- intros t' Heq. injection Heq as Heq _. contradiction.
Qed.

Lemma paired_no_single (t : str) :
  newlines_paired t ->
  forall pre post,
    t = pre ++ "010"%char :: post ->
    (exists pre', pre = pre' ++ nl) \/ (exists post', post = "010"%char :: post').
Proof.
  induction 1 as [|c t Hc H IH|t Hhd H IH]; intros pre post E.
  - destruct pre; discriminate.
  - destruct pre as [|x pre]; simpl in E; injection E as Ex E.
    + contradiction.
    + subst x.
      destruct (IH pre post E) as [[pre' ->]|R]; [left|right; exact R].
      exists (c :: pre'). reflexivity.
  - destruct pre as [|x [|y pre]]; simpl in E.
    + injection E as E. right. exists t. symmetry. exact E.
    + injection E as Ex _. subst x. left. exists []. reflexivity.
    + injection E as Ex Ey E. subst x y.
      destruct (IH pre post E) as [[pre' ->]|R]; [left|right; exact R].
      exists ("010"%char :: "010"%char :: pre'). reflexivity.
Qed.

Lemma paired_no_triple (t : str) :
  newlines_paired t -> ~ occurs (nl ++ nl ++ nl) t.
Proof.
  induction 1 as [|c t Hc H IH|t Hhd H IH]; intros (pre & post & E).
  - destruct pre; discriminate.
  - destruct pre as [|x pre]; simpl in E; injection E as Ex E.
    + apply Hc. exact Ex.
    + apply IH. exists pre, post. exact E.
  - destruct pre as [|x [|y pre]]; simpl in E.
    + injection E as E. exact (Hhd _ E).
    + injection E as _ E. exact (Hhd _ E).
    + injection E as _ _ E. apply IH. exists pre, post. exact E.
Qed.

(** X10.  In the text fix_galactica returns, newlines come exactly two at
    a time: there are never three newlines in a row, and every newline
    has another newline right before or right after it. *)
Theorem X10_fix_galactica_pairs_the_newlines (s : str) :
  ~ occurs (nl ++ nl ++ nl) (fix_galactica s)
  /\ forall pre post,
       fix_galactica s = pre ++ nl ++ post ->
       (exists pre', pre = pre' ++ nl) \/ (exists post', post = nl ++ post').
Proof.
  assert (newlines_paired (fix_galactica s)) as H
    by (unfold fix_galactica; apply doubled_newlines_collapse).
  split.
  - apply paired_no_triple. exact H.
  - intros pre post E. exact (paired_no_single _ H pre post E).
Qed.

Lemma replace_from_no_first (a : ascii) (old' new s : str) :
  ~ In a s -> replace_from (a :: old') new 0 s = s.
Proof.
  induction s as [|c s IH]; intros Hn; [reflexivity|].
  cbn [replace_from startswith].
  assert (ascii_eqb a c = false) as ->.
  { destruct (ascii_eqb a c) eqn:E; [|reflexivity].
    apply Ascii.eqb_eq in E. subst c. exfalso. apply Hn. left. reflexivity. }
  simpl. f_equal. apply IH. intros H. apply Hn. right. exact H.
Qed.

Lemma re_sub_char_absent (c : ascii) (repl s : str) :
  ~ In c s -> re_sub_char c repl s = s.
Proof.
  induction s as [|x s IH]; intros Hn; [reflexivity|].
  unfold re_sub_char in *. cbn [flat_map].
  assert (ascii_eqb x c = false) as ->.
  { destruct (ascii_eqb x c) eqn:E; [|reflexivity].
    apply Ascii.eqb_eq in E. subst c. exfalso. apply Hn. left. reflexivity. }
  simpl. f_equal. apply IH. intros H. apply Hn. right. exact H.
Qed.

Lemma re_sub_run3_absent (c : ascii) (repl s : str) :
  ~ In c s -> re_sub_run3 c repl 0 s = s.
Proof.
  induction s as [|x s IH]; intros Hn; [reflexivity|].
  cbn [re_sub_run3].
  assert (ascii_eqb x c = false) as ->.
  { destruct (ascii_eqb x c) eqn:E; [|reflexivity].
    apply Ascii.eqb_eq in E. subst c. exfalso. apply Hn. left. reflexivity. }
  simpl. f_equal. apply IH. intros H. apply Hn. right. exact H.
Qed.

(** X11.  fix_galactica returns unchanged every text that holds no
    backslash, no dollar sign and no newline. *)
Theorem X11_fix_galactica_keeps_plain_text (s : str) :
  ~ In "\"%char s -> ~ In "$"%char s -> ~ In "010"%char s ->
  fix_galactica s = s.
Proof.
  intros Hb Hd Hn. unfold fix_galactica, replace.
  cbn [lit list_ascii_of_string].
  do 4 rewrite (replace_from_no_first "\" _ _ s Hb).
  rewrite (replace_from_no_first "$" _ _ s Hd).
  rewrite re_sub_char_absent by assumption.
  apply re_sub_run3_absent. assumption.
Qed.

Lemma X11_fix_galactica_keeps_plain_text_witness :
  (~ In "\"%char (lit "E = mc^2") /\ ~ In "$"%char (lit "E = mc^2") /\
   ~ In "010"%char (lit "E = mc^2")) /\
  fix_galactica (lit "E = mc^2") = lit "E = mc^2".
Proof.
  assert (forall c, (c = "\" \/ c = "$" \/ c = "010")%char ->
                    ~ In c (lit "E = mc^2")) as H.
  { intros c Hc Hin. simpl in Hin.
    repeat (destruct Hin as [Hin|Hin];
            [subst c; destruct Hc as [Hc|[Hc|Hc]]; discriminate|]).
    contradiction. }
  assert (~ In "\"%char (lit "E = mc^2")) as Hb by (apply H; auto).
  assert (~ In "$"%char (lit "E = mc^2")) as Hd by (apply H; auto).
  assert (~ In "010"%char (lit "E = mc^2")) as Hn by (apply H; auto).
  split; [repeat split; assumption|].
  apply (X11_fix_galactica_keeps_plain_text (lit "E = mc^2") Hb Hd Hn).
Defined.

(** * encode and get_reply_from_output_ids *)

Lemma skipn_min {A} (l : list A) (k : nat) :
  skipn (Nat.min (length l) k) l = skipn k l.
Proof.
  destruct (Nat.le_ge_cases k (length l)) as [H|H].
  - rewrite Nat.min_r by exact H. reflexivity.
  - rewrite Nat.min_l by exact H. rewrite !skipn_all2 by lia. reflexivity.
Qed.

(** [l[-t:]]: the last [t] elements for a positive [t]; for [t = 0] the
    bound is [-0 = 0] and the whole list comes back; a negative [t] makes
    a positive start. *)
Lemma slice_from_minus {A} (l : list A) (t : Z) :
  Tokens.slice_from l (- t)
  = if 0 <? t then skipn (length l - Z.to_nat t) l
    else skipn (Z.to_nat (- t)) l.
Proof.
  unfold Tokens.slice_from, Tokens.bound.
  destruct (0 <? t) eqn:E.
  - apply Z.ltb_lt in E.
    destruct (- t <? 0) eqn:E'; [|apply Z.ltb_ge in E'; lia].
    f_equal. lia.
  - apply Z.ltb_ge in E.
    destruct (- t <? 0) eqn:E'; [apply Z.ltb_lt in E'; lia|].
    rewrite <- (skipn_min l (Z.to_nat (- t))). f_equal. lia.
Qed.

(** X12.  encode with a truncation_length t returns the ids it returns
    without one, cut by the slice [-t:]: for t > 0 the last t ids (all of
    them when there are fewer), so never more than t; for t = 0 all the
    ids, nothing is truncated; for t < 0 the ids without the first -t. *)
Theorem X12_encode_truncation (sh : Tokens.shared) (prompt : str)
    (add_special_tokens add_bos_token : bool) (t : Z) (full : list Z) :
  Tokens.encode sh prompt add_special_tokens add_bos_token None = inr full ->
  exists ids,
    Tokens.encode sh prompt add_special_tokens add_bos_token (Some t) = inr ids
    /\ (0 < t ->
        ids = skipn (length full - Z.to_nat t) full
        /\ Z.of_nat (length ids) <= t)
    /\ (t = 0 -> ids = full)
    /\ (t < 0 -> ids = skipn (Z.to_nat (- t)) full).
Proof.
  unfold Tokens.encode. destruct (Tokens.sh_tokenizer sh) as [tk|]; [|discriminate].
  match goal with |- match ?X with _ => _ end = _ -> _ =>
    destruct X as [err|input_ids] end; [discriminate|].
  intros H. injection H as ->.
  exists (Tokens.slice_from full (- t)). split; [reflexivity|].
  rewrite slice_from_minus. repeat split.
  - apply Z.ltb_lt in H. rewrite H. reflexivity.
  - assert ((0 <? t) = true) as -> by (apply Z.ltb_lt; exact H).
    rewrite length_skipn. lia.
  - intros ->. reflexivity.
  - intros H. assert ((0 <? t) = false) as -> by (apply Z.ltb_ge; lia).
    reflexivity.
Qed.

Lemma X12_encode_truncation_witness :
  Tokens.encode Tokens.hf_session (lit "Hello") true true None
  = inr [1; 72; 101; 108; 108; 111] /\
  exists ids,
    Tokens.encode Tokens.hf_session (lit "Hello") true true (Some 2) = inr ids
    /\ (0 < 2 ->
        ids = skipn (length [1; 72; 101; 108; 108; 111] - Z.to_nat 2)
                    [1; 72; 101; 108; 108; 111]
        /\ Z.of_nat (length ids) <= 2)
    /\ (2 = 0 -> ids = [1; 72; 101; 108; 108; 111])
    /\ (2 < 0 -> ids = skipn (Z.to_nat (- 2)) [1; 72; 101; 108; 108; 111]).
Proof.
  split; [reflexivity|].
  apply (X12_encode_truncation Tokens.hf_session (lit "Hello") true true 2
                               [1; 72; 101; 108; 108; 111]).
  reflexivity.
Defined.

(** X13.  For a model that is not of one of the four classes encoded with
    the plain tokenizer call, encode with add_bos_token=False looks at the
    first id before anything else: when the tokenizer returns no ids at
    all, encode raises IndexError, with or without a truncation_length. *)
Theorem X13_encode_of_nothing_without_bos (sh : Tokens.shared)
    (tk : Tokens.tokenizer) (prompt : str) (add_special_tokens : bool)
    (truncation_length : option Z) :
  Tokens.sh_tokenizer sh = Some tk ->
  ~ In (Tokens.class_name sh) Tokens.plain_encode_classes ->
  Tokens.tok_encode tk prompt add_special_tokens = [] ->
  Tokens.encode sh prompt add_special_tokens false truncation_length
  = inl Tokens.IndexError.
Proof.
  intros Htk Hcls Hempty. unfold Tokens.encode. rewrite Htk.
  assert (existsb (str_eqb (Tokens.class_name sh)) Tokens.plain_encode_classes
          = false) as ->.
  { destruct (existsb _ _) eqn:E; [|reflexivity].
    apply existsb_exists in E. destruct E as (cls & Hin & Heq).
    apply str_eqb_eq in Heq. subst cls. contradiction. }
  rewrite Hempty. reflexivity.
Qed.

Lemma X13_encode_of_nothing_without_bos_witness :
  (Tokens.sh_tokenizer Tokens.hf_session = Some Tokens.byte_tokenizer /\
   ~ In (Tokens.class_name Tokens.hf_session) Tokens.plain_encode_classes /\
   Tokens.tok_encode Tokens.byte_tokenizer [] false = []) /\
  Tokens.encode Tokens.hf_session [] false false (Some 2048)
  = inl Tokens.IndexError.
Proof.
  assert (~ In (Tokens.class_name Tokens.hf_session)
               Tokens.plain_encode_classes) as Hcls.
  { simpl. intros [H|[H|[H|[H|[]]]]]; discriminate. }
  split; [repeat split; exact Hcls|].
  apply (X13_encode_of_nothing_without_bos
           Tokens.hf_session Tokens.byte_tokenizer [] false (Some 2048)
           eq_refl Hcls eq_refl).
Defined.

Lemma index_minus_new {A} (old new : list A) (x : A) (more : list A) :
  new = x :: more ->
  Tokens.index (old ++ new) (- Z.of_nat (length new)) = Some x.
Proof.
  intros ->. unfold Tokens.index. rewrite length_app. cbn [length].
  destruct (- Z.of_nat (S (length more)) <? 0) eqn:E;
    [|apply Z.ltb_ge in E; lia].
  destruct (_ + _ <? 0) eqn:E'; [apply Z.ltb_lt in E'; lia|].
  replace (Z.to_nat _) with (length old + 0)%nat by lia.
  rewrite nth_error_app2 by lia.
  replace (length old + 0 - length old)%nat with 0%nat by lia. reflexivity.
Qed.

(** X14.  For a causal model, when the output ids are longer than the
    input row, get_reply_from_output_ids decodes exactly the ids past the
    input length, with skip_special_tokens=True, and counts them; with a
    Llama tokenizer a space is put in front when the first new token
    starts a word.  Only the lengths matter: the output is not compared
    with the input. *)
Theorem X14_reply_is_decoded_from_the_new_ids (sh : Tokens.shared)
    (tk : Tokens.tokenizer) (input_row old new more : list Z) (id : Z)
    (cnt : bool) :
  Tokens.sh_tokenizer sh = Some tk ->
  Tokens.sh_is_seq2seq sh = false ->
  length old = length input_row ->
  new = id :: more ->
  Tokens.get_reply_from_output_ids sh (old ++ new) input_row cnt
  = inr (mk_item cnt
                 ((if Tokens.llama_tokenizer tk && Tokens.starts_word tk id
                   then [" "%char] else [])
                  ++ Tokens.tok_decode tk new true)
                 (Z.of_nat (length new))).
Proof.
  intros Htk Hseq Hlen Hnew.
  unfold Tokens.get_reply_from_output_ids, Tokens.decode.
  rewrite Hseq, Htk, length_app, <- Hlen.
  replace (Z.of_nat (length old + length new) - Z.of_nat (length old))
    with (Z.of_nat (length new)) by lia.
  rewrite slice_from_minus, (index_minus_new old new id more Hnew).
  assert ((0 <? Z.of_nat (length new)) = true) as ->
    by (apply Z.ltb_lt; subst new; simpl; lia).
  assert ((0 <? Z.of_nat (length old + length new)) = true) as ->
    by (apply Z.ltb_lt; subst new; simpl; lia).
  rewrite length_app, Nat2Z.id.
  replace (length old + length new - length new)%nat
    with (length old) by lia.
  rewrite skipn_app, skipn_all, Nat.sub_diag. cbn [skipn app].
  rewrite andb_true_r.
  destruct (Tokens.llama_tokenizer tk); [|reflexivity].
  destruct (Tokens.starts_word tk id); reflexivity.
Qed.

Lemma X14_reply_is_decoded_from_the_new_ids_witness :
  (Tokens.sh_tokenizer Tokens.hf_session = Some Tokens.byte_tokenizer /\
   Tokens.sh_is_seq2seq Tokens.hf_session = false /\
   length [1; 72; 105] = length [1; 72; 105] /\
   [33; 33] = 33 :: [33]) /\
  Tokens.get_reply_from_output_ids Tokens.hf_session ([1; 72; 105] ++ [33; 33])
                                   [1; 72; 105] true
  = inr (mk_item true
                 ((if Tokens.llama_tokenizer Tokens.byte_tokenizer
                      && Tokens.starts_word Tokens.byte_tokenizer 33
                   then [" "%char] else [])
                  ++ Tokens.tok_decode Tokens.byte_tokenizer [33; 33] true)
                 (Z.of_nat (length [33; 33]))).
Proof.
  split; [repeat split|].
  apply (X14_reply_is_decoded_from_the_new_ids
           Tokens.hf_session Tokens.byte_tokenizer [1; 72; 105] [1; 72; 105]
           [33; 33] [33] 33 true eq_refl eq_refl eq_refl eq_refl).
Defined.

(** X15.  For a causal model, when the output has as many ids as the
    input row and at least one, new_tokens is 0 and the slice [-0:] is the
    whole list: get_reply_from_output_ids decodes all the output ids, so
    the reply is the decoded prompt and not the empty string, while the
    count it returns is 0. *)
Theorem X15_no_new_ids_decodes_everything (sh : Tokens.shared)
    (tk : Tokens.tokenizer) (input_row output_ids more : list Z) (id : Z)
    (cnt : bool) :
  Tokens.sh_tokenizer sh = Some tk ->
  Tokens.sh_is_seq2seq sh = false ->
  length output_ids = length input_row ->
  output_ids = id :: more ->
  Tokens.get_reply_from_output_ids sh output_ids input_row cnt
  = inr (mk_item cnt
                 ((if Tokens.llama_tokenizer tk && Tokens.starts_word tk id
                   then [" "%char] else [])
                  ++ Tokens.tok_decode tk output_ids true)
                 0).
Proof.
  intros Htk Hseq Hlen Hout.
  unfold Tokens.get_reply_from_output_ids, Tokens.decode.
  rewrite Hseq, Htk, <- Hlen, Z.sub_diag.
  change (- 0) with 0.
  assert (Tokens.slice_from output_ids 0 = output_ids) as ->.
  { unfold Tokens.slice_from, Tokens.bound. simpl.
    replace (Z.to_nat _) with 0%nat by lia. reflexivity. }
  assert (Tokens.index output_ids 0 = Some id) as ->
    by (subst output_ids; reflexivity).
  assert ((0 <? Z.of_nat (length output_ids)) = true) as ->
    by (apply Z.ltb_lt; subst output_ids; simpl; lia).
  rewrite andb_true_r.
  destruct (Tokens.llama_tokenizer tk); [|reflexivity].
  destruct (Tokens.starts_word tk id); reflexivity.
Qed.

Lemma X15_no_new_ids_decodes_everything_witness :
  (Tokens.sh_tokenizer Tokens.hf_session = Some Tokens.byte_tokenizer /\
   Tokens.sh_is_seq2seq Tokens.hf_session = false /\
   length [1; 72; 105] = length [1; 72; 105] /\
   [1; 72; 105] = 1 :: [72; 105]) /\
  Tokens.get_reply_from_output_ids Tokens.hf_session [1; 72; 105]
                                   [1; 72; 105] false
  = inr (mk_item false
                 ((if Tokens.llama_tokenizer Tokens.byte_tokenizer
                      && Tokens.starts_word Tokens.byte_tokenizer 1
                   then [" "%char] else [])
                  ++ Tokens.tok_decode Tokens.byte_tokenizer [1; 72; 105] true)
                 0).
Proof.
  split; [repeat split|].
  apply (X15_no_new_ids_decodes_everything
           Tokens.hf_session Tokens.byte_tokenizer [1; 72; 105] [1; 72; 105]
           [72; 105] 1 false eq_refl eq_refl eq_refl eq_refl).
Defined.

(** * generate_reply_HF and generate_reply_custom *)

Lemma closing_line_yields (n o : Z) (t0 t1 : Q) :
  Backends.yields (fst (Backends.closing_line n o t0 t1)) = []
  /\ snd (Backends.closing_line n o t0 t1)
     = if Qeq_bool (t1 - t0) 0 then Some Backends.ZeroDivisionError else None.
Proof.
  unfold Backends.closing_line. destruct (Qeq_bool (t1 - t0) 0); split; reflexivity.
Qed.

Lemma backend_yields_app (a b : list Backends.bevent) :
  Backends.yields (a ++ b) = Backends.yields a ++ Backends.yields b.
Proof. unfold Backends.yields. apply flat_map_app. Qed.

(** X16.  generate_reply_HF never streams: whatever state['stream'] says
    and however many partial outputs the streaming generator would give,
    it yields at most the empty placeholder (outside chat mode, for a
    causal model) and one reply decoded from the complete output. *)
Theorem X16_generate_reply_HF_never_streams (w : Backends.hf_world)
    (question : str) (st : state) (is_chat cnt : bool) :
  (length (Backends.yields
             (Backends.b_events
                (Backends.generate_reply_HF w question st is_chat cnt)))
   <= if negb is_chat && negb (Tokens.sh_is_seq2seq (Backends.hf_shared w))
      then 2 else 1)%nat.
Proof.
  unfold Backends.generate_reply_HF.
  destruct (Tokens.encode _ _ _ _ _) as [err|row].
  - simpl. destruct (_ && _); lia.
  - cbn [stream set_stream negb].
    pose proof (closing_line_yields
                  (Z.of_nat (length
                     match Backends.hf_generate w with
                     | inl _ => row | inr output => output end)
                   - (if negb (Tokens.sh_is_seq2seq (Backends.hf_shared w))
                      then Z.of_nat (length (Backends.hf_ext_tokenizer w row))
                      else 0))
                  (Z.of_nat (length (Backends.hf_ext_tokenizer w row)))
                  (Backends.hf_t0 w) (Backends.hf_t1 w)) as [Hy _].
    destruct (Backends.hf_generate w) as [exc|output];
      [|destruct (Backends.hf_cuda w) as [exc|];
        [|destruct (Tokens.get_reply_from_output_ids _ _ _ _) as [err|it]]];
      destruct (Backends.closing_line _ _ _ _) as [line e];
      cbn [Backends.b_events]; simpl in Hy;
      rewrite !backend_yields_app, Hy;
      destruct (negb is_chat && negb _); simpl; lia.
Qed.

(** X17.  No exception raised while generate_reply_HF generates or decodes
    reaches the caller: the only errors that leave it are the one of
    encode before anything is yielded (no tokenizer loaded) and the
    ZeroDivisionError of the closing line, raised exactly when the two
    clock readings are equal, also after a successful generation. *)
Theorem X17_generate_reply_HF_errors (w : Backends.hf_world)
    (question : str) (st : state) (is_chat cnt : bool) :
  Backends.b_finish (Backends.generate_reply_HF w question st is_chat cnt)
  = match Tokens.encode (Backends.hf_shared w) question true true None with
    | inl err => Some (Backends.Tok err)
    | inr _ =>
        if Qeq_bool (Backends.hf_t1 w - Backends.hf_t0 w) 0
        then Some Backends.ZeroDivisionError else None
    end.
Proof.
  unfold Backends.generate_reply_HF.
  destruct (Tokens.encode _ _ _ _ _) as [err|row]; [reflexivity|].
  cbn [stream set_stream negb].
  destruct (Backends.hf_generate w) as [exc|output];
    [|destruct (Backends.hf_cuda w) as [exc|];
      [|destruct (Tokens.get_reply_from_output_ids _ _ _ _) as [err|it]]];
    unfold Backends.closing_line;
    destruct (Qeq_bool _ 0); reflexivity.
Qed.

Lemma encode_with_bos_total (sh : Tokens.shared) (tk : Tokens.tokenizer)
    (prompt : str) :
  Tokens.sh_tokenizer sh = Some tk ->
  exists row, Tokens.encode sh prompt true true None = inr row.
Proof.
  intros Htk. unfold Tokens.encode. rewrite Htk.
  destruct (existsb _ _); eexists; reflexivity.
Qed.

(** X18.  generate_reply_custom seeds first: when set_manual_seed refuses
    the seed (int() or torch raises), that error leaves the generator
    before anything is yielded.  Otherwise no exception of the model
    reaches the caller, but the closing code can fail after the replies
    were yielded: with no tokenizer loaded it raises the ValueError of
    encode, and with a tokenizer it raises ZeroDivisionError exactly when
    the two clock readings are equal. *)
Theorem X18_generate_reply_custom_errors (w : Backends.custom_world)
    (original_question : str) (st : state) (is_chat : bool) :
  match set_manual_seed (Backends.cw_randint w) (seed st) with
  | inl exc =>
      Backends.generate_reply_custom w original_question st is_chat
      = {| Backends.b_events := [];
           Backends.b_finish := Some (Backends.Builtin exc) |}
  | inr _ =>
      Backends.b_finish
        (Backends.generate_reply_custom w original_question st is_chat)
      = match Tokens.sh_tokenizer (Backends.cw_shared w) with
        | None => Some (Backends.Tok Tokens.NoTokenizer)
        | Some _ =>
            if Qeq_bool (Backends.cw_t1 w - Backends.cw_t0 w) 0
            then Some Backends.ZeroDivisionError else None
        end
  end.
Proof.
  unfold Backends.generate_reply_custom.
  destruct (set_manual_seed (Backends.cw_randint w) (seed st)) as [exc|z];
    [reflexivity|].
  destruct (Tokens.sh_tokenizer (Backends.cw_shared w)) as [tk|] eqn:Htk.
  - destruct (encode_with_bos_total _ tk original_question Htk) as [row ->].
    destruct (if negb (stream st) then _ else _) as [[evs reply] raised].
    destruct (encode_with_bos_total _ tk (original_question ++ reply) Htk)
      as [row' ->].
    unfold Backends.closing_line. destruct (Qeq_bool _ 0); reflexivity.
  - assert (forall p, Tokens.encode (Backends.cw_shared w) p true true None
                      = inl Tokens.NoTokenizer) as Hno
      by (intros p; unfold Tokens.encode; rewrite Htk; reflexivity).
    destruct (if negb (stream st) then _ else _) as [[evs reply] raised].
    rewrite Hno. reflexivity.
Qed.

(** Sample runs of the two backends. *)
Example hf_run_with_failing_model :
  Backends.generate_reply_HF (Backends.hf_sample (inl ValueError) 101%Q)
                             (lit "Hi") (streaming 0%Q) false false
  = {| Backends.b_events :=
         [Backends.BYield (One (Str []));
          Backends.BTraceback (Backends.Builtin ValueError);
          Backends.BStats 0 3 (101 - 100)%Q];
       Backends.b_finish := None |}.
Proof. reflexivity. Qed.

Example hf_run_with_equal_clock_readings :
  Backends.generate_reply_HF
    (Backends.hf_sample (inr [1; 72; 105; 33]) 100%Q)
    (lit "Hi") (streaming 0%Q) false false
  = {| Backends.b_events :=
         [Backends.BYield (One (Str [])); Backends.BYield (One (Str (lit "!")))];
       Backends.b_finish := Some Backends.ZeroDivisionError |}.
Proof. reflexivity. Qed.

Example custom_run_with_a_seed_torch_refuses :
  Backends.generate_reply_custom
    (Backends.custom_sample (inr (lit "Hi")) 101%Q) (lit "Q:")
    {| stream := true; seed := SeedInt (2 ^ 64); max_tokens_second := 0%Q |}
    false
  = {| Backends.b_events := [];
       Backends.b_finish := Some (Backends.Builtin RuntimeError) |}.
Proof. reflexivity. Qed.

Example custom_run_streaming_then_failing :
  Backends.generate_reply_custom
    (Backends.custom_sample (inr (lit "Hi")) 101%Q) (lit "Q:")
    (streaming 0%Q) false
  = {| Backends.b_events :=
         [Backends.BYield (One (Str [])); Backends.BYield (One (Str (lit "H")));
          Backends.BYield (One (Str (lit "Hi")));
          Backends.BTraceback (Backends.Builtin ValueError);
          Backends.BStats 2 3 (101 - 100)%Q];
       Backends.b_finish := None |}.
Proof. reflexivity. Qed.

(** * fix_gpt4chan, formatted_outputs and generate_reply_wrapper *)

Lemma run_length_le (cls : ascii -> bool) (s : str) :
  (Formatting.run_length cls s <= length s)%nat.
Proof.
  induction s as [|c s IH]; simpl; [lia|]. destruct (cls c); lia.
Qed.

Lemma give_back_some (after : nat -> option nat) (k n : nat) :
  Formatting.give_back after k = Some n ->
  exists j m, (j <= k)%nat /\ after j = Some m /\ n = (j + m)%nat.
Proof.
  induction k as [|k IH]; simpl; destruct (after _) as [m|] eqn:E; intros H.
  - injection H as <-. exists 0%nat, m. repeat split; [lia | exact E].
  - discriminate.
  - injection H as <-. exists (S k), m. repeat split; [lia | exact E].
  - destruct (IH H) as (j & m & Hj & Hm & ->).
    exists j, m. repeat split; [lia | exact Hm].
Qed.

(** A match lies inside the text. *)
Lemma match_here_le (atoms : list Formatting.atom) :
  forall s n, Formatting.match_here atoms s = Some n -> (n <= length s)%nat.
Proof.
  induction atoms as [|[l|cls] rest IH]; intros s n H; simpl in H.
  - injection H as <-. lia.
  - destruct (startswith s l) eqn:E; [|discriminate].
    apply startswith_spec in E. destruct E as [post ->].
    rewrite skipn_match in H.
    destruct (Formatting.match_here rest post) as [m|] eqn:Em; [|discriminate].
    injection H as <-. apply IH in Em. rewrite length_app. lia.
  - apply give_back_some in H. destruct H as (j & m & Hj & Hm & ->).
    apply IH in Hm. rewrite length_skipn in Hm.
    pose proof (run_length_le cls s). lia.
Qed.

(** A pattern that opens with a literal matches only where the literal
    is, and the match is at least as long. *)
Lemma match_here_opening (l : str) (rest : list Formatting.atom) (s : str)
    (n : nat) :
  Formatting.match_here (Formatting.Lit l :: rest) s = Some n ->
  startswith s l = true /\ (length l <= n)%nat.
Proof.
  simpl. destruct (startswith s l); [|discriminate].
  destruct (Formatting.match_here rest _) as [m|]; [|discriminate].
  intros H. injection H as <-. split; [reflexivity | lia].
Qed.

Lemma re_sub_from_length (atoms : list Formatting.atom) (repl : str) :
  (forall s n, Formatting.match_here atoms s = Some n ->
               (length repl <= n)%nat) ->
  forall s k, (k <= length s)%nat ->
    (length (Formatting.re_sub_from atoms repl k s) + k <= length s)%nat.
Proof.
  intros Hmin. induction s as [|c s IH]; intros k Hk.
  - simpl in *. lia.
  - cbn [Formatting.re_sub_from]. destruct k as [|k].
    + destruct (Formatting.match_here atoms (c :: s)) as [[|n]|] eqn:E.
      * cbn [length]. specialize (IH 0%nat ltac:(lia)). lia.
      * pose proof (Hmin _ _ E). apply match_here_le in E. simpl in E.
        rewrite length_app. specialize (IH n ltac:(lia)). simpl. lia.
      * cbn [length]. specialize (IH 0%nat ltac:(lia)). lia.
    + simpl in Hk. specialize (IH k ltac:(lia)). simpl. lia.
Qed.

Lemma re_sub_shrinks (l : str) (rest : list Formatting.atom) (repl s : str) :
  (length repl <= length l)%nat ->
  (length (Formatting.re_sub (Formatting.Lit l :: rest) repl s) <= length s)%nat.
Proof.
  intros Hl. unfold Formatting.re_sub.
  pose proof (re_sub_from_length (Formatting.Lit l :: rest) repl) as H.
  specialize (H (fun s0 n Hm =>
                   Nat.le_trans _ _ _ Hl (proj2 (match_here_opening l rest s0 n Hm)))).
  specialize (H s 0%nat ltac:(lia)). lia.
Qed.

Lemma fix_gpt4chan_pass_shrinks (s : str) :
  (length (Formatting.fix_gpt4chan_pass s) <= length s)%nat.
Proof.
  unfold Formatting.fix_gpt4chan_pass,
    Formatting.empty_quote, Formatting.empty_line, Formatting.empty_lines.
  eapply Nat.le_trans; [apply re_sub_shrinks; simpl; lia|].
  eapply Nat.le_trans; [apply re_sub_shrinks; simpl; lia|].
  apply re_sub_shrinks. simpl. lia.
Qed.

(** X19.  fix_gpt4chan never makes a text longer: every match of its three
    patterns is at least four characters long and is replaced by three
    dashes. *)
Theorem X19_fix_gpt4chan_never_lengthens (s : str) :
  (length (Formatting.fix_gpt4chan s) <= length s)%nat.
Proof.
  unfold Formatting.fix_gpt4chan. generalize 10%nat. intros n.
  induction n as [|n IH]; [simpl; lia|].
  cbn [Nat.iter nat_rect].
  eapply Nat.le_trans; [apply fix_gpt4chan_pass_shrinks | exact IH].
Qed.

Lemma occurs_tail (l s : str) (c : ascii) : occurs l s -> occurs l (c :: s).
Proof. intros (pre & post & ->). exists (c :: pre), post. reflexivity. Qed.

Lemma re_sub_absent (l : str) (rest : list Formatting.atom) (repl s : str) :
  ~ occurs l s -> Formatting.re_sub (Formatting.Lit l :: rest) repl s = s.
Proof.
  unfold Formatting.re_sub. induction s as [|c s IH]; intros Hno; [reflexivity|].
  cbn [Formatting.re_sub_from].
  destruct (Formatting.match_here _ (c :: s)) as [[|n]|] eqn:E.
  - f_equal. apply IH. intros H. apply Hno, occurs_tail, H.
  - apply match_here_opening in E. destruct E as [E _].
    apply startswith_spec in E. destruct E as [post E].
    exfalso. apply Hno. exists [], post. exact E.
  - f_equal. apply IH. intros H. apply Hno, occurs_tail, H.
Qed.

(** X20.  fix_gpt4chan leaves unchanged every text in which three dashes
    followed by a space do not occur. *)
Theorem X20_fix_gpt4chan_keeps_text_without_headers (s : str) :
  ~ occurs (lit "--- ") s -> Formatting.fix_gpt4chan s = s.
Proof.
  intros Hno.
  assert (Formatting.fix_gpt4chan_pass s = s) as Hpass.
  { unfold Formatting.fix_gpt4chan_pass,
      Formatting.empty_quote, Formatting.empty_line, Formatting.empty_lines.
    do 3 rewrite (re_sub_absent (lit "--- ") _ _ s Hno). reflexivity. }
  unfold Formatting.fix_gpt4chan. generalize 10%nat. intros n.
  induction n as [|n IH]; [reflexivity|].
  cbn [Nat.iter nat_rect]. fold (Nat.iter n Formatting.fix_gpt4chan_pass s).
  rewrite IH. exact Hpass.
Qed.

Lemma X20_fix_gpt4chan_keeps_text_without_headers_witness :
  ~ occurs (lit "--- ") (lit "well -- ok ---") /\
  Formatting.fix_gpt4chan (lit "well -- ok ---") = lit "well -- ok ---".
Proof.
  assert (~ occurs (lit "--- ") (lit "well -- ok ---")) as H
    by (apply find_absent; reflexivity).
  split; [exact H|].
  apply (X20_fix_gpt4chan_keeps_text_without_headers (lit "well -- ok ---") H).
Defined.

Example fix_gpt4chan_removes_empty_replies :
  Formatting.fix_gpt4chan
    (lit "--- 1" ++ nl ++ nl ++ lit "--- 2" ++ nl ++ lit "  " ++ nl
     ++ lit "--- 3" ++ nl ++ lit ">>2" ++ nl ++ lit "--- 4" ++ nl ++ lit "x")
  = lit "--- 4" ++ nl ++ lit "x".
Proof. reflexivity. Qed.

(** X21.  generate_reply_wrapper yields its first output, the formatted
    question (the formatted empty text for a seq2seq model), before it
    asks for the generation lock: whatever the lock, the environment and
    the backend, that output comes first, and the wrapper is left waiting
    for the lock after it exactly when the lock is held. *)
Theorem X21_wrapper_first_output_needs_no_lock (l : lock) (e : env)
    (rs : Formatting.renderers) (is_seq2seq : bool) (question : str)
    (st : state) (stopping_strings : list str) (ticks : list tick)
    (backend_ending : option exn) :
  let run := Formatting.generate_reply_wrapper l e rs is_seq2seq question st
               stopping_strings ticks backend_ending in
  (exists later,
      fst run
      = Formatting.formatted_outputs
          rs (if negb is_seq2seq then question else []) (model_name e)
        :: later
      /\ (l = true -> later = []))
  /\ (snd run = Formatting.Blocked <-> l = true).
Proof.
  unfold Formatting.generate_reply_wrapper, generate_reply, acquire.
  destruct l.
  - cbn [fst snd]. split.
    + exists []. split; reflexivity.
    + split; reflexivity.
  - destruct (Formatting.wrap_items _ _ _ _ _) as [outs raised]. cbn [fst snd].
    split.
    + exists outs. split; [reflexivity | discriminate].
    + split; discriminate.
Qed.

Lemma wrap_items_texts (rs : Formatting.renderers) (question mn : str)
    (texts : list str) :
  Formatting.wrap_items rs false question mn
                        (map (fun t => One (Str t)) texts)
  = (map (fun t => Formatting.formatted_outputs rs (question ++ t) mn) texts,
     None).
Proof.
  induction texts as [|t texts IH]; [reflexivity|].
  cbn [map Formatting.wrap_items negb Formatting.prepend]. rewrite IH.
  reflexivity.
Qed.

(** X22.  For a causal model with the lock free and the backend running
    (a generation function other than generate_reply_custom was found and
    set_manual_seed accepted the seed), generate_reply_wrapper yields the
    formatted question, then, for every update the cadence lets through,
    the question followed by the html-escaped reply, formatted, and, when
    the backend generator is exhausted, the question followed by what the
    output extension makes of the last escaped reply; the extension is
    given the state the state extension returned, with the cap set to 0
    and with what the backend wrote into it (stream = False after
    generate_reply_HF).  The wrapper ends the way the backend ends, with
    the lock free. *)
Theorem X22_wrapper_outputs (e : env) (rs : Formatting.renderers)
    (question : str) (st : state) (stopping_strings : list str)
    (ticks : list tick) (backend_ending : option exn) (f : backend) (z : Z) :
  find_generate_func e = Some f ->
  f <> generate_reply_custom ->
  set_manual_seed (randint e) (seed (prepared e false st)) = inr z ->
  Formatting.generate_reply_wrapper false e rs false question st
                                    stopping_strings ticks backend_ending
  = (Formatting.formatted_outputs rs question (model_name e)
     :: map (fun tk => Formatting.formatted_outputs
                         rs (question ++ html_escape (t_reply tk))
                         (model_name e))
            (if stream (prepared e false st)
             then forwarded (-1)%Q ticks else [])
     ++ match backend_ending with
        | None =>
            [Formatting.formatted_outputs
               rs
               (question
                ++ ext_output e (last (map (shown true) ticks) [])
                     (backend_writes
                        f (set_max_tokens_second 0%Q (ext_state e st))))
               (model_name e)]
        | Some _ => []
        end,
     Formatting.Ended backend_ending false).
Proof.
  intros Hf Hc Hs.
  unfold Formatting.generate_reply_wrapper, generate_reply. cbn [acquire negb].
  rewrite (dispatcher_run e st stopping_strings false true false ticks
                          backend_ending f z Hf Hc Hs).
  cbn [events finish]. rewrite yielded_app, yielded_in_loop.
  set (fw := if stream (prepared e false st)
             then forwarded (-1)%Q ticks else []).
  set (last_text :=
         ext_output e (last (map (shown true) ticks) [])
                    (backend_writes
                       f (set_max_tokens_second 0%Q (ext_state e st)))).
  assert (map (offered true false) fw
          ++ yielded (closing e f st false true false ticks backend_ending)
          = map (fun t => One (Str t))
                (map (fun tk => html_escape (t_reply tk)) fw
                 ++ match backend_ending with
                    | None => [last_text]
                    | Some _ => []
                    end)) as ->.
  { rewrite map_app, map_map. f_equal.
    unfold closing. destruct backend_ending; reflexivity. }
  rewrite wrap_items_texts, map_app, map_map.
  destruct backend_ending; reflexivity.
Qed.

Lemma X22_wrapper_outputs_witness :
  (find_generate_func (env_hf_marking false) = Some generate_reply_HF /\
   generate_reply_HF <> generate_reply_custom /\
   set_manual_seed (randint (env_hf_marking false))
                   (seed (prepared (env_hf_marking false) false
                                   (streaming 0%Q))) = inr 42) /\
  Formatting.generate_reply_wrapper false (env_hf_marking false)
                                    Formatting.plain_renderers
                                    false (lit "Q: ") (streaming 0%Q) []
                                    hf_updates None
  = (Formatting.formatted_outputs Formatting.plain_renderers (lit "Q: ")
                                  (model_name (env_hf_marking false))
     :: map (fun tk => Formatting.formatted_outputs
                         Formatting.plain_renderers
                         (lit "Q: " ++ html_escape (t_reply tk))
                         (model_name (env_hf_marking false)))
            (if stream (prepared (env_hf_marking false) false (streaming 0%Q))
             then forwarded (-1)%Q hf_updates else [])
     ++ [Formatting.formatted_outputs
           Formatting.plain_renderers
           (lit "Q: "
            ++ ext_output (env_hf_marking false)
                 (last (map (shown true) hf_updates) [])
                 (backend_writes
                    generate_reply_HF
                    (set_max_tokens_second
                       0%Q (ext_state (env_hf_marking false)
                                      (streaming 0%Q)))))
           (model_name (env_hf_marking false))],
     Formatting.Ended None false).
Proof.
  assert (generate_reply_HF <> generate_reply_custom) as Hc by discriminate.
  split; [repeat split; exact Hc|].
  apply (X22_wrapper_outputs
           (env_hf_marking false) Formatting.plain_renderers (lit "Q: ")
           (streaming 0%Q) [] hf_updates None generate_reply_HF 42
           eq_refl Hc eq_refl).
Defined.

(** The same run, computed: the caller asked for streaming, so both
    backend items pass the cadence, but the output extension finds
    stream = False in the state and leaves the last reply unmarked. *)
Example wrapper_after_generate_reply_HF :
  fst (Formatting.generate_reply_wrapper false (env_hf_marking false)
                                         Formatting.plain_renderers
                                         false (lit "Q: ") (streaming 0%Q) []
                                         hf_updates None)
  = [(lit "Q: ", lit "<div>Q: ");
     (lit "Q: ", lit "<div>Q: ");
     (lit "Q: Hello", lit "<div>Q: Hello");
     (lit "Q: Hello", lit "<div>Q: Hello")].
Proof. reflexivity. Qed.

(** X23.  With no model loaded (and no extension generation function) and
    the lock free, generate_reply_wrapper yields its first output twice:
    the empty string that generate_reply yields adds nothing to the
    question.  It then ends normally with the lock free. *)
Theorem X23_wrapper_without_model (e : env) (rs : Formatting.renderers)
    (is_seq2seq : bool) (question : str) (st : state)
    (stopping_strings : list str) (ticks : list tick)
    (backend_ending : option exn) :
  custom_generate_reply e = false ->
  model e = None \/ model_name e = lit "None" ->
  let first :=
    Formatting.formatted_outputs
      rs (if negb is_seq2seq then question else []) (model_name e) in
  Formatting.generate_reply_wrapper false e rs is_seq2seq question st
                                    stopping_strings ticks backend_ending
  = ([first; first], Formatting.Ended None false).
Proof.
  intros Hx Hm first. subst first.
  assert (find_generate_func e = None) as Hf.
  { unfold find_generate_func. rewrite Hx.
    destruct (model e) as [cls|]; [|reflexivity].
    destruct Hm as [Hm|Hm]; [discriminate|]. rewrite Hm. reflexivity. }
  unfold Formatting.generate_reply_wrapper, generate_reply, _generate_reply.
  rewrite Hf. cbn [acquire events finish yielded flat_map app].
  destruct is_seq2seq; cbn [Formatting.wrap_items negb Formatting.prepend];
    rewrite ?app_nil_r; reflexivity.
Qed.

Lemma X23_wrapper_without_model_witness :
  (custom_generate_reply env_none = false /\
   (model env_none = None \/ model_name env_none = lit "None")) /\
  let first :=
    Formatting.formatted_outputs
      Formatting.plain_renderers (if negb false then lit "Q: " else [])
      (model_name env_none) in
  Formatting.generate_reply_wrapper false env_none Formatting.plain_renderers
                                    false (lit "Q: ") no_seed [] [] None
  = ([first; first], Formatting.Ended None false).
Proof.
  assert (model env_none = None \/ model_name env_none = lit "None") as Hm
    by (left; reflexivity).
  split; [split; [reflexivity | exact Hm]|].
  apply (X23_wrapper_without_model
           env_none Formatting.plain_renderers false (lit "Q: ") no_seed []
           [] None eq_refl Hm).
Defined.

(** * Further properties of the session lock and of the seed *)

(** X24.  While a generator of one of the entry points is between its
    acquire and its release, no other request can start: in every
    reachable state with such a generator, the first [next] on any
    generator that has not started blocks, through either entry point. *)
Theorem X24_started_request_blocks_the_others (s : sys) (i : nat)
    (g : entry * phase) :
  reachable s ->
  nth_error (snd s) i = Some g ->
  holding (snd g) = true ->
  forall k items fin, gen_step k Next (fst s) (Created items fin) = None.
Proof.
  intros Hreach Hi Hg k items fin.
  pose proof (reachable_count s Hreach) as Hcount.
  destruct s as [l gs]. simpl in *.
  destruct l; [reflexivity|].
  rewrite (no_holder_at gs Hcount i g Hi) in Hg. discriminate.
Qed.

Lemma X24_started_request_blocks_the_others_witness :
  (reachable first_request_running /\
   nth_error (snd first_request_running) 0
   = Some (via_generate_reply, Holding [One (Str (lit "ab"))] None) /\
   holding (snd (via_generate_reply, Holding [One (Str (lit "ab"))] None))
   = true) /\
  forall k items fin,
    gen_step k Next (fst first_request_running) (Created items fin) = None.
Proof.
  assert (reachable first_request_running) as H.
  { apply (reach_step (false, two_requests)).
    - apply reach_init. reflexivity.
    - apply (step_gen false true via_generate_reply
               (Created [One (Str (lit "a")); One (Str (lit "ab"))] None)
               (Holding [One (Str (lit "ab"))] None)
               Next []
               [(via_generate_reply_token,
                 Created [Two (Str (lit "b")) (Num 1)] None)]).
      reflexivity. }
  split; [repeat split; exact H|].
  apply (X24_started_request_blocks_the_others
           first_request_running 0
           (via_generate_reply, Holding [One (Str (lit "ab"))] None)
           H eq_refl eq_refl).
Defined.

(** X25.  A consumer that keeps calling [next] on a generator of either
    entry point, started with the lock free, finishes it and leaves the
    lock free after at most one call more than the inner generator has
    items, whatever is yielded and however the inner generator ends.
    Through generate_reply the generator ends the way the inner one does;
    through generate_reply_token it always ends normally. *)
Theorem X25_draining_frees_the_lock (k : entry) (items : list item)
    (fin : option exn) :
  drain k (S (length items)) false (Created items fin)
  = (false,
     Finished (match k with
               | via_generate_reply => fin
               | via_generate_reply_token => None
               end)).
Proof.
  cbn [drain gen_step acquire].
  destruct items as [|it rest].
  - simpl. destruct fin, k; reflexivity.
  - cbn [advance length]. destruct k.
    + destruct (drain_holding via_generate_reply rest fin) as [H|[H _]];
        [exact H | discriminate].
    + destruct (unpack2 it).
      * reflexivity.
      * destruct (drain_holding via_generate_reply_token rest fin)
          as [H|[_ H]]; exact H.
Qed.

Lemma ceiling_of_minus_one (q : Q) :
  (-2 < q)%Q -> (q <= -1)%Q -> Qceiling q = -1.
Proof.
  intros Hlo Hhi.
  pose proof (Qle_ceiling q) as Hc. pose proof (Qceiling_lt q) as Hc'.
  assert (-2 < inject_Z (Qceiling q))%Q as H1 by lra.
  assert (inject_Z (Qceiling q) - 1 < -1)%Q as H2.
  { replace (inject_Z (Qceiling q) - 1)%Q
      with (inject_Z (Qceiling q - 1)); [lra|].
    unfold Z.sub. rewrite inject_Z_plus. reflexivity. }
  assert (inject_Z (Qceiling q) < 0)%Q as H3 by lra.
  change (-2)%Q with (inject_Z (-2)) in H1.
  change 0%Q with (inject_Z 0) in H3.
  rewrite <- Zlt_Qlt in H1, H3. lia.
Qed.

(** X26.  set_manual_seed never seeds with -1 as long as random.randint
    keeps to its range: the seed used is int(seed), or the random draw
    when int(seed) is -1.  A float seed is truncated first, so every float
    above -2 and up to -1 asks for a random seed. *)
Theorem X26_seed_used (rnd : Z) (v : seed_val) (z : Z) :
  1 <= rnd <= 2 ^ 31 ->
  set_manual_seed rnd v = inr z ->
  z <> -1
  /\ ((py_int v = inr z) \/ (py_int v = inr (-1) /\ z = rnd))
  /\ (forall q, v = SeedFloat q -> (-2 < q)%Q -> (q <= -1)%Q -> z = rnd).
Proof.
  intros Hrnd H.
  destruct (seed_accepted rnd v z H) as (n & Ev & -> & _).
  destruct (n =? -1) eqn:En.
  - apply Z.eqb_eq in En. subst n. split; [lia|]. split.
    + right. split; [exact Ev | reflexivity].
    + reflexivity.
  - apply Z.eqb_neq in En. split; [exact En|]. split.
    + left. exact Ev.
    + intros q -> Hlo Hhi. exfalso. apply En. simpl in Ev.
      assert (Qle_bool 0 q = false) as Hneg.
      { destruct (Qle_bool 0 q) eqn:E; [|reflexivity].
        apply Qle_bool_iff in E. lra. }
      rewrite Hneg in Ev. injection Ev as <-.
      apply ceiling_of_minus_one; assumption.
Qed.

Lemma X26_seed_used_witness :
  (1 <= 1234 <= 2 ^ 31 /\
   set_manual_seed 1234 (SeedFloat (-1.5)%Q) = inr 1234) /\
  1234 <> -1
  /\ ((py_int (SeedFloat (-1.5)%Q) = inr 1234)
      \/ (py_int (SeedFloat (-1.5)%Q) = inr (-1) /\ 1234 = 1234))
  /\ (forall q, SeedFloat (-1.5)%Q = SeedFloat q ->
                (-2 < q)%Q -> (q <= -1)%Q -> 1234 = 1234).
Proof.
  assert (1 <= 1234 <= 2 ^ 31) as Hr by (simpl; lia).
  split; [split; [exact Hr | reflexivity]|].
  apply (X26_seed_used 1234 (SeedFloat (-1.5)%Q) 1234 Hr eq_refl).
Defined.
